(** * jyugemu: the persistent history store and its query layer

    A shallow embedding of [FileManager] (file-manager.ts), [HistoryManager]
    (history-manager.ts) and the capture path of [SessionManager]
    (session-manager.ts).

    - A JavaScript string is the list of its UTF-16 code units.
    - A JavaScript value is a tree ([value]); objects keep their members in
      property order.
    - The file system is a finite map from paths to file texts, inside a
      [World] that also carries the wall clock and the log of the mutations
      performed.  The ways in which the operating system can refuse or tear
      an operation are an explicit oracle of the environment.
    - Methods that can throw run in a state-and-exception monad. *)

From Stdlib Require Import ZArith NArith Lia String Ascii.
From stdpp Require Import gmap list.

Local Open Scope Z_scope.

(** ** JavaScript strings *)

Module JsString.

(** A string is the sequence of its UTF-16 code units. *)
Abbreviation jstring := (list N).

(** The code units of an ASCII literal. *)
Definition js (s : string) : jstring :=
  List.map N_of_ascii (list_ascii_of_string s).

(** [String.prototype.repeat] for a one-unit string. *)
Definition repeat_unit (c : N) (n : nat) : jstring := List.repeat c n.

(** [String.prototype.padEnd(targetLength)] with the default filler, a
    space: a string already as long as the target is returned as it is. *)
Definition padEnd (s : jstring) (target : nat) : jstring :=
  if (target <=? length s)%nat then s
  else s ++ repeat_unit 32%N (target - length s).

(** [Array.prototype.join(sep)] on an array of strings. *)
Fixpoint join (sep : jstring) (parts : list jstring) : jstring :=
  match parts with
  | [] => []
  | [p] => p
  | p :: rest => p ++ sep ++ join sep rest
  end.

(** [Math.max(...xs)] on lengths.  Every call site passes at least the
    length of a header label, so the neutral element is never the answer. *)
Definition Math_max (xs : list nat) : nat := foldr Nat.max 0%nat xs.

(** *** Case mapping

    [toLowerCase] and [toUpperCase] follow the Unicode case tables for the
    Basic Latin and Latin-1 Supplement blocks (U+0000 to U+00FF), including
    the three letters whose upper case leaves the block: U+00DF (sharp s)
    becomes the two units "SS", U+00FF becomes U+0178 and U+00B5 becomes
    U+039C.  Code units above U+00FF are outside the tables carried here and
    are left as they are, where JavaScript maps some of them (U+0131 to
    "I", U+212A to "k", Greek, Cyrillic); what is proved about case is
    therefore stated for text in the range of the tables ([latin1]). *)

Definition lower_unit (c : N) : N :=
  if ((65 <=? c) && (c <=? 90))%N then (c + 32)%N
  else if ((192 <=? c) && (c <=? 222) && negb (c =? 215))%N then (c + 32)%N
  else c.

Definition upper_unit (c : N) : jstring :=
  if ((97 <=? c) && (c <=? 122))%N then [(c - 32)%N]
  else if ((224 <=? c) && (c <=? 254) && negb (c =? 247))%N then [(c - 32)%N]
  else if (c =? 223)%N then [83%N; 83%N]
  else if (c =? 255)%N then [376%N]
  else if (c =? 181)%N then [924%N]
  else [c].

Definition toLowerCase (s : jstring) : jstring := List.map lower_unit s.

Definition toUpperCase (s : jstring) : jstring := List.flat_map upper_unit s.

(** *** Trimming

    The code units [String.prototype.trim] strips: the WhiteSpace and
    LineTerminator productions of ECMAScript. *)
Definition is_space (c : N) : bool :=
  (((9 <=? c) && (c <=? 13)) || (c =? 32) || (c =? 160) || (c =? 5760)
   || ((8192 <=? c) && (c <=? 8202)) || (c =? 8232) || (c =? 8233)
   || (c =? 8239) || (c =? 8287) || (c =? 12288) || (c =? 65279))%N.

Fixpoint trimStart (s : jstring) : jstring :=
  match s with
  | c :: rest => if is_space c then trimStart rest else s
  | [] => []
  end.

Definition trimEnd (s : jstring) : jstring := rev (trimStart (rev s)).

Definition trim (s : jstring) : jstring := trimEnd (trimStart s).

(** *** Searching *)

(** [String.prototype.startsWith]. *)
Fixpoint startsWith (s p : jstring) {struct p} : bool :=
  match p, s with
  | [], _ => true
  | _ :: _, [] => false
  | a :: p', b :: s' => (a =? b)%N && startsWith s' p'
  end.

(** [String.prototype.includes]: the needle is looked for at every
    position of the string, from the left. *)
Fixpoint includes (s needle : jstring) : bool :=
  startsWith s needle ||
  match s with
  | [] => false
  | _ :: s' => includes s' needle
  end.

(** *** Numbers as text *)

(** The decimal digits of a natural number, most significant first.  The
    fuel is the number of binary digits, which bounds the number of
    decimal ones. *)
Fixpoint digits_from (fuel : nat) (n : N) (acc : jstring) : jstring :=
  match fuel with
  | O => acc
  | S fuel' =>
      let acc' := (48 + n mod 10)%N :: acc in
      if (n <? 10)%N then acc' else digits_from fuel' (n / 10)%N acc'
  end.

Definition N_toString (n : N) : jstring :=
  digits_from (S (N.to_nat (N.log2 n))) n [].

(** [Number.prototype.toString] on an integer: plain decimal digits, which
    is what JavaScript prints for an integer below 10^21 in magnitude. *)
Definition Z_toString (z : Z) : jstring :=
  match z with
  | Zneg p => 45%N :: N_toString (Npos p)
  | _ => N_toString (Z.to_N z)
  end.

End JsString.
Export JsString.

(** ** Records *)

(** [CommandRecord] of types.ts. *)
Record CommandRecord : Type := mkRecord {
  timestamp : jstring;
  user : jstring;
  command : jstring;
  exit_code : Z;
  cwd : jstring;
  note : option jstring
}.

(** ** The query layer: [HistoryManager] *)

Module HistoryManager.

(** [filterCommands(records, filter)]. *)
Definition filterCommands (records : list CommandRecord) (filter : jstring)
  : list CommandRecord :=
  if (match filter with [] => true | _ => false end)
     || (length (trim filter) =? 0)%nat
  then records
  else
    let lowerFilter := toLowerCase filter in
    List.filter (fun record => includes (toLowerCase (command record)) lowerFilter)
                records.

Definition NO_HISTORY : jstring := Eval cbv in js "No command history found.".
Definition L_Timestamp : jstring := Eval cbv in js "Timestamp".
Definition L_Command : jstring := Eval cbv in js "Command".
Definition L_ExitCode : jstring := Eval cbv in js "Exit Code".
Definition L_Directory : jstring := Eval cbv in js "Directory".
Definition L_User : jstring := Eval cbv in js "User".
Definition SEP_CELL : jstring := Eval cbv in js " | ".
Definition SEP_RULE : jstring := Eval cbv in js "-+-".
Definition NEWLINE : jstring := [10%N].
Definition DASH : N := 45%N.

(** [formatForDisplay(records)]. *)
Definition formatForDisplay (records : list CommandRecord) : jstring :=
  if (length records =? 0)%nat then NO_HISTORY
  else
    let maxTimestampLen :=
      Math_max (List.map (fun r => length (timestamp r)) records
                ++ [length L_Timestamp]) in
    let maxCommandLen :=
      Math_max (List.map (fun r => length (command r)) records
                ++ [length L_Command]) in
    let maxExitCodeLen :=
      Math_max (List.map (fun r => length (Z_toString (exit_code r))) records
                ++ [length L_ExitCode]) in
    let maxCwdLen :=
      Math_max (List.map (fun r => length (cwd r)) records
                ++ [length L_Directory]) in
    let header :=
      join SEP_CELL
        [ padEnd L_Timestamp maxTimestampLen;
          padEnd L_Command maxCommandLen;
          padEnd L_ExitCode maxExitCodeLen;
          padEnd L_Directory maxCwdLen;
          L_User ] in
    let separator :=
      join SEP_RULE
        [ repeat_unit DASH maxTimestampLen;
          repeat_unit DASH maxCommandLen;
          repeat_unit DASH maxExitCodeLen;
          repeat_unit DASH maxCwdLen;
          repeat_unit DASH 4 ] in
    let rows :=
      List.map (fun record =>
        join SEP_CELL
          [ padEnd (timestamp record) maxTimestampLen;
            padEnd (command record) maxCommandLen;
            padEnd (Z_toString (exit_code record)) maxExitCodeLen;
            padEnd (cwd record) maxCwdLen;
            user record ]) records in
    join NEWLINE ([header; separator] ++ rows).

End HistoryManager.

(** ** JavaScript values and JSON *)

(** A JavaScript number.  Integers are exact, and zero has no sign; a
    finite number written with a fraction or an exponent is kept as its
    literal text (its binary floating-point value is outside the model);
    [NaN] and the two infinities are the non-finite numbers. *)
Inductive number : Type :=
  | Int (z : Z)
  | Decimal (text : jstring)
  | NaN
  | Infinity (negative : bool).

(** A JavaScript value as far as the store meets them: what [JSON.parse]
    can build, plus [undefined].  An object is the list of its own
    members in property order. *)
#[local] Set Warnings "-register-all".
Inductive value : Type :=
  | VUndefined
  | VNull
  | VBool (b : bool)
  | VNum (n : number)
  | VStr (s : jstring)
  | VArr (items : list value)
  | VObj (members : list (jstring * value)).

(** [typeof v]. *)
Inductive jstype : Type :=
  | TUndefined | TObject | TBoolean | TNumber | TString.

Definition typeof (v : value) : jstype :=
  match v with
  | VUndefined => TUndefined
  | VNull => TObject
  | VBool _ => TBoolean
  | VNum _ => TNumber
  | VStr _ => TString
  | VArr _ => TObject
  | VObj _ => TObject
  end.

Definition jstring_eqb (a b : jstring) : bool := bool_decide (a = b).

(** [obj[key]] on an object's member list: [undefined] when absent. *)
Fixpoint obj_get (ms : list (jstring * value)) (key : jstring) : value :=
  match ms with
  | [] => VUndefined
  | (k, v) :: rest => if jstring_eqb k key then v else obj_get rest key
  end.

(** [obj[key] = v]: an existing member keeps its place, a new one goes
    last. *)
Fixpoint obj_set (ms : list (jstring * value)) (key : jstring) (v : value)
  : list (jstring * value) :=
  match ms with
  | [] => [(key, v)]
  | (k, x) :: rest =>
      if jstring_eqb k key then (k, v) :: rest
      else (k, x) :: obj_set rest key v
  end.

Module Json.

Local Open Scope N_scope.

Definition spaces (n : nat) : jstring := repeat_unit 32 n.

Definition hex_digit (d : N) : N :=
  if d <? 10 then 48 + d else 87 + d.

(** The escape [\uXXXX] of a code unit, in lower-case hexadecimal. *)
Definition unicode_escape (c : N) : jstring :=
  [92; 117; hex_digit (c / 4096 mod 16); hex_digit (c / 256 mod 16);
   hex_digit (c / 16 mod 16); hex_digit (c mod 16)].

Definition is_high_surrogate (c : N) : bool := (55296 <=? c) && (c <=? 56319).
Definition is_low_surrogate (c : N) : bool := (56320 <=? c) && (c <=? 57343).

(** One code unit of [QuoteJSONString] that is not part of a surrogate
    pair. *)
Definition quote_unit (c : N) : jstring :=
  if c =? 8 then [92; 98]
  else if c =? 9 then [92; 116]
  else if c =? 10 then [92; 110]
  else if c =? 12 then [92; 102]
  else if c =? 13 then [92; 114]
  else if c =? 34 then [92; 34]
  else if c =? 92 then [92; 92]
  else if (c <? 32) || is_high_surrogate c || is_low_surrogate c
       then unicode_escape c
  else [c].

(** The body of [QuoteJSONString]: a well-formed surrogate pair is copied,
    a lone surrogate is escaped. *)
Fixpoint quote_units (s : jstring) : jstring :=
  match s with
  | [] => []
  | c :: rest =>
      if is_high_surrogate c then
        match rest with
        | d :: rest' =>
            if is_low_surrogate d then c :: d :: quote_units rest'
            else unicode_escape c ++ quote_units rest
        | [] => unicode_escape c
        end
      else quote_unit c ++ quote_units rest
  end.

Definition QuoteJSONString (s : jstring) : jstring :=
  34 :: quote_units s ++ [34].

(** [Number::toString] as [JSON.stringify] uses it: a non-finite number
    is serialized as [null]. *)
Definition serialize_number (n : number) : jstring :=
  match n with
  | Int z => Z_toString z
  | Decimal text => text
  | NaN | Infinity _ => [110; 117; 108; 108]
  end.

(** [SerializeJSONProperty] with a gap of two spaces per level, which is
    what [JSON.stringify(v, null, 2)] runs.  [indent] is the indentation
    of the enclosing line; [None] stands for the result [undefined]. *)
Fixpoint serialize (indent : nat) (v : value) : option jstring :=
  match v with
  | VUndefined => None
  | VNull => Some [110; 117; 108; 108]
  | VBool true => Some [116; 114; 117; 101]
  | VBool false => Some [102; 97; 108; 115; 101]
  | VNum n => Some (serialize_number n)
  | VStr s => Some (QuoteJSONString s)
  | VArr items =>
      let inner := (indent + 2)%nat in
      let partial :=
        List.map (fun x => match serialize inner x with
                           | Some t => t
                           | None => [110; 117; 108; 108]
                           end) items in
      match partial with
      | [] => Some [91; 93]
      | _ => Some ([91; 10] ++ spaces inner
                   ++ join ([44; 10] ++ spaces inner) partial
                   ++ [10] ++ spaces indent ++ [93])
      end
  | VObj members =>
      let inner := (indent + 2)%nat in
      let partial :=
        List.flat_map (fun m => match serialize inner (snd m) with
                                | Some t => [QuoteJSONString (fst m) ++ [58; 32] ++ t]
                                | None => []
                                end) members in
      match partial with
      | [] => Some [123; 125]
      | _ => Some ([123; 10] ++ spaces inner
                   ++ join ([44; 10] ++ spaces inner) partial
                   ++ [10] ++ spaces indent ++ [125])
      end
  end.

(** [JSON.stringify(v, null, 2)]. *)
Definition JSON_stringify (v : value) : option jstring := serialize 0 v.

(** *** Parsing *)

(** JSON white space: tab, line feed, carriage return, space. *)
Definition is_json_ws (c : N) : bool :=
  (c =? 9) || (c =? 10) || (c =? 13) || (c =? 32).

Fixpoint skip_ws (s : jstring) : jstring :=
  match s with
  | c :: rest => if is_json_ws c then skip_ws rest else s
  | [] => []
  end.

Definition is_digit (c : N) : bool := (48 <=? c) && (c <=? 57).

Definition hex_value (c : N) : option N :=
  if is_digit c then Some (c - 48)
  else if (97 <=? c) && (c <=? 102) then Some (c - 87)
  else if (65 <=? c) && (c <=? 70) then Some (c - 55)
  else None.

Definition hex4_value (a b c d : N) : option N :=
  match hex_value a, hex_value b, hex_value c, hex_value d with
  | Some x, Some y, Some z, Some w => Some (x * 4096 + y * 256 + z * 16 + w)
  | _, _, _, _ => None
  end.

(** The unit a two-character escape stands for. *)
Definition simple_escape (e : N) : option N :=
  if e =? 34 then Some 34
  else if e =? 92 then Some 92
  else if e =? 47 then Some 47
  else if e =? 98 then Some 8
  else if e =? 102 then Some 12
  else if e =? 110 then Some 10
  else if e =? 114 then Some 13
  else if e =? 116 then Some 9
  else None.

(** The characters of a string literal after its opening quote, up to and
    including the closing one.  [acc] holds the units read so far, last
    first. *)
Fixpoint parse_chars (s : jstring) (acc : jstring) : option (jstring * jstring) :=
  match s with
  | [] => None
  | c :: r =>
      if c =? 34 then Some (rev acc, r)
      else if c =? 92 then
        match r with
        | [] => None
        | e :: r1 =>
            if e =? 117 then
              match r1 with
              | h1 :: h2 :: h3 :: h4 :: r2 =>
                  match hex4_value h1 h2 h3 h4 with
                  | Some u => parse_chars r2 (u :: acc)
                  | None => None
                  end
              | _ => None
              end
            else
              match simple_escape e with
              | Some u => parse_chars r1 (u :: acc)
              | None => None
              end
        end
      else if c <? 32 then None
      else parse_chars r (c :: acc)
  end.

(** The longest run of decimal digits at the head of the text. *)
Fixpoint span_digits (s : jstring) : jstring * jstring :=
  match s with
  | c :: r =>
      if is_digit c then let (ds, r') := span_digits r in (c :: ds, r')
      else ([], s)
  | [] => ([], [])
  end.

Definition digits_value (ds : jstring) : N :=
  fold_left (fun a d => 10 * a + (d - 48)) ds 0.

(** The rest of the text when it starts with the unit [c]. *)
Definition next_is (c : N) (s : jstring) : option jstring :=
  match s with
  | x :: r => if x =? c then Some r else None
  | [] => None
  end.

(** The optional fraction of a number: a dot and at least one digit. *)
Definition parse_fraction (s : jstring) : option (jstring * jstring) :=
  match next_is 46 s with
  | Some r =>
      match span_digits r with
      | ([], _) => None
      | (fs, r') => Some (46 :: fs, r')
      end
  | None => Some ([], s)
  end.

(** The optional exponent of a number: [e] or [E], an optional sign and at
    least one digit. *)
Definition parse_exponent (s : jstring) : option (jstring * jstring) :=
  match s with
  | e :: r =>
      if (e =? 101) || (e =? 69) then
        let (sign, r1) :=
          match r with
          | g :: r0 => if (g =? 43) || (g =? 45) then ([g], r0) else ([], r)
          | [] => ([], r)
          end in
        match span_digits r1 with
        | ([], _) => None
        | (es, r') => Some (e :: sign ++ es, r')
        end
      else Some ([], s)
  | [] => Some ([], s)
  end.

(** What follows the integer part [ds] of a number. *)
Definition parse_number_tail (neg : bool) (ds : jstring) (s : jstring)
  : option (number * jstring) :=
  match parse_fraction s with
  | None => None
  | Some (frac, s1) =>
      match parse_exponent s1 with
      | None => None
      | Some (ex, s2) =>
          match frac, ex with
          | [], [] =>
              let n := Z.of_N (digits_value ds) in
              Some (Int (if neg then Z.opp n else n), s2)
          | _, _ =>
              Some (Decimal ((if neg then [45] else []) ++ ds ++ frac ++ ex), s2)
          end
      end
  end.

(** A JSON number: an optional minus, then [0] or a digit run without a
    leading zero, then the optional fraction and exponent. *)
Definition parse_number (s : jstring) : option (number * jstring) :=
  let (neg, s1) :=
    match next_is 45 s with
    | Some r => (true, r)
    | None => (false, s)
    end in
  match s1 with
  | d :: r =>
      if d =? 48 then parse_number_tail neg [48] r
      else if is_digit d then
        let (ds, r') := span_digits r in parse_number_tail neg (d :: ds) r'
      else None
  | [] => None
  end.

(** The rest of a literal name whose first letter has been read. *)
Definition expect (word : jstring) (s : jstring) (v : value)
  : option (value * jstring) :=
  if startsWith s word then Some (v, drop (length word) s) else None.

(** The recursive-descent parser.  [fuel] bounds the nesting of the
    calls; [None] is the [SyntaxError]. *)
Fixpoint parse_value (fuel : nat) (s : jstring) : option (value * jstring) :=
  match fuel with
  | O => None
  | S fuel' =>
      match skip_ws s with
      | [] => None
      | c :: r =>
          if c =? 123 then
            match next_is 125 (skip_ws r) with
            | Some r' => Some (VObj [], r')
            | None => parse_members fuel' (skip_ws r) []
            end
          else if c =? 91 then
            match next_is 93 (skip_ws r) with
            | Some r' => Some (VArr [], r')
            | None => parse_elems fuel' (skip_ws r) []
            end
          else if c =? 34 then
            match parse_chars r [] with
            | Some (str, r') => Some (VStr str, r')
            | None => None
            end
          else if c =? 116 then expect [114; 117; 101] r (VBool true)
          else if c =? 102 then expect [97; 108; 115; 101] r (VBool false)
          else if c =? 110 then expect [117; 108; 108] r VNull
          else
            match parse_number (c :: r) with
            | Some (n, r') => Some (VNum n, r')
            | None => None
            end
      end
  end
with parse_elems (fuel : nat) (s : jstring) (acc : list value)
  : option (value * jstring) :=
  match fuel with
  | O => None
  | S fuel' =>
      match parse_value fuel' s with
      | None => None
      | Some (v, r) =>
          match next_is 44 (skip_ws r) with
          | Some r' => parse_elems fuel' r' (acc ++ [v])
          | None =>
              match next_is 93 (skip_ws r) with
              | Some r' => Some (VArr (acc ++ [v]), r')
              | None => None
              end
          end
      end
  end
with parse_members (fuel : nat) (s : jstring) (acc : list (jstring * value))
  : option (value * jstring) :=
  match fuel with
  | O => None
  | S fuel' =>
      match next_is 34 (skip_ws s) with
      | None => None
      | Some r =>
          match parse_chars r [] with
          | None => None
          | Some (key, r1) =>
              match next_is 58 (skip_ws r1) with
              | None => None
              | Some r2 =>
                  match parse_value fuel' r2 with
                  | None => None
                  | Some (v, r3) =>
                      match next_is 44 (skip_ws r3) with
                      | Some r' => parse_members fuel' r' (obj_set acc key v)
                      | None =>
                          match next_is 125 (skip_ws r3) with
                          | Some r' => Some (VObj (obj_set acc key v), r')
                          | None => None
                          end
                      end
                  end
              end
          end
      end
  end.

(** [JSON.parse(text)]: one value, with only white space after it. *)
Definition JSON_parse (text : jstring) : option value :=
  match parse_value (2 * length text + 2) text with
  | Some (v, r) =>
      match skip_ws r with
      | [] => Some v
      | _ => None
      end
  | None => None
  end.

End Json.
Export Json.

(** ** The world outside the program *)

(** How a write to a file can fail: refused before anything is written, or
    torn after the first [written] code units reached the file. *)
Inductive write_fault : Type :=
  | WriteRefused
  | WriteTorn (written : nat).

(** What the program cannot decide for itself: the process and the user
    it runs as, how the runtime prints an instant, and which file
    operations the operating system lets fail. *)
Record Env : Type := mkEnv {
  pid : N;
  username : jstring;
  toISOString : Z -> jstring;
  read_fails : jstring -> bool;
  write_fault_at : jstring -> option write_fault;
  rename_fails : jstring -> jstring -> bool;
  unlink_fails : jstring -> bool;
  copy_fault_at : jstring -> jstring -> option write_fault
}.

(** A mutation of the file system that took place. *)
Inductive event : Type :=
  | Wrote (path content : jstring)
  | Renamed (src dst : jstring)
  | Unlinked (path : jstring)
  | Copied (src dst content : jstring).

(** The state the program runs in: the files (path to text), the wall
    clock in milliseconds, and the mutations so far, oldest first.  The
    text of a file is what reading it as UTF-8 gives; a path is the file's
    name as the program spells it. *)
Record World : Type := mkWorld {
  files : gmap jstring jstring;
  clock : Z;
  trace : list event
}.

Definition set_files (w : World) (fs : gmap jstring jstring) (ev : event) : World :=
  mkWorld fs (clock w) (trace w ++ [ev]).

Inductive fs_op : Type := OpRead | OpWrite | OpRename | OpUnlink | OpCopy.

(** What a method can throw.  Each [new Error(...)] of the sources has a
    constructor of its own, named after its message. *)
Inductive exn : Type :=
  | FsError (op : fs_op) (path : jstring)
      (* an error of the [fs] module *)
  | SyntaxError
      (* [JSON.parse] on a text that is not JSON *)
  | TypeError
      (* a property of [null] or [undefined], a call of a non-function *)
  | AlreadyExists (path : jstring)
      (* "History file already exists at <path>. Use --force to overwrite." *)
  | ReadFailed (cause : exn)
      (* "Failed to read history file: <cause>" *)
  | BackupFailed (cause : exn)
      (* "Failed to backup corrupted file: <cause>" *)
  | WriteFailed (cause : exn)
      (* "Failed to write history file: <cause>" *)
  | LockTimeout
      (* "Failed to acquire lock: timeout" *)
  | LockCreateFailed (cause : exn)
      (* "Failed to create lock file: <cause>" *)
  | MissingField (field : jstring)
      (* "CommandRecord missing required field: <field>" *)
  | InvalidTimestamp (ts : value)
      (* "Invalid timestamp format: <ts>" *)
  | ExitCodeNotNumber (t : jstype)
      (* "Exit code must be a number, got <t>" *).

(** The outcome of a call: a value, or a thrown exception. *)
Inductive Res (A : Type) : Type :=
  | Ok (a : A)
  | Throw (e : exn).
Arguments Ok {A} a.
Arguments Throw {A} e.

(** Computations that read and change the world and may throw. *)
Definition M (A : Type) : Type := World -> Res A * World.

Definition ret {A} (a : A) : M A := fun w => (Ok a, w).

Definition throw {A} (e : exn) : M A := fun w => (Throw e, w).

Definition bind {A B} (m : M A) (k : A -> M B) : M B :=
  fun w =>
    match m w with
    | (Ok a, w') => k a w'
    | (Throw e, w') => (Throw e, w')
    end.

(** [try { body } catch (error) { handler }]. *)
Definition try_catch {A} (body : M A) (handler : exn -> M A) : M A :=
  fun w =>
    match body w with
    | (Ok a, w') => (Ok a, w')
    | (Throw e, w') => handler e w'
    end.

(** [try { body } finally { cleanup }]: the cleanup runs on both paths; if
    it throws, its exception replaces the outcome of the body. *)
Definition try_finally {A} (body : M A) (cleanup : M unit) : M A :=
  fun w =>
    match body w with
    | (r, w') =>
        match cleanup w' with
        | (Ok _, w'') => (r, w'')
        | (Throw e, w'') => (Throw e, w'')
        end
    end.

Notation "'let!' x ':=' m 'in' k" := (bind m (fun x => k))
  (at level 10, x name, m at level 100, k at level 200).
Notation "m ';;' k" := (bind m (fun _ => k))
  (at level 100, k at level 200, right associativity).

(** ** The [fs] module *)

Section Fs.

Variable E : Env.

(** [Date.now()]. *)
Definition Date_now : M Z := fun w => (Ok (clock w), w).

(** [await new Promise(resolve => setTimeout(resolve, ms))]: the timer
    fires after exactly [ms] milliseconds. *)
Definition sleep (ms : Z) : M unit :=
  fun w => (Ok tt, mkWorld (files w) (clock w + ms) (trace w)).

(** [fs.existsSync(path)]; it never throws. *)
Definition existsSync (path : jstring) : M bool :=
  fun w => (Ok (bool_decide (is_Some (files w !! path))), w).

(** [fs.readFileSync(path, 'utf-8')]. *)
Definition readFileSync (path : jstring) : M jstring :=
  fun w =>
    if read_fails E path then (Throw (FsError OpRead path), w)
    else match files w !! path with
         | Some content => (Ok content, w)
         | None => (Throw (FsError OpRead path), w)
         end.

(** [fs.writeFileSync(path, content, 'utf-8')]: the file is created or
    replaced. *)
Definition writeFileSync (path content : jstring) : M unit :=
  fun w =>
    match write_fault_at E path with
    | None => (Ok tt, set_files w (<[path := content]> (files w)) (Wrote path content))
    | Some WriteRefused => (Throw (FsError OpWrite path), w)
    | Some (WriteTorn n) =>
        (Throw (FsError OpWrite path),
         set_files w (<[path := take n content]> (files w)) (Wrote path (take n content)))
    end.

(** [fs.renameSync(src, dst)]: one step, the destination is replaced. *)
Definition renameSync (src dst : jstring) : M unit :=
  fun w =>
    if rename_fails E src dst then (Throw (FsError OpRename src), w)
    else match files w !! src with
         | Some content =>
             (Ok tt, set_files w (<[dst := content]> (delete src (files w))) (Renamed src dst))
         | None => (Throw (FsError OpRename src), w)
         end.

(** [fs.unlinkSync(path)]. *)
Definition unlinkSync (path : jstring) : M unit :=
  fun w =>
    if unlink_fails E path then (Throw (FsError OpUnlink path), w)
    else match files w !! path with
         | Some _ => (Ok tt, set_files w (delete path (files w)) (Unlinked path))
         | None => (Throw (FsError OpUnlink path), w)
         end.

(** [fs.copyFileSync(src, dst)]: the destination is created or replaced. *)
Definition copyFileSync (src dst : jstring) : M unit :=
  fun w =>
    match files w !! src with
    | None => (Throw (FsError OpCopy src), w)
    | Some content =>
        match copy_fault_at E src dst with
        | None =>
            (Ok tt, set_files w (<[dst := content]> (files w)) (Copied src dst content))
        | Some WriteRefused => (Throw (FsError OpCopy src), w)
        | Some (WriteTorn n) =>
            (Throw (FsError OpCopy src),
             set_files w (<[dst := take n content]> (files w))
                       (Copied src dst (take n content)))
        end
    end.

End Fs.

(** ** The persistent store: [FileManager] *)

Definition K_history : jstring := Eval cbv in js "history".
Definition SUFFIX_LOCK : jstring := Eval cbv in js ".lock".
Definition SUFFIX_TMP : jstring := Eval cbv in js ".tmp".
Definition SUFFIX_BACKUP : jstring := Eval cbv in js ".backup.".

#[global] Arguments K_history : simpl never.
#[global] Arguments SUFFIX_LOCK : simpl never.
#[global] Arguments SUFFIX_TMP : simpl never.
#[global] Arguments SUFFIX_BACKUP : simpl never.

(** [{ history: [] }]. *)
Definition empty_history : value := VObj [(K_history, VArr [])].

(** [Array.prototype.slice(start)] and [String.prototype.slice(start)]: a
    negative start counts from the end, and both ends are clamped. *)
Definition slice {A} (l : list A) (start : Z) : list A :=
  let len := Z.of_nat (length l) in
  let k := if start <? 0 then Z.max (len + start) 0 else Z.min start len in
  drop (Z.to_nat k) l.

(** A number in a condition: zero is false. *)
Definition truthy_number (n : Z) : bool := negb (n =? 0).

(** [JSON.parse(content)] as a computation. *)
Definition parse (content : jstring) : M value :=
  match JSON_parse content with
  | Some v => ret v
  | None => throw SyntaxError
  end.

(** [historyFile.history]: reading a property of [null] or [undefined]
    throws; a value that is not an object has no such property. *)
Definition get_history (historyFile : value) : M value :=
  match historyFile with
  | VUndefined | VNull => throw TypeError
  | VObj members => ret (obj_get members K_history)
  | _ => ret VUndefined
  end.

(** [historyFile.history.push(record)]; the array is changed in place, so
    the result is the object with its [history] member extended. *)
Definition push_history (historyFile record : value) : M value :=
  let! history := get_history historyFile in
  match historyFile, history with
  | VObj members, VArr items =>
      ret (VObj (obj_set members K_history (VArr (items ++ [record]))))
  | _, _ => throw TypeError
  end.

(** [history.slice(start)]: arrays and strings have the method. *)
Definition slice_value (history : value) (start : Z) : M value :=
  match history with
  | VArr items => ret (VArr (slice items start))
  | VStr s => ret (VStr (slice s start))
  | _ => throw TypeError
  end.

Module FileManager.

Section Methods.

Variable E : Env.

(** The constructor argument. *)
Variable historyFilePath : jstring.

Definition lockFilePath : jstring := historyFilePath ++ SUFFIX_LOCK.

Definition LOCK_TIMEOUT : Z := 5000.

(** The polling rounds the timeout leaves room for, with one to spare. *)
Definition MAX_POLLS : nat := 502.

(** [atomicWrite(historyFile)]. *)
Definition atomicWrite (historyFile : value) : M unit :=
  let tempPath := historyFilePath ++ SUFFIX_TMP in
  try_catch
    (let! content :=
       match JSON_stringify historyFile with
       | Some text => ret text
       | None => throw TypeError
       end in
     writeFileSync E tempPath content ;;
     renameSync E tempPath historyFilePath)
    (fun error =>
       (let! present := existsSync tempPath in
        if present
        then try_catch (unlinkSync E tempPath) (fun _ => ret tt)
        else ret tt) ;;
       throw (WriteFailed error)).

(** The waiting loop of [acquireLock].  [polls] bounds the rounds; the
    bound of [MAX_POLLS] is never reached (lemma [wait_for_lock_bound]). *)
Fixpoint wait_for_lock (polls : nat) (startTime : Z) : M unit :=
  let! held := existsSync lockFilePath in
  if held then
    let! now := Date_now in
    if now - startTime >? LOCK_TIMEOUT then throw LockTimeout
    else
      match polls with
      | O => throw LockTimeout
      | S polls' => sleep 10 ;; wait_for_lock polls' startTime
      end
  else ret tt.

(** [acquireLock()]. *)
Definition acquireLock : M unit :=
  let! startTime := Date_now in
  wait_for_lock MAX_POLLS startTime ;;
  try_catch
    (writeFileSync E lockFilePath (N_toString (pid E)))
    (fun error => throw (LockCreateFailed error)).

(** [releaseLock()]; a failure is reported on the console and not thrown. *)
Definition releaseLock : M unit :=
  try_catch
    (let! present := existsSync lockFilePath in
     if present then unlinkSync E lockFilePath else ret tt)
    (fun error => ret tt).

(** [timestamp.replace(/[:.]/g, '-')]. *)
Definition replace_colon_dot (s : jstring) : jstring :=
  List.map (fun c => if ((c =? 58) || (c =? 46))%N then 45%N else c) s.

(** [backupCorruptedFile()]. *)
Definition backupCorruptedFile : M unit :=
  let! present := existsSync historyFilePath in
  if negb present then ret tt
  else
    let! now := Date_now in
    let timestamp := replace_colon_dot (toISOString E now) in
    let backupPath := historyFilePath ++ SUFFIX_BACKUP ++ timestamp in
    try_catch
      (copyFileSync E historyFilePath backupPath ;;
       unlinkSync E historyFilePath)
      (fun error => throw (BackupFailed error)).

(** [initializeHistoryFile(force)]. *)
Definition initializeHistoryFile (force : bool) : M unit :=
  let! present := existsSync historyFilePath in
  if present && negb force then throw (AlreadyExists historyFilePath)
  else
    (let! present := existsSync historyFilePath in
     if present && force then backupCorruptedFile else ret tt) ;;
    let initialHistory := empty_history in
    atomicWrite initialHistory.

(** [appendCommand(record)]. *)
Definition appendCommand (record : value) : M unit :=
  acquireLock ;;
  try_finally
    (let! historyFile :=
       (let! present := existsSync historyFilePath in
        if present then
          let! content := readFileSync E historyFilePath in
          parse content
        else ret empty_history) in
     let! historyFile := push_history historyFile record in
     atomicWrite historyFile)
    releaseLock.

(** [readHistory(limit)]; [limit] is an integer, or [None] when the
    argument is left out. *)
Definition readHistory (limit : option Z) : M value :=
  let! present := existsSync historyFilePath in
  if negb present then ret (VArr [])
  else
    try_catch
      (let! content := readFileSync E historyFilePath in
       let! historyFile := parse content in
       match limit with
       | Some l =>
           if truthy_number l && (l >? 0) then
             let! history := get_history historyFile in
             slice_value history (- l)
           else get_history historyFile
       | None => get_history historyFile
       end)
      (fun error => throw (ReadFailed error)).

End Methods.

End FileManager.

(** ** The capture path: [SessionManager] *)

Definition K_timestamp : jstring := Eval cbv in js "timestamp".
Definition K_user : jstring := Eval cbv in js "user".
Definition K_command : jstring := Eval cbv in js "command".
Definition K_exit_code : jstring := Eval cbv in js "exit_code".
Definition K_cwd : jstring := Eval cbv in js "cwd".
Definition K_note : jstring := Eval cbv in js "note".

(** A [CommandRecord] as the object it is at run time. *)
Definition value_of_record (r : CommandRecord) : value :=
  VObj ([ (K_timestamp, VStr (timestamp r));
          (K_user, VStr (user r));
          (K_command, VStr (command r));
          (K_exit_code, VNum (Int (exit_code r)));
          (K_cwd, VStr (cwd r)) ]
        ++ match note r with
           | Some n => [(K_note, VStr n)]
           | None => []
           end).

(** [record[field]]. *)
Definition get_member (record : value) (field : jstring) : M value :=
  match record with
  | VUndefined | VNull => throw TypeError
  | VObj members => ret (obj_get members field)
  | _ => ret VUndefined
  end.

(** [ToString(v)], which [RegExp.prototype.test] applies to its argument. *)
Fixpoint ToString (v : value) : jstring :=
  match v with
  | VUndefined => [117; 110; 100; 101; 102; 105; 110; 101; 100]%N
  | VNull => [110; 117; 108; 108]%N
  | VBool true => [116; 114; 117; 101]%N
  | VBool false => [102; 97; 108; 115; 101]%N
  | VNum (Int z) => Z_toString z
  | VNum (Decimal text) => text
  | VNum NaN => [78; 97; 78]%N
  | VNum (Infinity false) => [73; 110; 102; 105; 110; 105; 116; 121]%N
  | VNum (Infinity true) => [45; 73; 110; 102; 105; 110; 105; 116; 121]%N
  | VStr s => s
  | VArr items =>
      join [44%N]
           (List.map (fun x => match x with
                               | VUndefined | VNull => []
                               | _ => ToString x
                               end) items)
  | VObj _ =>
      [91; 111; 98; 106; 101; 99; 116; 32; 79; 98; 106; 101; 99; 116; 93]%N
  end.

Module SessionManager.

(** One position of the timestamp pattern: [\d], or a given character. *)
Inductive atom : Type :=
  | Digit
  | Char (c : N).

(** Matches the atoms at the head of the text and returns what is left. *)
Fixpoint match_atoms (atoms : list atom) (s : jstring) : option jstring :=
  match atoms, s with
  | [], _ => Some s
  | _ :: _, [] => None
  | Digit :: atoms', c :: s' =>
      if is_digit c then match_atoms atoms' s' else None
  | Char k :: atoms', c :: s' =>
      if (c =? k)%N then match_atoms atoms' s' else None
  end.

(** [isValidISO8601(timestamp)]: the test of
    [/^\d{4}-\d{2}-\d{2}T\d{2}:\d{2}:\d{2}(\.\d{3})?Z?$/]. *)
Definition isValidISO8601 (timestamp : jstring) : bool :=
  match match_atoms
          [ Digit; Digit; Digit; Digit; Char 45; Digit; Digit; Char 45;
            Digit; Digit; Char 84; Digit; Digit; Char 58; Digit; Digit;
            Char 58; Digit; Digit ] timestamp with
  | None => false
  | Some rest =>
      let rest1 :=
        match match_atoms [Char 46; Digit; Digit; Digit] rest with
        | Some r => r
        | None => rest
        end in
      let rest2 :=
        match match_atoms [Char 90] rest1 with
        | Some r => r
        | None => rest1
        end in
      match rest2 with
      | [] => true
      | _ => false
      end
  end.

Definition requiredFields : list jstring :=
  [K_timestamp; K_user; K_command; K_exit_code; K_cwd].

(** The loop of [validateCommandRecord] over the required fields. *)
Fixpoint check_required (record : value) (fields : list jstring) : M unit :=
  match fields with
  | [] => ret tt
  | field :: rest =>
      let! v := get_member record field in
      match v with
      | VUndefined | VNull => throw (MissingField field)
      | _ => check_required record rest
      end
  end.

(** [validateCommandRecord(record)]. *)
Definition validateCommandRecord (record : value) : M unit :=
  check_required record requiredFields ;;
  let! ts := get_member record K_timestamp in
  if negb (isValidISO8601 (ToString ts)) then throw (InvalidTimestamp ts)
  else
    let! code := get_member record K_exit_code in
    match typeof code with
    | TNumber => ret tt
    | t => throw (ExitCodeNotNumber t)
    end.

Section Methods.

Variable E : Env.

(** [config.historyFilePath]. *)
Variable historyFilePath : jstring.

(** [captureCommand(command, exitCode, cwd)]; the arguments are what the
    caller passes at run time. *)
Definition captureCommand (command exitCode cwd : value) : M value :=
  let! now := Date_now in
  let record :=
    VObj [ (K_timestamp, VStr (toISOString E now));
           (K_user, VStr (username E));
           (K_command, command);
           (K_exit_code, exitCode);
           (K_cwd, cwd) ] in
  validateCommandRecord record ;;
  FileManager.appendCommand E historyFilePath record ;;
  ret record.

End Methods.

End SessionManager.

(** ** Vocabulary of the claims *)

(** The event concerns the file at [path] and no other. *)
Definition touches_only (path : jstring) (ev : event) : Prop :=
  match ev with
  | Wrote p _ => p = path
  | Unlinked p => p = path
  | Renamed _ _ => False
  | Copied _ _ _ => False
  end.

(** The world [releaseLock] leaves: the lock file is gone, unless there
    was none or its deletion fails. *)
Definition released (E : Env) (historyFilePath : jstring) (w : World) : World :=
  let lockPath := FileManager.lockFilePath historyFilePath in
  match files w !! lockPath with
  | Some _ =>
      if unlink_fails E lockPath then w
      else set_files w (delete lockPath (files w)) (Unlinked lockPath)
  | None => w
  end.

(** The text does not go on with something a number could absorb. *)
Definition ends_number (rest : jstring) : Prop :=
  match rest with
  | [] => True
  | c :: _ => is_digit c = false ∧ c ≠ 46%N ∧ c ≠ 101%N ∧ c ≠ 69%N
  end.

(** The values JSON carries faithfully: no [undefined], no number other
    than an integer, no object with a repeated key. *)
Fixpoint plain (v : value) : bool :=
  match v with
  | VUndefined => false
  | VNull | VBool _ | VStr _ => true
  | VNum (Int _) => true
  | VNum _ => false
  | VArr items => forallb plain items
  | VObj members =>
      forallb (fun m => plain (snd m)) members
      && bool_decide (NoDup (List.map fst members))
  end.

(** The nesting of parser calls a value needs: one for the value, one more
    for each item or member, plus what these need. *)
Fixpoint cost (v : value) : nat :=
  match v with
  | VArr items => S (length items + list_sum (List.map cost items))
  | VObj members =>
      S (length members + list_sum (List.map (fun m => cost (snd m)) members))
  | _ => 1
  end.

(** The text [t] is read back as the value [x], whatever follows it. *)
Definition reads_back (x : value) (t : jstring) : Prop :=
  match t with
  | c :: _ => is_json_ws c = false ∧ c ≠ 93%N
  | [] => False
  end ∧
  (cost x <= length t)%nat ∧
  ∀ fuel rest,
    (cost x <= fuel)%nat → ends_number rest →
    parse_value fuel (t ++ rest) = Some (x, rest).

(** A member as [JSON.stringify] prints it: the quoted key, a colon, a
    space, the value. *)
Definition member_text (m : jstring * value) (entry : jstring) : Prop :=
  ∃ t, entry = QuoteJSONString (fst m) ++ [58; 32]%N ++ t ∧ reads_back (snd m) t.

(** The document of a store that holds [items]. *)
Definition history_document (items : list value) : value :=
  VObj [(K_history, VArr items)].

(** A caller that appends the records one after the other. *)
Fixpoint appendAll (E : Env) (historyFilePath : jstring) (records : list value)
  : M unit :=
  match records with
  | [] => ret tt
  | record :: rest =>
      FileManager.appendCommand E historyFilePath record ;;
      appendAll E historyFilePath rest
  end.

(** No operation an append performs on the store's files fails. *)
Definition reliable (E : Env) (historyFilePath : jstring) : Prop :=
  write_fault_at E (FileManager.lockFilePath historyFilePath) = None ∧
  unlink_fails E (FileManager.lockFilePath historyFilePath) = false ∧
  read_fails E historyFilePath = false ∧
  write_fault_at E (historyFilePath ++ SUFFIX_TMP) = None ∧
  rename_fails E (historyFilePath ++ SUFFIX_TMP) historyFilePath = false.

(** *** The query layer, in the words of the specification *)

(** The needle is empty or made of white space only. *)
Definition blank (needle : jstring) : bool := forallb is_space needle.


(** The text is written with the characters of the Basic Latin and Latin-1
    Supplement blocks (U+0000 to U+00FF), the range on which [toLowerCase]
    and [toUpperCase] above are the case mappings of Unicode. *)
Definition latin1 (s : jstring) : Prop := Forall (fun c => (c <= 255)%N) s.


(** A column of the table: its header label and the text a record shows
    in it. *)
Definition column : Type := jstring * (CommandRecord -> jstring).

Definition column_Timestamp : column := (HistoryManager.L_Timestamp, timestamp).
Definition column_Command : column := (HistoryManager.L_Command, command).
Definition column_ExitCode : column :=
  (HistoryManager.L_ExitCode, fun r => Z_toString (exit_code r)).
Definition column_Directory : column := (HistoryManager.L_Directory, cwd).
Definition column_User : column := (HistoryManager.L_User, user).

(** The width of a column: the maximum of the length of its header label
    and of the longest value in it. *)
Definition column_width (records : list CommandRecord) (c : column) : nat :=
  Nat.max (length (fst c)) (max_list (List.map (fun r => length (snd c r)) records)).

(** A cell: the text, then spaces up to the width. *)
Definition pad_to (width : nat) (text : jstring) : jstring :=
  text ++ List.repeat 32%N (width - length text).

(** The table with the given columns padded and ruled to their widths,
    followed by [trailing] columns that are printed as they are, with a
    rule of [rule_length] dashes. *)
Definition table (aligned : list column)
    (trailing : list (column * nat)) (records : list CommandRecord) : jstring :=
  let header :=
    List.map (fun c => pad_to (column_width records c) (fst c)) aligned
    ++ List.map (fun t => fst (fst t)) trailing in
  let rule :=
    List.map (fun c => List.repeat HistoryManager.DASH (column_width records c)) aligned
    ++ List.map (fun t => List.repeat HistoryManager.DASH (snd t)) trailing in
  let row r :=
    List.map (fun c => pad_to (column_width records c) (snd c r)) aligned
    ++ List.map (fun t => snd (fst t) r) trailing in
  join HistoryManager.NEWLINE
       (join HistoryManager.SEP_CELL header
        :: join HistoryManager.SEP_RULE rule
        :: List.map (fun r => join HistoryManager.SEP_CELL (row r)) records).

(** The table as the claim describes it: all five columns aligned. *)
Definition table_all_aligned (records : list CommandRecord) : jstring :=
  table [column_Timestamp; column_Command; column_ExitCode; column_Directory;
         column_User] [] records.

(** The table with the first four columns aligned and the last one, User,
    printed as it is over a rule of four dashes. *)
Definition table_last_plain (records : list CommandRecord) : jstring :=
  table [column_Timestamp; column_Command; column_ExitCode; column_Directory]
        [(column_User, 4%nat)] records.

(** [m] is the greatest element of [l]. *)
Definition greatest (m : nat) (l : list nat) : Prop :=
  m ∈ l ∧ ∀ x, x ∈ l → (x <= m)%nat.

(** ** Concrete stores used to exercise the theorems *)

Module Examples.

(** An environment in which no file operation fails. *)
Definition reliable_env : Env :=
  mkEnv 4242 (js "alice") (fun _ => js "2025-12-25T01:03:14.221Z")
        (fun _ => false) (fun _ => None) (fun _ _ => false)
        (fun _ => false) (fun _ _ => None).

Definition store_path : jstring := Eval cbv in js "jyugemu.json".

Definition npm_install : CommandRecord :=
  mkRecord (js "2025-12-25T01:03:14.221Z") (js "alice") (js "npm install")
           0 (js "C:\proj") None.

Definition git_status : CommandRecord :=
  mkRecord (js "2025-12-25T01:04:00.000Z") (js "alice") (js "git status")
           1 (js "C:\proj") None.

Definition npm_run_build : CommandRecord :=
  mkRecord (js "2025-12-25T01:05:30.500Z") (js "alice") (js "npm run build")
           (-1) (js "C:\proj") (Some (js "ci")).

Definition three_records : list value :=
  List.map value_of_record [npm_install; git_status; npm_run_build].

(** The text of a store file that holds the three records. *)
Definition three_records_text : jstring :=
  Eval vm_compute in
    default [] (JSON_stringify (VObj [(K_history, VArr three_records)])).

(** A text that is not JSON. *)
Definition garbage_text : jstring := Eval cbv in js "{ history: oops".

Definition empty_world : World := mkWorld ∅ 1000 [].

Definition world_with (content : jstring) : World :=
  mkWorld {[ store_path := content ]} 1000 [].

(** A store next to which another writer left its lock file. *)
Definition world_with_stale_lock : World :=
  mkWorld {[ store_path := three_records_text;
             FileManager.lockFilePath store_path := js "977" ]} 1000 [].

(** Where [reliable_env] puts the backup of the store. *)
Definition backup_path : jstring :=
  Eval cbv in js "jyugemu.json.backup.2025-12-25T01-03-14-221Z".


End Examples.


(** ** The command line: [parseArgs] (cli.ts) *)

Module Cli.

Definition INIT : jstring := Eval cbv in js "init".
Definition START : jstring := Eval cbv in js "start".
Definition HISTORY : jstring := Eval cbv in js "history".
Definition HELP : jstring := Eval cbv in js "help".
Definition OPT_FORCE : jstring := Eval cbv in js "--force".
Definition OPT_F : jstring := Eval cbv in js "-f".
Definition OPT_LIMIT : jstring := Eval cbv in js "--limit".
Definition OPT_L : jstring := Eval cbv in js "-l".
Definition OPT_FILTER : jstring := Eval cbv in js "--filter".

(** [Array.prototype.includes(x)] on an array of strings. *)
Definition array_includes (xs : list jstring) (x : jstring) : bool :=
  existsb (fun y => jstring_eqb y x) xs.

(** [Array.prototype.indexOf(x)] on an array of strings: the first index
    at which [x] stands, or -1. *)
Fixpoint indexOf (xs : list jstring) (x : jstring) : Z :=
  match xs with
  | [] => -1
  | y :: rest =>
      if jstring_eqb y x then 0
      else
        let i := indexOf rest x in
        if i =? -1 then -1 else i + 1
  end.

(** [parseInt(s, 10)]: leading white space is skipped, then an optional
    sign and the longest run of decimal digits are read; what follows the
    digits is ignored.  [None] is [NaN], the result when there is no digit
    to read.  The result is the integer the digits denote (JavaScript
    rounds it to a double, which changes it only beyond 2^53). *)
Definition parseInt (s : jstring) : option Z :=
  let s1 := trimStart s in
  let (negative, s2) :=
    match s1 with
    | c :: r =>
        if (c =? 45)%N then (true, r)
        else if (c =? 43)%N then (false, r)
        else (false, s1)
    | [] => (false, s1)
    end in
  match span_digits s2 with
  | ([], _) => None
  | (ds, _) =>
      let n := Z.of_N (digits_value ds) in
      Some (if negative then - n else n)
  end.

(** The [options] of a [CLICommand]: a member that is not set is [None]. *)
Record CLIOptions : Type := mkOptions {
  limit : option Z;
  filter : option jstring;
  force : option bool
}.

(** [CLICommand] of types.ts. *)
Record CLICommand : Type := mkCommand {
  command : jstring;
  options : CLIOptions
}.

(** What [parseArgs] gives: the command, or the error
    "Unknown command: <commandName>" it throws. *)
Inductive parsed : Type :=
  | Parsed (c : CLICommand)
  | UnknownCommand (commandName : jstring).

(** [argv.indexOf(long) !== -1 ? argv.indexOf(long) : argv.indexOf(short)]:
    where the option stands, the long spelling first. *)
Definition optionIndex (argv : list jstring) (long short : jstring) : Z :=
  if negb (indexOf argv long =? -1) then indexOf argv long
  else indexOf argv short.

(** [parseArgs(argv)]. *)
Definition parseArgs (argv : list jstring) : parsed :=
  match argv with
  | [] => Parsed (mkCommand HELP (mkOptions None None None))
  | commandName :: _ =>
      if negb (array_includes [INIT; START; HISTORY; HELP] commandName)
      then UnknownCommand commandName
      else
        let options :=
          if jstring_eqb commandName INIT then
            mkOptions None None
              (Some (array_includes argv OPT_FORCE || array_includes argv OPT_F))
          else if jstring_eqb commandName HISTORY then
            let limitIndex := optionIndex argv OPT_LIMIT OPT_L in
            let limit :=
              if negb (limitIndex =? -1)
                 && (limitIndex + 1 <? Z.of_nat (length argv))
              then
                let limitValue :=
                  match argv !! Z.to_nat (limitIndex + 1) with
                  | Some text => parseInt text
                  | None => None
                  end in
                match limitValue with
                | None => 50
                | Some n => n
                end
              else 50 in
            let filterIndex := optionIndex argv OPT_FILTER OPT_F in
            let filter :=
              if negb (filterIndex =? -1)
                 && (filterIndex + 1 <? Z.of_nat (length argv))
              then argv !! Z.to_nat (filterIndex + 1)
              else None in
            mkOptions (Some limit) filter None
          else mkOptions None None None in
        Parsed (mkCommand commandName options)
  end.

End Cli.

(** ** What [HistoryManager.displayHistory] shows *)

Module Display.

(** A string in a condition: the empty string is false. *)
Definition truthy_string (s : jstring) : bool :=
  match s with
  | [] => false
  | _ => true
  end.

(** The records [displayHistory(limit, filter)] keeps of [allRecords], the
    records [readHistory()] returned: the filter, when one is given, and
    then the limit.  [limit] is the number the caller passes (50 when it
    passes none); [filter] is [None] when the argument is left out. *)
Definition selectRecords (limit : Z) (filter : option jstring)
    (allRecords : list CommandRecord) : list CommandRecord :=
  let records :=
    match filter with
    | Some f =>
        if truthy_string f then HistoryManager.filterCommands allRecords f
        else allRecords
    | None => allRecords
    end in
  if (limit >? 0) && (Z.of_nat (length records) >? limit)
  then slice records (- limit)
  else records.

(** The text [displayHistory(limit, filter)] passes to [console.log]. *)
Definition displayHistory (limit : Z) (filter : option jstring)
    (allRecords : list CommandRecord) : jstring :=
  HistoryManager.formatForDisplay (selectRecords limit filter allRecords).

End Display.

(** ** The application: [JyugemuApp] (index.ts) *)

Module JyugemuApp.

(** What the application prints.  Each [console.log], [console.error] and
    prompt of [handleInit] has a constructor of its own. *)
Inductive console_line : Type :=
  | Question (path : jstring)
      (* "History file already exists at <path>. Overwrite? (y/n): " *)
  | Cancelled
      (* "Initialization cancelled." *)
  | Initialized (path : jstring)
      (* "History file initialized at <path>", after a check mark *)
  | UsageHeading
      (* "Usage:", after an empty line *)
  | UsageStart
      (* "  jyugemu start    - Start a monitored PowerShell session" *)
  | UsageHistory
      (* "  jyugemu history  - Display command history" *)
  | UsageFilter
      (* "  jyugemu history --limit 20 --filter npm  - Filter history",
         with npm in quotes *)
  | InitFailed (cause : exn)
      (* "Failed to initialize history file: <cause>", after a cross *).

(** How a handler ends: it returns, or it ends the process with
    [process.exit(code)]. *)
Inductive ending : Type :=
  | Returned
  | Exit (code : Z).

Definition ANSWER_Y : jstring := Eval cbv in js "y".
Definition ANSWER_YES : jstring := Eval cbv in js "yes".

(** What [promptUserConfirmation] resolves to when the user types
    [answer]. *)
Definition promptUserConfirmation (answer : jstring) : bool :=
  jstring_eqb (toLowerCase answer) ANSWER_Y
  || jstring_eqb (toLowerCase answer) ANSWER_YES.

Section Methods.

Variable E : Env.

(** [this.historyFilePath], the resolved path. *)
Variable historyFilePath : jstring.

(** [handleInit(force)].  [answer] is what the user types if the prompt
    is shown, and [pause] the milliseconds they take to do so. *)
Definition handleInit (force : bool) (answer : jstring) (pause : Z)
  : World -> (list console_line * ending) * World :=
  fun w =>
    let failed shown e w' := ((shown ++ [InitFailed e], Exit 1), w') in
    match existsSync historyFilePath w with
    | (Throw e, w0) => failed [] e w0
    | (Ok present, w0) =>
        let prompted := present && negb force in
        let shown := if prompted then [Question historyFilePath] else [] in
        let w1 := if prompted then snd (sleep pause w0) else w0 in
        if prompted && negb (promptUserConfirmation answer)
        then ((shown ++ [Cancelled], Returned), w1)
        else
          match FileManager.initializeHistoryFile E historyFilePath
                  (force || true) w1 with
          | (Ok _, w2) =>
              ((shown ++ [Initialized historyFilePath; UsageHeading;
                          UsageStart; UsageHistory; UsageFilter],
                Returned), w2)
          | (Throw e, w2) => failed shown e w2
          end
    end.

End Methods.

End JyugemuApp.

(** ** Further vocabulary *)

(** The path [backupCorruptedFile] copies the store to when it runs in the
    world [w]. *)
Definition backupPath_at (E : Env) (historyFilePath : jstring) (w : World)
  : jstring :=
  historyFilePath ++ SUFFIX_BACKUP
    ++ FileManager.replace_colon_dot (toISOString E (clock w)).

(** The text [content] is not lost: the store file or its backup holds
    it. *)
Definition kept (historyFilePath backupPath content : jstring) (w : World)
  : Prop :=
  files w !! historyFilePath = Some content
  ∨ files w !! backupPath = Some content.

(** The width of the four padded columns and of the separators between
    the five cells of a table line. *)
Definition user_offset (records : list CommandRecord) : nat :=
  column_width records column_Timestamp + 3
  + column_width records column_Command + 3
  + column_width records column_ExitCode + 3
  + column_width records column_Directory + 3.

(** The document [appendCommand] works on in the world [w]: what the text
    of the store file decodes to, or the empty history when there is no
    store file. *)
Definition loaded (historyFilePath : jstring) (w : World) (doc : value) : Prop :=
  match files w !! historyFilePath with
  | None => doc = empty_history
  | Some text => JSON_parse text = Some doc
  end.

(** ** Further concrete stores *)

Module Faults.

(** An environment in which the write of the temporary file is torn after
    seven code units, and nothing else fails. *)
Definition torn_env : Env :=
  mkEnv 4242 (js "alice") (fun _ => js "2025-12-25T01:03:14.221Z")
        (fun _ => false)
        (fun path =>
           if jstring_eqb path (Examples.store_path ++ SUFFIX_TMP)
           then Some (WriteTorn 7) else None)
        (fun _ _ => false) (fun _ => false) (fun _ _ => None).

(** The text of a store file whose document has a member besides the
    history. *)
Definition versioned_text : jstring :=
  Eval vm_compute in
    default [] (JSON_stringify
                  (VObj [(js "version", VNum (Int 1));
                         (K_history, VArr [value_of_record Examples.npm_install])])).


(** A store whose text is not JSON, next to another writer's lock file. *)
Definition garbage_world_locked : World :=
  mkWorld {[ Examples.store_path := Examples.garbage_text;
             FileManager.lockFilePath Examples.store_path := js "977" ]} 1000 [].

End Faults.

(** A run of exactly [n] decimal digits. *)
Definition digit_run (n : nat) (s : jstring) : Prop :=
  length s = n ∧ Forall (fun c => is_digit c = true) s.

(** The text does not go on with a decimal digit. *)
Definition ends_digits (rest : jstring) : Prop :=
  match rest with
  | [] => True
  | c :: _ => is_digit c = false
  end.

(** The answers [y] and [yes], in every mix of upper and lower case. *)
Definition accepted_answers : list jstring :=
  Eval cbv in
    [js "y"; js "Y";
     js "yes"; js "yeS"; js "yEs"; js "yES"; js "Yes"; js "YeS"; js "YEs"; js "YES"].

(** The world in which [handleInit] goes on after the prompt: the one it
    was called in when no prompt is shown, and otherwise the one in which
    the user has taken [pause] milliseconds to answer. *)
Definition after_prompt (historyFilePath : jstring) (force : bool) (pause : Z)
    (w : World) : World :=
  match files w !! historyFilePath with
  | Some _ => if force then w else mkWorld (files w) (clock w + pause) (trace w)
  | None => w
  end.
(** * Properties *)

(** ** Numbers and strings survive the trip through JSON *)

Module JsonFacts.

Local Open Scope N_scope.

(* Let [lia] reason about division and remainder by a constant. *)
#[local] Ltac Zify.zify_post_hook ::= Z.to_euclidean_division_equations.

Ltac ncases :=
  repeat match goal with
         | |- context [N.eqb ?a ?b] => destruct (N.eqb_spec a b)
         | |- context [N.ltb ?a ?b] => destruct (N.ltb_spec a b)
         | |- context [N.leb ?a ?b] => destruct (N.leb_spec a b)
         end.

Lemma digits_value_snoc (ds : jstring) (d : N) :
  digits_value (ds ++ [d]) = 10 * digits_value ds + (d - 48).
Proof. unfold digits_value. by rewrite fold_left_app. Qed.

(** What [digits_from] puts in front of its accumulator: a non-empty run
    of digits that denotes the number and has no leading zero. *)
Lemma digits_from_spec (fuel : nat) (n : N) (acc : jstring) :
  n < 2 ^ N.of_nat (S fuel) →
  ∃ d ds,
    digits_from (S fuel) n acc = d :: ds ++ acc ∧
    Forall (λ c, is_digit c = true) (d :: ds) ∧
    digits_value (d :: ds) = n ∧
    (n = 0 → d = 48 ∧ ds = []) ∧
    (n ≠ 0 → d ≠ 48).
Proof.
  revert n acc. induction fuel as [|fuel IH]; intros n acc Hn.
  - assert (n < 10) as Hlt by (change (2 ^ N.of_nat 1) with 2 in Hn; lia).
    simpl. destruct (N.ltb_spec n 10); [|lia].
    exists (48 + n mod 10), []. rewrite N.mod_small by done.
    split; [done|]. split.
    { constructor; [|constructor]. unfold is_digit. ncases; simpl; lia. }
    split; [unfold digits_value; simpl; lia|].
    split; [intros ->; done | lia].
  - change (digits_from (S (S fuel)) n acc)
      with (if n <? 10 then (48 + n mod 10) :: acc
            else digits_from (S fuel) (n / 10) ((48 + n mod 10) :: acc)).
    destruct (N.ltb_spec n 10) as [Hlt|Hge].
    + exists (48 + n mod 10), []. rewrite N.mod_small by done.
      split; [done|]. split.
      { constructor; [|constructor]. unfold is_digit. ncases; simpl; lia. }
      split; [unfold digits_value; simpl; lia|].
      split; [intros ->; done | lia].
    + destruct (IH (n / 10) ((48 + n mod 10) :: acc)) as (d & ds & Heq & Hdig & Hval & _ & Hnz).
      { rewrite Nat2N.inj_succ, N.pow_succ_r' in Hn.
        apply N.Div0.div_lt_upper_bound. lia. }
      exists d, (ds ++ [48 + n mod 10]).
      split; [rewrite Heq; by rewrite <- app_assoc|].
      split.
      { rewrite app_comm_cons. apply Forall_app. split; [done|].
        constructor; [|constructor].
        pose proof (N.mod_upper_bound n 10). unfold is_digit. ncases; simpl; lia. }
      split.
      { rewrite app_comm_cons, digits_value_snoc, Hval.
        pose proof (N.div_mod n 10). lia. }
      split; [lia|]. intros _. apply Hnz.
      intros Hz. pose proof (N.div_mod n 10). pose proof (N.mod_upper_bound n 10).
      lia.
Qed.

Lemma N_toString_spec (n : N) :
  ∃ d ds,
    N_toString n = d :: ds ∧
    Forall (λ c, is_digit c = true) (d :: ds) ∧
    digits_value (d :: ds) = n ∧
    (n = 0 → d = 48 ∧ ds = []) ∧
    (n ≠ 0 → d ≠ 48).
Proof.
  destruct (digits_from_spec (N.to_nat (N.log2 n)) n []) as (d & ds & H).
  { rewrite Nat2N.inj_succ, N2Nat.id.
    destruct (N.eq_dec n 0) as [->|Hnz]; [done|].
    apply N.log2_spec. lia. }
  exists d, ds. unfold N_toString. by rewrite app_nil_r in H.
Qed.

Lemma span_digits_run (ds rest : jstring) :
  Forall (λ c, is_digit c = true) ds → ends_number rest →
  span_digits (ds ++ rest) = (ds, rest).
Proof.
  intros Hds Hrest. induction Hds as [|d ds Hd _ IH]; simpl.
  - destruct rest as [|c rest]; [done|]. simpl. by destruct Hrest as [-> _].
  - by rewrite Hd, IH.
Qed.

Lemma parse_number_tail_int (neg : bool) (ds rest : jstring) :
  ends_number rest →
  parse_number_tail neg ds rest
  = Some (Int (if neg then Z.opp (Z.of_N (digits_value ds))
               else Z.of_N (digits_value ds)), rest).
Proof.
  intros Hrest. unfold parse_number_tail, parse_fraction, parse_exponent, next_is.
  destruct rest as [|c rest]; [done|].
  destruct Hrest as (_ & H46 & H101 & H69).
  destruct (N.eqb_spec c 46); [done|].
  destruct (N.eqb_spec c 101); [done|].
  destruct (N.eqb_spec c 69); [done|]. done.
Qed.

Lemma parse_number_unsigned (d : N) (r : jstring) :
  d ≠ 45 →
  parse_number (d :: r)
  = if d =? 48 then parse_number_tail false [48] r
    else if is_digit d then
           let (ds, r') := span_digits r in parse_number_tail false (d :: ds) r'
         else None.
Proof.
  intros Hd. unfold parse_number, next_is.
  by destruct (N.eqb_spec d 45).
Qed.

Lemma parse_number_signed (d : N) (r : jstring) :
  parse_number (45 :: d :: r)
  = if d =? 48 then parse_number_tail true [48] r
    else if is_digit d then
           let (ds, r') := span_digits r in parse_number_tail true (d :: ds) r'
         else None.
Proof. reflexivity. Qed.

(** An integer printed by [Number::toString] is read back by the number
    parser. *)
Lemma parse_number_Z_toString (z : Z) (rest : jstring) :
  ends_number rest →
  parse_number (Z_toString z ++ rest) = Some (Int z, rest).
Proof.
  intros Hrest.
  assert (∀ n neg,
            (n = 0 → neg = false) →
            (if (neg : bool) then parse_number (45 :: N_toString n ++ rest)
             else parse_number (N_toString n ++ rest))
            = Some (Int (if neg then Z.opp (Z.of_N n) else Z.of_N n), rest))
    as Hgen.
  { intros n neg Hneg.
    destruct (N_toString_spec n) as (d & ds & -> & Hdig & Hval & Hz & Hnz).
    assert (is_digit d = true) as Hd by (by inversion Hdig).
    assert (d ≠ 45) as Hd45 by (by intros ->).
    assert ((if (neg : bool) then parse_number (45 :: (d :: ds) ++ rest)
             else parse_number ((d :: ds) ++ rest))
            = if d =? 48 then parse_number_tail neg [48] (ds ++ rest)
              else let (ds0, r') := span_digits (ds ++ rest) in
                   parse_number_tail neg (d :: ds0) r') as ->.
    { destruct neg; cbn [app];
        [rewrite parse_number_signed | rewrite parse_number_unsigned by done];
        by rewrite Hd. }
    destruct (N.eqb_spec d 48) as [->|Hd48].
    - destruct (N.eq_dec n 0) as [->|Hn]; [|by destruct (Hnz Hn)].
      destruct (Hz eq_refl) as [_ ->]. rewrite (Hneg eq_refl).
      by rewrite parse_number_tail_int.
    - rewrite span_digits_run by (by inversion Hdig).
      rewrite parse_number_tail_int by done. by rewrite Hval. }
  destruct z as [|p|p]; simpl.
  - apply (Hgen 0 false). done.
  - apply (Hgen (N.pos p) false). done.
  - apply (Hgen (N.pos p) true). done.
Qed.

(** *** String literals *)

Lemma hex_value_hex_digit (d : N) : d < 16 → hex_value (hex_digit d) = Some d.
Proof.
  intros Hd. unfold hex_value, hex_digit, is_digit.
  ncases; simpl; try lia; f_equal; lia.
Qed.

Lemma hex4_value_escape (c : N) :
  c < 65536 →
  hex4_value (hex_digit (c / 4096 mod 16)) (hex_digit (c / 256 mod 16))
             (hex_digit (c / 16 mod 16)) (hex_digit (c mod 16)) = Some c.
Proof.
  intros Hc. unfold hex4_value.
  rewrite !hex_value_hex_digit by (apply N.mod_upper_bound; lia).
  f_equal. lia.
Qed.

Lemma parse_chars_unicode (a b c d u : N) (r acc : jstring) :
  hex4_value a b c d = Some u →
  parse_chars (92 :: 117 :: a :: b :: c :: d :: r) acc = parse_chars r (u :: acc).
Proof. intros H. simpl. by rewrite H. Qed.

Lemma parse_chars_literal (c : N) (r acc : jstring) :
  c ≠ 34 → c ≠ 92 → 32 <= c →
  parse_chars (c :: r) acc = parse_chars r (c :: acc).
Proof.
  intros H34 H92 H32. simpl.
  destruct (N.eqb_spec c 34); [done|].
  destruct (N.eqb_spec c 92); [done|].
  destruct (N.ltb_spec c 32); [lia|done].
Qed.

Lemma parse_chars_escape (c : N) (r acc : jstring) :
  c < 65536 →
  parse_chars (unicode_escape c ++ r) acc = parse_chars r (c :: acc).
Proof.
  intros Hc. unfold unicode_escape.
  cbn [app]. by apply parse_chars_unicode, hex4_value_escape.
Qed.

(** One unit written by [quote_unit] is read back as that unit. *)
Lemma parse_chars_quote_unit (c : N) (r acc : jstring) :
  parse_chars (quote_unit c ++ r) acc = parse_chars r (c :: acc).
Proof.
  unfold quote_unit.
  destruct (N.eqb_spec c 8) as [->|?]; [done|].
  destruct (N.eqb_spec c 9) as [->|?]; [done|].
  destruct (N.eqb_spec c 10) as [->|?]; [done|].
  destruct (N.eqb_spec c 12) as [->|?]; [done|].
  destruct (N.eqb_spec c 13) as [->|?]; [done|].
  destruct (N.eqb_spec c 34) as [->|?]; [done|].
  destruct (N.eqb_spec c 92) as [->|?]; [done|].
  unfold is_high_surrogate, is_low_surrogate.
  destruct (N.ltb_spec c 32); cbn [orb].
  { apply parse_chars_escape. lia. }
  destruct (N.leb_spec 55296 c); cbn [andb orb].
  - destruct (N.leb_spec c 56319); cbn [orb].
    { apply parse_chars_escape. lia. }
    destruct (N.leb_spec 56320 c); [|lia]. cbn [andb].
    destruct (N.leb_spec c 57343).
    { apply parse_chars_escape. lia. }
    cbn [app]. apply parse_chars_literal; lia.
  - destruct (N.leb_spec 56320 c); [lia|]. cbn [andb app].
    apply parse_chars_literal; lia.
Qed.

(** The body of a quoted string is read back as the string. *)
Lemma parse_chars_quote_units (s rest acc : jstring) :
  parse_chars (quote_units s ++ 34 :: rest) acc = Some (rev acc ++ s, rest).
Proof.
  remember (length s) as n eqn:Hn.
  revert s acc Hn. induction (lt_wf n) as [n _ IH]. intros s acc ->.
  destruct s as [|c s].
  { simpl. by rewrite app_nil_r. }
  assert (∀ acc', parse_chars (quote_units s ++ 34 :: rest) acc'
                  = Some (rev acc' ++ s, rest)) as IH1.
  { intros acc'. eapply IH; [|done]. simpl. lia. }
  cbn [quote_units].
  destruct (is_high_surrogate c) eqn:Hhigh.
  2:{ rewrite <- app_assoc, parse_chars_quote_unit, IH1. simpl.
      by rewrite <- app_assoc. }
  unfold is_high_surrogate in Hhigh.
  apply andb_true_iff in Hhigh as [Hlo%N.leb_le Hhi%N.leb_le].
  destruct s as [|d s].
  { rewrite parse_chars_escape by lia. done. }
  destruct (is_low_surrogate d) eqn:Hlow.
  - unfold is_low_surrogate in Hlow.
    apply andb_true_iff in Hlow as [Hlo'%N.leb_le Hhi'%N.leb_le].
    cbn [app]. rewrite parse_chars_literal by lia.
    rewrite parse_chars_literal by lia.
    rewrite (IH (length s) ltac:(simpl; lia) s _ eq_refl).
    simpl. by rewrite <- !app_assoc.
  - rewrite <- app_assoc, parse_chars_escape by lia. rewrite IH1. simpl.
    by rewrite <- app_assoc.
Qed.

(** *** Values *)

Lemma value_ind_nested (P : value → Prop) :
  P VUndefined → P VNull → (∀ b, P (VBool b)) → (∀ n, P (VNum n)) →
  (∀ s, P (VStr s)) →
  (∀ items, Forall P items → P (VArr items)) →
  (∀ members, Forall (λ m, P (snd m)) members → P (VObj members)) →
  ∀ v, P v.
Proof.
  intros Hundef Hnull Hbool Hnum Hstr Harr Hobj.
  fix IH 1. intros [| |b|n|s|items|members].
  - exact Hundef.
  - exact Hnull.
  - apply Hbool.
  - apply Hnum.
  - apply Hstr.
  - apply Harr. induction items as [|x items IHitems]; constructor;
      [apply IH | exact IHitems].
  - apply Hobj. induction members as [|m members IHmembers]; constructor;
      [apply IH | exact IHmembers].
Qed.

Lemma skip_ws_spaces (n : nat) (s : jstring) :
  skip_ws (spaces n ++ s) = skip_ws s.
Proof. induction n as [|n IH]; [done|]. simpl. exact IH. Qed.

Lemma skip_ws_start (c : N) (s : jstring) :
  is_json_ws c = false → skip_ws (c :: s) = c :: s.
Proof. intros H. simpl. by rewrite H. Qed.

Lemma skip_ws_idemp (s : jstring) : skip_ws (skip_ws s) = skip_ws s.
Proof.
  induction s as [|c s IH]; [done|]. simpl.
  destruct (is_json_ws c) eqn:Hc; [done|]. simpl. by rewrite Hc.
Qed.

Lemma parse_value_skip_ws (fuel : nat) (s : jstring) :
  parse_value fuel (skip_ws s) = parse_value fuel s.
Proof. destruct fuel; [done|]. simpl. by rewrite skip_ws_idemp. Qed.

Lemma parse_elems_skip_ws (fuel : nat) (s : jstring) (acc : list value) :
  parse_elems fuel (skip_ws s) acc = parse_elems fuel s acc.
Proof. destruct fuel; [done|]. simpl. by rewrite parse_value_skip_ws. Qed.

Lemma parse_members_skip_ws (fuel : nat) (s : jstring)
    (acc : list (jstring * value)) :
  parse_members fuel (skip_ws s) acc = parse_members fuel s acc.
Proof. destruct fuel; [done|]. simpl. by rewrite skip_ws_idemp. Qed.

Lemma join_cons (sep t : jstring) (ts : list jstring) :
  ts ≠ [] → join sep (t :: ts) = t ++ sep ++ join sep ts.
Proof. by destruct ts. Qed.

Lemma length_join (sep : jstring) (ts : list jstring) :
  (list_sum (List.map length ts) + (length ts - 1) * length sep
   = length (join sep ts))%nat.
Proof.
  induction ts as [|t ts IH]; [done|].
  destruct ts as [|t' ts]; [simpl; lia|].
  rewrite join_cons by done. rewrite !length_app, <- IH. simpl. lia.
Qed.

Lemma reads_back_start (x : value) (t rest : jstring) :
  reads_back x t →
  ∃ c t', t = c :: t' ∧ skip_ws (t ++ rest) = t ++ rest ∧ c ≠ 93.
Proof.
  intros [Hstart _]. destruct t as [|c t']; [done|].
  destruct Hstart as [Hws Hc]. exists c, t'.
  split; [done|]. split; [|done]. simpl. by rewrite Hws.
Qed.

(** The items of an array, printed with their separators and followed by
    the closing bracket on its own line, are read back in order. *)
Lemma parse_elems_join (inner indent : nat) (rest : jstring)
    (items : list value) (texts : list jstring) :
  Forall2 reads_back items texts → items ≠ [] →
  ∀ acc fuel,
    (length items + list_sum (List.map cost items) <= fuel)%nat →
    parse_elems fuel
      (join (44 :: 10 :: spaces inner) texts
       ++ 10 :: spaces indent ++ 93 :: rest) acc
    = Some (VArr (acc ++ items), rest).
Proof.
  induction 1 as [|x t items texts Hx Hrest IH]; [done|].
  intros _ acc fuel Hfuel. simpl in Hfuel.
  destruct fuel as [|fuel]; [lia|].
  destruct Hx as (_ & _ & Hparse).
  destruct items as [|y items].
  - (* the last item *)
    inversion Hrest; subst. cbn [join parse_elems].
    rewrite Hparse by (done || simpl; lia).
    cbn. by rewrite skip_ws_spaces.
  - (* an item followed by others *)
    assert (texts ≠ []) as Htexts by (inversion Hrest; done).
    rewrite join_cons by done. rewrite <- !app_assoc. cbn [parse_elems].
    rewrite Hparse by (done || simpl; lia).
    cbn.
    rewrite <- parse_elems_skip_ws. cbn.
    rewrite skip_ws_spaces, parse_elems_skip_ws.
    rewrite IH by (done || simpl in *; lia).
    by rewrite <- app_assoc.
Qed.

Lemma obj_set_fresh (acc : list (jstring * value)) (key : jstring) (v : value) :
  key ∉ List.map fst acc → obj_set acc key v = acc ++ [(key, v)].
Proof.
  induction acc as [|[k x] acc IH]; [done|]. simpl. intros Hfresh.
  unfold jstring_eqb. rewrite bool_decide_eq_false_2.
  - rewrite IH; [done|]. intros Hin. apply Hfresh. by right.
  - intros ->. apply Hfresh. by left.
Qed.

(** The members of an object, printed with their separators and followed
    by the closing brace on its own line, are read back in order. *)
Lemma parse_members_join (inner indent : nat) (rest : jstring)
    (members : list (jstring * value)) (entries : list jstring) :
  Forall2 member_text members entries → members ≠ [] →
  ∀ acc fuel,
    NoDup (List.map fst acc ++ List.map fst members) →
    (length members + list_sum (List.map (λ m, cost (snd m)) members) <= fuel)%nat →
    parse_members fuel
      (join (44 :: 10 :: spaces inner) entries
       ++ 10 :: spaces indent ++ 125 :: rest) acc
    = Some (VObj (acc ++ members), rest).
Proof.
  induction 1 as [|[k x] e members entries Hm Hrest IH]; [done|].
  intros _ acc fuel Hkeys Hfuel. simpl in Hfuel.
  destruct fuel as [|fuel]; [lia|].
  destruct Hm as (t & -> & _ & _ & Hparse). simpl in Hparse.
  assert (k ∉ List.map fst acc) as Hfresh.
  { apply NoDup_app in Hkeys as (_ & Hdisj & _).
    intros Hin. apply (Hdisj k Hin). simpl. by left. }
  assert (NoDup (List.map fst (acc ++ [(k, x)]) ++ List.map fst members))
    as Hkeys'.
  { rewrite map_app. simpl. rewrite <- app_assoc. exact Hkeys. }
  unfold QuoteJSONString. cbn [fst].
  destruct members as [|m members].
  - (* the last member *)
    inversion Hrest; subst. cbn [join parse_members].
    cbn. rewrite <- !app_assoc. cbn [app].
    rewrite parse_chars_quote_units. cbn.
    rewrite <- parse_value_skip_ws. cbn. rewrite parse_value_skip_ws.
    rewrite Hparse by (done || simpl; lia).
    cbn. rewrite skip_ws_spaces. cbn.
    by rewrite obj_set_fresh.
  - (* a member followed by others *)
    assert (entries ≠ []) as Hentries by (inversion Hrest; done).
    rewrite join_cons by done. cbn [parse_members].
    cbn. rewrite <- !app_assoc. cbn [app].
    rewrite parse_chars_quote_units. cbn.
    rewrite <- parse_value_skip_ws. cbn. rewrite parse_value_skip_ws.
    rewrite Hparse by (done || simpl; lia).
    cbn.
    rewrite <- parse_members_skip_ws. cbn.
    rewrite <- ?app_assoc, skip_ws_spaces, parse_members_skip_ws.
    rewrite obj_set_fresh by done.
    rewrite IH by (done || simpl in *; lia).
    by rewrite <- app_assoc.
Qed.

Lemma Z_toString_start (z : Z) :
  ∃ c t, Z_toString z = c :: t ∧ (is_digit c = true ∨ c = 45).
Proof.
  destruct z as [|p|p]; simpl.
  - destruct (N_toString_spec 0) as (d & ds & -> & Hdig & _). inversion Hdig; eauto.
  - destruct (N_toString_spec (N.pos p)) as (d & ds & -> & Hdig & _).
    inversion Hdig; eauto.
  - eauto.
Qed.

Lemma number_start (c : N) :
  is_digit c = true ∨ c = 45 →
  is_json_ws c = false ∧ c ≠ 93 ∧ c ≠ 123 ∧ c ≠ 91 ∧ c ≠ 34
  ∧ c ≠ 116 ∧ c ≠ 102 ∧ c ≠ 110.
Proof.
  unfold is_digit, is_json_ws.
  intros [[Hlo%N.leb_le Hhi%N.leb_le]%andb_true_iff | ->]; [|done].
  repeat split; try lia. by ncases; simpl; try lia.
Qed.

Lemma parse_value_number (fuel : nat) (c : N) (r : jstring) :
  is_digit c = true ∨ c = 45 →
  parse_value (S fuel) (c :: r)
  = match parse_number (c :: r) with
    | Some (n, r') => Some (VNum n, r')
    | None => None
    end.
Proof.
  intros Hc. apply number_start in Hc as (Hws & _ & ? & ? & ? & ? & ? & ?).
  cbn [parse_value]. rewrite skip_ws_start by done.
  by repeat match goal with
            | |- context [N.eqb c ?k] => destruct (N.eqb_spec c k); [done|]
            end.
Qed.

Lemma items_read_back (inner : nat) (items : list value) :
  Forall (λ x, plain x = true →
               ∀ indent, ∃ text, serialize indent x = Some text ∧ reads_back x text)
         items →
  forallb plain items = true →
  ∃ texts,
    List.map (λ x, match serialize inner x with
                   | Some t => t
                   | None => [110; 117; 108; 108]
                   end) items = texts ∧
    Forall2 reads_back items texts.
Proof.
  induction 1 as [|x items Hx _ IH]; simpl; [eauto|].
  intros [Hplain Hrest]%andb_true_iff.
  destruct (Hx Hplain inner) as (t & -> & Ht).
  destruct (IH Hrest) as (texts & -> & Htexts). eauto.
Qed.

Lemma members_read_back (inner : nat) (members : list (jstring * value)) :
  Forall (λ m, plain (snd m) = true →
               ∀ indent, ∃ text, serialize indent (snd m) = Some text
                                 ∧ reads_back (snd m) text)
         members →
  forallb (λ m, plain (snd m)) members = true →
  ∃ entries,
    List.flat_map (λ m, match serialize inner (snd m) with
                        | Some t => [QuoteJSONString (fst m) ++ [58; 32] ++ t]
                        | None => []
                        end) members = entries ∧
    Forall2 member_text members entries.
Proof.
  induction 1 as [|m members Hm _ IH]; cbn [flat_map forallb]; [eauto|].
  intros [Hplain Hrest]%andb_true_iff.
  destruct (Hm Hplain inner) as (t & -> & Ht).
  destruct (IH Hrest) as (entries & -> & Hentries).
  eexists. split; [done|]. constructor; [|done]. by exists t.
Qed.

Lemma items_cost_length (items : list value) (texts : list jstring) :
  Forall2 reads_back items texts →
  (list_sum (List.map cost items) <= list_sum (List.map length texts))%nat.
Proof.
  induction 1 as [|x t items texts (_ & Hx & _) _ IH]; simpl; [done|].
  apply Nat.add_le_mono; done.
Qed.

Lemma members_cost_length (members : list (jstring * value))
    (entries : list jstring) :
  Forall2 member_text members entries →
  (list_sum (List.map (λ m, cost (snd m)) members)
   <= list_sum (List.map length entries))%nat.
Proof.
  induction 1 as [|m e members entries (t & -> & _ & Hm & _) _ IH];
    cbn [list_sum map]; [done|].
  apply Nat.add_le_mono; [|done]. rewrite !length_app. lia.
Qed.

(** A block of [n > 0] parts is at least as long as what its parts need
    as fuel. *)
Lemma block_long_enough (opening closing : N) (sep : jstring)
    (parts : list jstring) (inner indent total n : nat) :
  parts ≠ [] → (2 <= length sep)%nat →
  n = length parts → (total <= list_sum (List.map length parts))%nat →
  (S (n + total)
   <= length (opening :: [10%N] ++ spaces inner ++ join sep parts
              ++ [10%N] ++ spaces indent ++ [closing]))%nat.
Proof.
  intros Hparts Hsep -> Htotal.
  cbn [length app]. rewrite !length_app. cbn [length].
  rewrite <- length_join.
  destruct parts as [|p parts]; [done|]. cbn [length] in *. nia.
Qed.

Lemma parse_value_array (fuel inner : nat) (body : jstring) :
  parse_value (S fuel) (91 :: 10 :: spaces inner ++ body)
  = match next_is 93 (skip_ws body) with
    | Some r' => Some (VArr [], r')
    | None => parse_elems fuel (skip_ws body) []
    end.
Proof.
  cbn [parse_value]. rewrite skip_ws_start by done.
  cbn [N.eqb Pos.eqb skip_ws is_json_ws orb]. by rewrite skip_ws_spaces.
Qed.

Lemma parse_value_object (fuel inner : nat) (body : jstring) :
  parse_value (S fuel) (123 :: 10 :: spaces inner ++ body)
  = match next_is 125 (skip_ws body) with
    | Some r' => Some (VObj [], r')
    | None => parse_members fuel (skip_ws body) []
    end.
Proof.
  cbn [parse_value]. rewrite skip_ws_start by done.
  cbn [N.eqb Pos.eqb skip_ws is_json_ws orb]. by rewrite skip_ws_spaces.
Qed.

Lemma join_head (sep t : jstring) (ts : list jstring) :
  ∃ more, join sep (t :: ts) = t ++ more.
Proof.
  destruct ts as [|t' ts].
  - exists []. by rewrite app_nil_r.
  - eexists. by rewrite join_cons.
Qed.

(** The text of a block: what [serialize] builds, seen from the parser. *)
Lemma block_text (opening closing : N) (inner indent : nat)
    (sep : jstring) (parts : list jstring) (rest : jstring) :
  ([opening; 10] ++ spaces inner ++ join sep parts
     ++ [10] ++ spaces indent ++ [closing]) ++ rest
  = opening :: 10 :: spaces inner
      ++ (join sep parts ++ 10 :: spaces indent ++ closing :: rest).
Proof. by repeat (progress (cbn [app]; rewrite <- ?app_assoc)). Qed.

(** Every plain value is printed to a text that is read back as the
    value. *)
Lemma serialize_reads_back (v : value) :
  plain v = true →
  ∀ indent, ∃ text, serialize indent v = Some text ∧ reads_back v text.
Proof.
  induction v as [| |b|n|s|items IH|members IH] using value_ind_nested;
    intros Hplain indent.
  - done.
  - eexists. split; [done|]. split; [done|]. split; [simpl; lia|].
    intros [|fuel] rest Hfuel _; [simpl in Hfuel; lia|]. done.
  - destruct b; (eexists; split; [done|]); (split; [done|]);
      (split; [simpl; lia|]);
      intros [|fuel] rest Hfuel _; (simpl in Hfuel; lia) || done.
  - destruct n as [z| | |]; try done.
    exists (Z_toString z). split; [done|].
    destruct (Z_toString_start z) as (c & t & Hz & Hc).
    pose proof (number_start c Hc) as (Hws & H93 & _).
    split; [by rewrite Hz|]. split; [rewrite Hz; simpl; lia|].
    intros [|fuel] rest Hfuel Hrest; [simpl in Hfuel; lia|].
    rewrite Hz. cbn [app]. rewrite parse_value_number by done.
    change (c :: t ++ rest) with ((c :: t) ++ rest). rewrite <- Hz.
    by rewrite parse_number_Z_toString.
  - eexists. split; [done|]. split; [done|]. split; [simpl; lia|].
    intros [|fuel] rest Hfuel _; [simpl in Hfuel; lia|].
    unfold QuoteJSONString. cbn. rewrite <- app_assoc. cbn [app].
    by rewrite parse_chars_quote_units.
  - (* an array *)
    simpl in Hplain.
    destruct (items_read_back (indent + 2) items IH Hplain)
      as (texts & Hmap & Htexts).
    cbn [serialize]. rewrite Hmap.
    destruct items as [|x items].
    { inversion Htexts; subst. eexists. split; [done|]. split; [done|].
      split; [simpl; lia|].
      intros [|fuel] rest Hfuel _; [simpl in Hfuel; lia|]. done. }
    destruct texts as [|t texts]; [inversion Htexts|].
    eexists. split; [done|]. split; [done|].
    split.
    { cbn [cost]. apply block_long_enough; [done | simpl; lia | |].
      - by apply Forall2_length in Htexts.
      - by apply items_cost_length. }
    intros [|fuel] rest Hfuel _; [simpl in Hfuel; lia|].
    cbn [cost] in Hfuel.
    assert (reads_back x t) as Hxt by (by inversion Htexts).
    rewrite block_text, parse_value_array.
    destruct (join_head ([44; 10] ++ spaces (indent + 2)) t texts) as [more Hmore].
    destruct (reads_back_start x t (more ++ 10 :: spaces indent ++ 93 :: rest) Hxt)
      as (c & t' & -> & Hskip & Hc).
    assert (skip_ws (join ([44; 10] ++ spaces (indent + 2)) ((c :: t') :: texts)
                     ++ 10 :: spaces indent ++ 93 :: rest)
            = join ([44; 10] ++ spaces (indent + 2)) ((c :: t') :: texts)
                ++ 10 :: spaces indent ++ 93 :: rest) as ->.
    { rewrite Hmore, <- app_assoc. exact Hskip. }
    assert (next_is 93 (join ([44; 10] ++ spaces (indent + 2)) ((c :: t') :: texts)
                        ++ 10 :: spaces indent ++ 93 :: rest) = None) as ->.
    { rewrite Hmore. cbn [app next_is]. by destruct (N.eqb_spec c 93). }
    apply (parse_elems_join (indent + 2) indent rest (x :: items)
             ((c :: t') :: texts) Htexts ltac:(done) [] fuel).
    simpl in *. lia.
  - (* an object *)
    simpl in Hplain. apply andb_true_iff in Hplain as [Hplain Hkeys].
    apply bool_decide_eq_true_1 in Hkeys.
    destruct (members_read_back (indent + 2) members IH Hplain)
      as (entries & Hmap & Hentries).
    cbn [serialize]. rewrite Hmap.
    destruct members as [|m members].
    { inversion Hentries; subst. eexists. split; [done|]. split; [done|].
      split; [simpl; lia|].
      intros [|fuel] rest Hfuel _; [simpl in Hfuel; lia|]. done. }
    destruct entries as [|e entries]; [inversion Hentries|].
    eexists. split; [done|]. split; [done|].
    split.
    { cbn [cost]. apply block_long_enough; [done | simpl; lia | |].
      - by apply Forall2_length in Hentries.
      - by apply members_cost_length. }
    intros [|fuel] rest Hfuel _; [simpl in Hfuel; lia|].
    cbn [cost] in Hfuel.
    rewrite block_text, parse_value_object.
    assert (∃ t, e = 34 :: t) as [t ->].
    { inversion Hentries as [|? ? ? ? (t & -> & _) _]; subst.
      unfold QuoteJSONString. eauto. }
    destruct (join_head ([44; 10] ++ spaces (indent + 2)) (34 :: t) entries)
      as [more Hmore].
    assert (skip_ws (join ([44; 10] ++ spaces (indent + 2)) ((34 :: t) :: entries)
                     ++ 10 :: spaces indent ++ 125 :: rest)
            = join ([44; 10] ++ spaces (indent + 2)) ((34 :: t) :: entries)
                ++ 10 :: spaces indent ++ 125 :: rest) as ->.
    { by rewrite Hmore. }
    assert (next_is 125 (join ([44; 10] ++ spaces (indent + 2))
                              ((34 :: t) :: entries)
                         ++ 10 :: spaces indent ++ 125 :: rest) = None) as ->.
    { by rewrite Hmore. }
    apply (parse_members_join (indent + 2) indent rest (m :: members)
             ((34 :: t) :: entries) Hentries ltac:(done) [] fuel);
      [done | simpl in *; lia].
Qed.

(** Round trip: [JSON.parse(JSON.stringify(v, null, 2))] is [v] again for
    every plain value. *)
Lemma JSON_roundtrip (v : value) :
  plain v = true →
  ∃ text, JSON_stringify v = Some text ∧ JSON_parse text = Some v.
Proof.
  intros Hplain.
  destruct (serialize_reads_back v Hplain 0) as (text & Htext & _ & Hcost & Hparse).
  exists text. split; [done|].
  unfold JSON_parse.
  rewrite <- (app_nil_r text) at 2.
  rewrite Hparse by (done || lia). done.
Qed.

(** *** The fuel of the parser is enough

    Every call of the parser reads at least one unit before it calls
    itself again, so the fuel [JSON.parse] starts with is never used up: a
    [None] is a syntax error, whatever the text. *)

Lemma skip_ws_length (s : jstring) : (length (skip_ws s) <= length s)%nat.
Proof.
  induction s as [|c s IH]; [done|]. simpl.
  destruct (is_json_ws c); simpl; lia.
Qed.

Lemma next_is_length (c : N) (s r : jstring) :
  next_is c s = Some r → length s = S (length r).
Proof.
  destruct s as [|x s]; [done|]. simpl.
  destruct (x =? c); [|done]. by intros [= ->].
Qed.

Lemma parse_chars_length (s acc str r : jstring) :
  parse_chars s acc = Some (str, r) → (length r < length s)%nat.
Proof.
  remember (length s) as n eqn:Hn. revert s acc Hn.
  induction (lt_wf n) as [n _ IH]. intros s acc -> Hparse.
  destruct s as [|c s]; [done|]. cbn [parse_chars] in Hparse.
  destruct (c =? 34); [injection Hparse as _ <-; simpl; lia|].
  destruct (c =? 92).
  - destruct s as [|e s]; [done|].
    destruct (e =? 117).
    + destruct s as [|h1 [|h2 [|h3 [|h4 s]]]]; try done.
      destruct (hex4_value h1 h2 h3 h4); [|done].
      apply (IH (length s)) in Hparse; simpl; [lia | lia | done].
    + destruct (simple_escape e); [|done].
      apply (IH (length s)) in Hparse; simpl; [lia | lia | done].
  - destruct (c <? 32); [done|].
    apply (IH (length s)) in Hparse; simpl; [lia | lia | done].
Qed.

Lemma span_digits_length (s ds r : jstring) :
  span_digits s = (ds, r) → (length r <= length s)%nat.
Proof.
  revert ds r. induction s as [|c s IH]; intros ds r; simpl.
  - by intros [= _ <-].
  - destruct (is_digit c); [|intros [= _ <-]; simpl; lia].
    destruct (span_digits s) as [ds' r'] eqn:Hs. intros [= _ <-].
    specialize (IH _ _ eq_refl). lia.
Qed.

Lemma parse_number_tail_length (neg : bool) (ds s : jstring) (n : number)
    (r : jstring) :
  parse_number_tail neg ds s = Some (n, r) → (length r <= length s)%nat.
Proof.
  unfold parse_number_tail.
  destruct (parse_fraction s) as [[frac s1]|] eqn:Hfrac; [|done].
  assert (length s1 <= length s)%nat as Hs1.
  { unfold parse_fraction in Hfrac.
    destruct (next_is 46 s) as [r0|] eqn:Hdot; [|by injection Hfrac as _ <-].
    apply next_is_length in Hdot.
    destruct (span_digits r0) as [fs r1] eqn:Hspan.
    apply span_digits_length in Hspan.
    destruct fs; [done|]. injection Hfrac as _ <-. lia. }
  destruct (parse_exponent s1) as [[ex s2]|] eqn:Hex; [|done].
  assert (length s2 <= length s1)%nat as Hs2.
  { unfold parse_exponent in Hex.
    destruct s1 as [|e r0]; [by injection Hex as _ <-|].
    destruct ((e =? 101) || (e =? 69)); [|by injection Hex as _ <-].
    destruct (match r0 with
              | [] => ([], r0)
              | g :: r1 => if (g =? 43) || (g =? 45) then ([g], r1) else ([], r0)
              end) as [sign r1] eqn:Hsign.
    assert (length r1 <= length r0)%nat.
    { destruct r0 as [|g r2]; [by injection Hsign as _ <-|].
      destruct ((g =? 43) || (g =? 45)); injection Hsign as _ <-; simpl; lia. }
    destruct (span_digits r1) as [es r2] eqn:Hspan.
    apply span_digits_length in Hspan.
    destruct es; [done|]. injection Hex as _ <-. simpl. lia. }
  destruct frac, ex; intros [= _ <-]; lia.
Qed.

Lemma parse_number_length (s : jstring) (n : number) (r : jstring) :
  parse_number s = Some (n, r) → (length r < length s)%nat.
Proof.
  unfold parse_number.
  destruct (next_is 45 s) as [r0|] eqn:Hminus.
  - apply next_is_length in Hminus.
    destruct r0 as [|d r1]; [done|].
    destruct (d =? 48).
    + intros H%parse_number_tail_length. simpl in *. lia.
    + destruct (is_digit d); [|done].
      destruct (span_digits r1) as [ds r'] eqn:Hspan.
      apply span_digits_length in Hspan.
      intros H%parse_number_tail_length. simpl in *. lia.
  - destruct s as [|d r1]; [done|].
    destruct (d =? 48).
    + intros H%parse_number_tail_length. simpl in *. lia.
    + destruct (is_digit d); [|done].
      destruct (span_digits r1) as [ds r'] eqn:Hspan.
      apply span_digits_length in Hspan.
      intros H%parse_number_tail_length. simpl in *. lia.
Qed.

Lemma expect_length (word s : jstring) (v v' : value) (r : jstring) :
  expect word s v = Some (v', r) → (length r <= length s)%nat.
Proof.
  unfold expect. destruct (startsWith s word); [|done].
  intros [= _ <-]. rewrite length_drop. lia.
Qed.

(** A successful parse reads at least one unit. *)
Lemma parse_consumes (fuel : nat) :
  (∀ s v r, parse_value fuel s = Some (v, r) → (length r < length s)%nat) ∧
  (∀ s acc v r, parse_elems fuel s acc = Some (v, r) → (length r < length s)%nat) ∧
  (∀ s acc v r, parse_members fuel s acc = Some (v, r) → (length r < length s)%nat).
Proof.
  induction fuel as [|fuel (IHv & IHe & IHm)]; [done|].
  assert (∀ s v r, parse_value (S fuel) s = Some (v, r) →
                   (length r < length s)%nat) as Hvalue.
  { intros s v r. cbn [parse_value].
    pose proof (skip_ws_length s) as Hskip.
    destruct (skip_ws s) as [|c t]; [done|]. simpl in Hskip.
    pose proof (skip_ws_length t) as Hskip'.
    destruct (c =? 123).
    { destruct (next_is 125 (skip_ws t)) as [r'|] eqn:Hclose.
      - apply next_is_length in Hclose. intros [= _ <-]. lia.
      - intros H%IHm. lia. }
    destruct (c =? 91).
    { destruct (next_is 93 (skip_ws t)) as [r'|] eqn:Hclose.
      - apply next_is_length in Hclose. intros [= _ <-]. lia.
      - intros H%IHe. lia. }
    destruct (c =? 34).
    { destruct (parse_chars t []) as [[str r']|] eqn:Hchars; [|done].
      apply parse_chars_length in Hchars. intros [= _ <-]. lia. }
    destruct (c =? 116); [intros H%expect_length; lia|].
    destruct (c =? 102); [intros H%expect_length; lia|].
    destruct (c =? 110); [intros H%expect_length; lia|].
    destruct (parse_number (c :: t)) as [[n r']|] eqn:Hnum; [|done].
    apply parse_number_length in Hnum. intros [= _ <-]. simpl in Hnum. lia. }
  split; [exact Hvalue|]. split.
  - intros s acc v r. cbn [parse_elems].
    destruct (parse_value fuel s) as [[x r0]|] eqn:Hx; [|done].
    apply IHv in Hx. pose proof (skip_ws_length r0).
    destruct (next_is 44 (skip_ws r0)) as [r'|] eqn:Hcomma.
    + apply next_is_length in Hcomma. intros H'%IHe. lia.
    + destruct (next_is 93 (skip_ws r0)) as [r'|] eqn:Hclose; [|done].
      apply next_is_length in Hclose. intros [= _ <-]. lia.
  - intros s acc v r. cbn [parse_members].
    pose proof (skip_ws_length s).
    destruct (next_is 34 (skip_ws s)) as [r0|] eqn:Hquote; [|done].
    apply next_is_length in Hquote.
    destruct (parse_chars r0 []) as [[key r1]|] eqn:Hkey; [|done].
    apply parse_chars_length in Hkey. pose proof (skip_ws_length r1).
    destruct (next_is 58 (skip_ws r1)) as [r2|] eqn:Hcolon; [|done].
    apply next_is_length in Hcolon.
    destruct (parse_value fuel r2) as [[x r3]|] eqn:Hx; [|done].
    apply IHv in Hx. pose proof (skip_ws_length r3).
    destruct (next_is 44 (skip_ws r3)) as [r'|] eqn:Hcomma.
    + apply next_is_length in Hcomma. intros H'%IHm. lia.
    + destruct (next_is 125 (skip_ws r3)) as [r'|] eqn:Hclose; [|done].
      apply next_is_length in Hclose. intros [= _ <-]. lia.
Qed.

(** Beyond twice the length of the text, more fuel changes nothing. *)
Lemma parse_fuel_stable (n : nat) :
  ∀ s, (length s <= n)%nat →
    (∀ f1 f2, (2 * length s + 2 <= f1)%nat → (2 * length s + 2 <= f2)%nat →
              parse_value f1 s = parse_value f2 s) ∧
    (∀ f1 f2 acc, (2 * length s + 3 <= f1)%nat → (2 * length s + 3 <= f2)%nat →
                  parse_elems f1 s acc = parse_elems f2 s acc) ∧
    (∀ f1 f2 acc, (2 * length s + 3 <= f1)%nat → (2 * length s + 3 <= f2)%nat →
                  parse_members f1 s acc = parse_members f2 s acc).
Proof.
  induction n as [|n IH].
  - (* the empty text *)
    intros [|c s] Hs; [|simpl in Hs; lia].
    repeat split; intros [|f1] [|f2]; intros; try (simpl in *; lia); try done.
    cbn [parse_elems]. by destruct f1, f2.
  - intros s Hs.
    assert (∀ f1 f2, (2 * length s + 2 <= f1)%nat → (2 * length s + 2 <= f2)%nat →
                     parse_value f1 s = parse_value f2 s) as Hvalue.
    { intros [|f1] [|f2] H1 H2; try lia. cbn [parse_value].
      pose proof (skip_ws_length s) as Hskip.
      destruct (skip_ws s) as [|c t]; [done|]. simpl in Hskip.
      pose proof (skip_ws_length t) as Hskip'.
      destruct (IH (skip_ws t) ltac:(lia)) as (_ & He & Hm).
      destruct (c =? 123).
      { destruct (next_is 125 (skip_ws t)); [done|]. apply Hm; lia. }
      destruct (c =? 91); [|done].
      destruct (next_is 93 (skip_ws t)); [done|]. apply He; lia. }
    split; [exact Hvalue|]. split.
    + intros [|f1] [|f2] acc H1 H2; try lia. cbn [parse_elems].
      rewrite (Hvalue f1 f2) by lia.
      destruct (parse_value f2 s) as [[x r0]|] eqn:Hx; [|done].
      apply (parse_consumes f2) in Hx. pose proof (skip_ws_length r0).
      destruct (next_is 44 (skip_ws r0)) as [r'|] eqn:Hcomma; [|done].
      apply next_is_length in Hcomma.
      destruct (IH r' ltac:(lia)) as (_ & He & _). apply He; lia.
    + intros [|f1] [|f2] acc H1 H2; try lia. cbn [parse_members].
      pose proof (skip_ws_length s).
      destruct (next_is 34 (skip_ws s)) as [r0|] eqn:Hquote; [|done].
      apply next_is_length in Hquote.
      destruct (parse_chars r0 []) as [[key r1]|] eqn:Hkey; [|done].
      apply parse_chars_length in Hkey. pose proof (skip_ws_length r1).
      destruct (next_is 58 (skip_ws r1)) as [r2|] eqn:Hcolon; [|done].
      apply next_is_length in Hcolon.
      destruct (IH r2 ltac:(lia)) as (Hv2 & _ & _).
      rewrite (Hv2 f1 f2) by lia.
      destruct (parse_value f2 r2) as [[x r3]|] eqn:Hx; [|done].
      apply (parse_consumes f2) in Hx. pose proof (skip_ws_length r3).
      destruct (next_is 44 (skip_ws r3)) as [r'|] eqn:Hcomma; [|done].
      apply next_is_length in Hcomma.
      destruct (IH r' ltac:(lia)) as (_ & _ & Hm). apply Hm; lia.
Qed.

(** [JSON_parse] gives what the parser gives with any larger fuel. *)
Lemma JSON_parse_fuel (text : jstring) (fuel : nat) :
  (2 * length text + 2 <= fuel)%nat →
  parse_value fuel text = parse_value (2 * length text + 2) text.
Proof.
  intros Hfuel.
  destruct (parse_fuel_stable (length text) text ltac:(done)) as (Hvalue & _).
  apply Hvalue; lia.
Qed.

End JsonFacts.

(** ** Paths of the store's companions *)

Section Paths.

Variable historyFilePath : jstring.

Lemma path_suffix_ne (suffix : jstring) :
  suffix ≠ [] → historyFilePath ++ suffix ≠ historyFilePath.
Proof.
  intros Hne Heq. apply Hne.
  apply (app_inv_head historyFilePath). by rewrite app_nil_r.
Qed.

Lemma lock_ne_history : FileManager.lockFilePath historyFilePath ≠ historyFilePath.
Proof. by apply path_suffix_ne. Qed.

Lemma tmp_ne_history : historyFilePath ++ SUFFIX_TMP ≠ historyFilePath.
Proof. by apply path_suffix_ne. Qed.

Lemma tmp_ne_lock :
  historyFilePath ++ SUFFIX_TMP ≠ FileManager.lockFilePath historyFilePath.
Proof. intros H. by apply app_inv_head in H. Qed.

Lemma backup_ne_history (stamp : jstring) :
  historyFilePath ++ SUFFIX_BACKUP ++ stamp ≠ historyFilePath.
Proof. by apply path_suffix_ne. Qed.

Lemma backup_ne_tmp (stamp : jstring) :
  historyFilePath ++ SUFFIX_BACKUP ++ stamp ≠ historyFilePath ++ SUFFIX_TMP.
Proof. intros H. by apply app_inv_head in H. Qed.

Lemma backup_ne_lock (stamp : jstring) :
  historyFilePath ++ SUFFIX_BACKUP ++ stamp ≠ FileManager.lockFilePath historyFilePath.
Proof. intros H. by apply app_inv_head in H. Qed.

End Paths.

(** ** Reading *)

Section Reading.

Variable E : Env.
Variable historyFilePath : jstring.

Abbreviation readHistory := (FileManager.readHistory E historyFilePath).

Lemma existsSync_present (path : jstring) (w : World) :
  is_Some (files w !! path) → existsSync path w = (Ok true, w).
Proof. intros H. unfold existsSync. by rewrite bool_decide_eq_true_2. Qed.

Lemma existsSync_absent (path : jstring) (w : World) :
  files w !! path = None → existsSync path w = (Ok false, w).
Proof.
  intros H. unfold existsSync. rewrite bool_decide_eq_false_2; [done|].
  rewrite H. by intros [? ?].
Qed.

(** What [readHistory] does on a store file that can be read and decodes
    to an object. *)
Lemma readHistory_decoded (w : World) (content : jstring)
    (members : list (jstring * value)) (limit : option Z) :
  files w !! historyFilePath = Some content →
  read_fails E historyFilePath = false →
  JSON_parse content = Some (VObj members) →
  readHistory limit w =
    match limit with
    | Some l =>
        if truthy_number l && (l >? 0)
        then try_catch (slice_value (obj_get members K_history) (- l))
                       (fun error => throw (ReadFailed error)) w
        else (Ok (obj_get members K_history), w)
    | None => (Ok (obj_get members K_history), w)
    end.
Proof.
  intros Hfile Hread Hparse.
  unfold FileManager.readHistory, bind.
  rewrite existsSync_present by (rewrite Hfile; eauto). simpl.
  unfold try_catch, bind, readFileSync, parse.
  rewrite Hread, Hfile, Hparse. simpl.
  destruct limit as [l|]; [|done].
  destruct (truthy_number l && (l >? 0)); done.
Qed.

Lemma slice_last {A} (l : list A) (n : Z) :
  0 < n → n < Z.of_nat (length l) →
  slice l (- n) = drop (length l - Z.to_nat n) l.
Proof.
  intros Hpos Hlt. unfold slice.
  destruct (Z.ltb_spec (- n) 0) as [_|?]; [|lia].
  f_equal. lia.
Qed.

End Reading.

(** ** The building blocks of a write *)

Section Store.

Variable E : Env.
Variable historyFilePath : jstring.

Abbreviation lockPath := (FileManager.lockFilePath historyFilePath).
Abbreviation tempPath := (historyFilePath ++ SUFFIX_TMP).

Lemma existsSync_match (path : jstring) (w : World) :
  existsSync path w
  = (Ok (match files w !! path with Some _ => true | None => false end), w).
Proof.
  destruct (files w !! path) eqn:H.
  - apply existsSync_present. rewrite H. eauto.
  - by apply existsSync_absent.
Qed.

(** The waiting loop returns at once when nobody holds the lock. *)
Lemma wait_for_lock_free (polls : nat) (startTime : Z) (w : World) :
  files w !! lockPath = None →
  FileManager.wait_for_lock historyFilePath polls startTime w = (Ok tt, w).
Proof.
  intros Hfree. destruct polls; simpl; unfold bind;
    by rewrite existsSync_absent.
Qed.

(** While the lock file stays, the loop polls every 10 ms and gives up at
    the first poll later than the timeout, 5010 ms after it started; the
    bound on the rounds plays no part. *)
Lemma wait_for_lock_held (polls : nat) (startTime : Z) (w : World) (k : Z) :
  is_Some (files w !! lockPath) →
  clock w = startTime + 10 * k → 0 <= k <= 501 →
  501 <= Z.of_nat polls + k →
  FileManager.wait_for_lock historyFilePath polls startTime w
  = (Throw LockTimeout, mkWorld (files w) (startTime + 5010) (trace w)).
Proof.
  revert w k. induction polls as [|polls IH]; intros w k Hheld Hclock Hk Hfuel.
  - assert (k = 501) as -> by lia.
    simpl. unfold bind. rewrite existsSync_present by done. simpl.
    unfold FileManager.LOCK_TIMEOUT.
    destruct (Z.gtb_spec (clock w - startTime) 5000); [|lia].
    unfold throw. destruct w; simpl in *. do 2 f_equal. lia.
  - simpl. unfold bind. rewrite existsSync_present by done. simpl.
    unfold FileManager.LOCK_TIMEOUT.
    destruct (Z.gtb_spec (clock w - startTime) 5000).
    + unfold throw. destruct w; simpl in *. do 2 f_equal. lia.
    + simpl. fold (bind (A:=unit) (B:=unit)).
      rewrite (IH _ (k + 1)); simpl; [done | done | lia | lia | lia].
Qed.

Lemma wait_for_lock_bound (polls : nat) (w : World) :
  (FileManager.MAX_POLLS <= polls)%nat →
  FileManager.wait_for_lock historyFilePath polls (clock w) w
  = FileManager.wait_for_lock historyFilePath FileManager.MAX_POLLS (clock w) w.
Proof.
  intros Hpolls. destruct (files w !! lockPath) eqn:Hlock.
  - rewrite !(wait_for_lock_held _ _ w 0); unfold FileManager.MAX_POLLS in *;
      eauto; lia.
  - by rewrite !wait_for_lock_free.
Qed.

(** [acquireLock] when somebody holds the lock. *)
Lemma acquireLock_held (w : World) :
  is_Some (files w !! lockPath) →
  FileManager.acquireLock E historyFilePath w
  = (Throw LockTimeout, mkWorld (files w) (clock w + 5010) (trace w)).
Proof.
  intros Hheld. unfold FileManager.acquireLock, bind, Date_now.
  rewrite (wait_for_lock_held _ _ w 0); unfold FileManager.MAX_POLLS;
    [done | done | lia | lia | lia].
Qed.

(** [acquireLock] when the lock is free: the three ways the creation of
    the lock file can go. *)
Lemma acquireLock_free (w : World) :
  files w !! lockPath = None →
  FileManager.acquireLock E historyFilePath w
  = match write_fault_at E lockPath with
    | None =>
        (Ok tt, set_files w (<[lockPath := N_toString (pid E)]> (files w))
                          (Wrote lockPath (N_toString (pid E))))
    | Some WriteRefused =>
        (Throw (LockCreateFailed (FsError OpWrite lockPath)), w)
    | Some (WriteTorn n) =>
        (Throw (LockCreateFailed (FsError OpWrite lockPath)),
         set_files w (<[lockPath := take n (N_toString (pid E))]> (files w))
                   (Wrote lockPath (take n (N_toString (pid E)))))
    end.
Proof.
  intros Hfree. unfold FileManager.acquireLock, bind, Date_now.
  rewrite wait_for_lock_free by done.
  unfold try_catch, writeFileSync.
  destruct (write_fault_at E lockPath) as [[|n]|]; done.
Qed.

(** [releaseLock] never throws; it removes the lock file unless there is
    none or the deletion fails. *)
Lemma releaseLock_run (w : World) :
  FileManager.releaseLock E historyFilePath w
  = (Ok tt,
     match files w !! lockPath with
     | Some _ =>
         if unlink_fails E lockPath then w
         else set_files w (delete lockPath (files w)) (Unlinked lockPath)
     | None => w
     end).
Proof.
  unfold FileManager.releaseLock, try_catch, bind.
  destruct (files w !! lockPath) as [c|] eqn:Hlock.
  - rewrite existsSync_present by (rewrite Hlock; eauto).
    unfold unlinkSync. rewrite Hlock.
    by destruct (unlink_fails E lockPath).
  - by rewrite existsSync_absent.
Qed.

(** A successful [atomicWrite]: the text goes to the temporary file, which
    is then renamed onto the store file. *)
Lemma atomicWrite_ok (historyFile : value) (text : jstring) (w : World) :
  JSON_stringify historyFile = Some text →
  write_fault_at E tempPath = None →
  rename_fails E tempPath historyFilePath = false →
  FileManager.atomicWrite E historyFilePath historyFile w
  = (Ok tt,
     mkWorld (<[historyFilePath := text]> (delete tempPath (files w)))
             (clock w)
             (trace w ++ [Wrote tempPath text; Renamed tempPath historyFilePath])).
Proof.
  intros Htext Hwrite Hrename.
  unfold FileManager.atomicWrite, try_catch, bind.
  rewrite Htext. unfold ret at 1. unfold writeFileSync. rewrite Hwrite.
  unfold renameSync. rewrite Hrename. simpl.
  rewrite lookup_insert_eq. unfold set_files. simpl.
  rewrite delete_insert_eq. by rewrite <- app_assoc.
Qed.

(** Whatever happens in [atomicWrite], only the temporary file and the
    store file can change; when it throws, the store file is as before;
    and when deletions do not fail, no temporary file is left. *)
Lemma atomicWrite_frame (historyFile : value) (w : World) :
  ∃ r w',
    FileManager.atomicWrite E historyFilePath historyFile w = (r, w') ∧
    (∀ p, p ≠ tempPath → p ≠ historyFilePath → files w' !! p = files w !! p) ∧
    ((∃ e, r = Throw (WriteFailed e)) ∧
       files w' !! historyFilePath = files w !! historyFilePath
     ∨ r = Ok tt ∧
       ∃ text, JSON_stringify historyFile = Some text ∧
               files w' !! historyFilePath = Some text) ∧
    (unlink_fails E tempPath = false → files w' !! tempPath = None).
Proof.
  pose proof (tmp_ne_history historyFilePath) as Hne.
  unfold FileManager.atomicWrite, try_catch, bind.
  destruct (JSON_stringify historyFile) as [text|];
    [unfold ret at 1; unfold writeFileSync;
     destruct (write_fault_at E tempPath) as [[|n]|];
     [ | | unfold renameSync;
           destruct (rename_fails E tempPath historyFilePath) eqn:Hren;
           simpl; rewrite ?lookup_insert_eq ]
    | unfold throw at 1 ];
    rewrite ?existsSync_match; unfold unlinkSync; simpl;
    rewrite ?lookup_insert_eq;
    try (destruct (files w !! tempPath) as [c0|] eqn:Htmp0);
    destruct (unlink_fails E tempPath) eqn:Hun; simpl;
    rewrite ?Htmp0, ?lookup_insert_eq; simpl;
    (eexists _, _; split; [reflexivity|]; simpl;
     split; [intros p Hp1 Hp2; by simplify_map_eq|];
     split; [first [ right; split; [done|]; eexists; split; [done|];
                     by simplify_map_eq
                   | left; split; [eauto | by simplify_map_eq]]|];
     intros ?; by simplify_map_eq).
Qed.

(** Loading the current document does not change the world. *)
Lemma load_run (w : World) :
  (let! present := existsSync historyFilePath in
   if present then
     let! content := readFileSync E historyFilePath in
     parse content
   else ret empty_history) w
  = (match files w !! historyFilePath with
     | None => Ok empty_history
     | Some content =>
         if read_fails E historyFilePath
         then Throw (FsError OpRead historyFilePath)
         else match JSON_parse content with
              | Some v => Ok v
              | None => Throw SyntaxError
              end
     end, w).
Proof.
  unfold bind. destruct (files w !! historyFilePath) as [content|] eqn:Hfile.
  - rewrite existsSync_present by (rewrite Hfile; eauto).
    unfold readFileSync. rewrite Hfile.
    destruct (read_fails E historyFilePath); [done|].
    unfold parse. by destruct (JSON_parse content).
  - by rewrite existsSync_absent.
Qed.

(** Neither does pushing the record onto the loaded document. *)
Lemma push_history_run (historyFile record : value) (w : World) :
  ∃ r, push_history historyFile record w = (r, w) ∧
       (∀ v, r = Ok v → ∃ members, v = VObj members).
Proof.
  unfold push_history, bind, get_history.
  destruct historyFile; try (eexists; split; [reflexivity|]; by intros).
  unfold ret at 1.
  destruct (obj_get members K_history); eexists; (split; [reflexivity|]);
    intros v [= <-]; eauto.
Qed.

(** The part of [appendCommand] inside [try]. *)
Abbreviation append_body record :=
  (let! historyFile :=
     (let! present := existsSync historyFilePath in
      if present then
        let! content := readFileSync E historyFilePath in
        parse content
      else ret empty_history) in
   let! historyFile := push_history historyFile record in
   FileManager.atomicWrite E historyFilePath historyFile).

Abbreviation released := (released E historyFilePath).

Lemma try_finally_release {A} (body : M A) (w w1 : World) (r : Res A) :
  body w = (r, w1) →
  try_finally body (FileManager.releaseLock E historyFilePath) w = (r, released w1).
Proof.
  intros Hbody. unfold try_finally. by rewrite Hbody, releaseLock_run.
Qed.

Lemma released_frame (w : World) (p : jstring) :
  p ≠ lockPath → files (released w) !! p = files w !! p.
Proof.
  intros Hp. unfold released.
  destruct (files w !! lockPath); [|done].
  destruct (unlink_fails E lockPath); [done|].
  simpl. by rewrite lookup_delete_ne.
Qed.

Lemma released_unlocked (w : World) :
  unlink_fails E lockPath = false → files (released w) !! lockPath = None.
Proof.
  intros Hun. unfold released.
  destruct (files w !! lockPath) eqn:Hlock; [|done].
  rewrite Hun. simpl. apply lookup_delete_eq.
Qed.

Lemma released_trace (w : World) :
  ∃ evs, trace (released w) = trace w ++ evs ∧ Forall (touches_only lockPath) evs.
Proof.
  unfold released.
  destruct (files w !! lockPath);
    [destruct (unlink_fails E lockPath)|];
    first [ by exists []; rewrite app_nil_r
          | exists [Unlinked lockPath]; split; [done|]; by repeat constructor ].
Qed.

(** The body of [appendCommand] changes at most the temporary file and
    the store file; when it throws the store file is as before; and it
    leaves no temporary file behind if there was none and deletions work. *)
Lemma append_body_frame (record : value) (w : World) :
  ∃ r w',
    append_body record w = (r, w') ∧
    (∀ p, p ≠ tempPath → p ≠ historyFilePath → files w' !! p = files w !! p) ∧
    ((∃ e, r = Throw e) ∧ files w' !! historyFilePath = files w !! historyFilePath
     ∨ r = Ok tt) ∧
    (unlink_fails E tempPath = false → files w !! tempPath = None →
     files w' !! tempPath = None).
Proof.
  unfold bind at 1. rewrite load_run.
  set (loaded := match files w !! historyFilePath with
                 | Some _ => _ | None => _ end).
  destruct loaded as [historyFile|e].
  2:{ exists (Throw e), w. repeat split; eauto. }
  unfold bind at 1.
  destruct (push_history_run historyFile record w) as (r & -> & _).
  destruct r as [historyFile'|e].
  2:{ exists (Throw e), w. repeat split; eauto. }
  destruct (atomicWrite_frame historyFile' w) as (r & w' & -> & Hframe & Hres & Htmp).
  exists r, w'. repeat split; [done| |by auto].
  destruct Hres as [[[e ->] Hkeep] | [-> _]]; eauto.
Qed.

(** On a store file that does not decode, the body throws before it
    changes anything. *)
Lemma append_body_corrupted (record : value) (w : World) (content : jstring) :
  files w !! historyFilePath = Some content →
  JSON_parse content = None →
  ∃ e, append_body record w = (Throw e, w) ∧
       (read_fails E historyFilePath = false → e = SyntaxError).
Proof.
  intros Hfile Hparse. unfold bind at 1. rewrite load_run, Hfile, Hparse.
  destruct (read_fails E historyFilePath);
    eexists; (split; [reflexivity | by intros]).
Qed.

(** A backup that meets no failure: the store file is copied to the backup
    path, then deleted. *)
Lemma backupCorruptedFile_ok (w : World) (content : jstring) :
  let backupPath :=
    historyFilePath ++ SUFFIX_BACKUP
      ++ FileManager.replace_colon_dot (toISOString E (clock w)) in
  files w !! historyFilePath = Some content →
  copy_fault_at E historyFilePath backupPath = None →
  unlink_fails E historyFilePath = false →
  FileManager.backupCorruptedFile E historyFilePath w
  = (Ok tt,
     mkWorld (delete historyFilePath (<[backupPath := content]> (files w)))
             (clock w)
             (trace w ++ [Copied historyFilePath backupPath content;
                          Unlinked historyFilePath])).
Proof.
  intros backupPath Hfile Hcopy Hunlink.
  pose proof (backup_ne_history historyFilePath
                (FileManager.replace_colon_dot (toISOString E (clock w)))) as Hne.
  unfold FileManager.backupCorruptedFile, bind.
  rewrite existsSync_present by (rewrite Hfile; eauto). cbn.
  unfold try_catch, bind, copyFileSync. fold backupPath.
  rewrite Hfile, Hcopy. unfold unlinkSync. rewrite Hunlink. cbn.
  rewrite lookup_insert_ne by done. rewrite Hfile.
  unfold set_files. simpl. by rewrite <- app_assoc.
Qed.

(** [backupCorruptedFile] leaves every file but the store file and the
    backup alone. *)
Lemma backupCorruptedFile_frame (w w' : World) (r : Res unit) (p : jstring) :
  FileManager.backupCorruptedFile E historyFilePath w = (r, w') →
  p ≠ historyFilePath →
  p ≠ historyFilePath ++ SUFFIX_BACKUP
        ++ FileManager.replace_colon_dot (toISOString E (clock w)) →
  files w' !! p = files w !! p.
Proof.
  unfold FileManager.backupCorruptedFile, bind.
  rewrite existsSync_match.
  destruct (files w !! historyFilePath) as [content|] eqn:Hfile;
    cbn [negb]; [|by intros [= _ <-]].
  unfold Date_now, try_catch, bind, copyFileSync. rewrite Hfile.
  destruct (copy_fault_at E historyFilePath _) as [[|n]|];
    [by intros [= _ <-] | intros [= _ <-] ? ?; cbn; by simplify_map_eq |].
  unfold unlinkSync. destruct (unlink_fails E historyFilePath);
    [intros [= _ <-] ? ?; cbn; by simplify_map_eq|].
  cbn. rewrite lookup_insert_ne by apply backup_ne_history.
  rewrite Hfile. intros [= _ <-] ? ?. cbn. by simplify_map_eq.
Qed.

(** After a successful [initializeHistoryFile] the store file holds the
    text of the empty history, and the lock file is as it was. *)
Lemma initializeHistoryFile_success (force : bool) (w w' : World) :
  FileManager.initializeHistoryFile E historyFilePath force w = (Ok tt, w') →
  ∃ text,
    JSON_stringify empty_history = Some text ∧
    files w' !! historyFilePath = Some text ∧
    files w' !! lockPath = files w !! lockPath.
Proof.
  pose proof (lock_ne_history historyFilePath) as Hlh.
  pose proof (tmp_ne_lock historyFilePath) as Htl.
  unfold FileManager.initializeHistoryFile. unfold bind at 1.
  rewrite existsSync_match.
  destruct (match files w !! historyFilePath with Some _ => true | None => false end
            && negb force); [done|].
  unfold bind at 1. unfold bind at 1. rewrite existsSync_match.
  set (step := if _ && force then _ else _).
  destruct (step w) as [r0 w0] eqn:Hstep.
  assert (files w0 !! lockPath = files w !! lockPath) as Hlock0.
  { subst step.
    destruct (match files w !! historyFilePath with Some _ => true | None => false end
              && force); [|by injection Hstep as _ <-].
    apply (backupCorruptedFile_frame w w0 r0); [done | done |].
    apply not_eq_sym, backup_ne_lock. }
  destruct r0 as [[]|e]; [|done].
  destruct (atomicWrite_frame empty_history w0) as (r & w1 & -> & Hframe & Hres & _).
  intros [= -> ->].
  destruct Hres as [[[e [=]] _] | [_ (text & Htext & Hfile)]].
  exists text. split; [done|]. split; [done|].
  rewrite Hframe by auto. done.
Qed.

(** One append on a store that holds [stored], with nothing failing. *)
Lemma appendCommand_stores (w : World) (stored : list value) (record : value)
    (text text' : jstring) :
  reliable E historyFilePath →
  files w !! lockPath = None →
  files w !! historyFilePath = Some text →
  JSON_parse text = Some (history_document stored) →
  JSON_stringify (history_document (stored ++ [record])) = Some text' →
  ∃ w',
    FileManager.appendCommand E historyFilePath record w = (Ok tt, w') ∧
    files w' !! lockPath = None ∧
    files w' !! historyFilePath = Some text'.
Proof.
  intros (Hwl & Hul & Hrh & Hwt & Hrn) Hlock Hfile Hparse Htext'.
  pose proof (lock_ne_history historyFilePath) as Hlh.
  pose proof (tmp_ne_lock historyFilePath) as Htl.
  unfold FileManager.appendCommand. unfold bind at 1.
  rewrite acquireLock_free by done. rewrite Hwl.
  set (w1 := set_files w _ _).
  assert (append_body record w1
          = (Ok tt,
             mkWorld (<[historyFilePath := text']> (delete tempPath (files w1)))
               (clock w1)
               (trace w1 ++ [Wrote tempPath text';
                             Renamed tempPath historyFilePath]))) as Hbody.
  { unfold bind at 1. rewrite load_run.
    replace (files w1 !! historyFilePath) with (Some text)
      by (unfold w1; simpl; by rewrite lookup_insert_ne).
    rewrite Hrh, Hparse. unfold bind at 1.
    unfold push_history, bind, get_history, history_document. cbn [obj_get ret].
    unfold jstring_eqb. rewrite bool_decide_eq_true_2 by done.
    cbn [obj_set]. unfold jstring_eqb. rewrite bool_decide_eq_true_2 by done.
    by apply atomicWrite_ok. }
  rewrite (try_finally_release _ _ _ _ Hbody).
  eexists. split; [done|].
  split; [by apply released_unlocked|].
  rewrite released_frame by auto. simpl. apply lookup_insert_eq.
Qed.

End Store.

(** ** Claims about reading *)

(** C6: on a store whose file decodes to a history of N records, [readHistory]
    with a limit L, 0 < L < N, returns the last L records, in their stored
    order: the stored sequence is [older ++ latest] with [latest] of length L,
    and [latest] is what is returned. *)
Theorem read_limit_returns_last (E : Env) (historyFilePath : jstring)
    (w : World) (content : jstring) (members : list (jstring * value))
    (records : list value) (L : Z) :
  files w !! historyFilePath = Some content →
  read_fails E historyFilePath = false →
  JSON_parse content = Some (VObj members) →
  obj_get members K_history = VArr records →
  0 < L → L < Z.of_nat (length records) →
  ∃ older latest,
    records = older ++ latest ∧
    Z.of_nat (length latest) = L ∧
    FileManager.readHistory E historyFilePath (Some L) w = (Ok (VArr latest), w).
Proof.
  intros Hfile Hread Hparse Hhist Hpos Hlt.
  exists (take (length records - Z.to_nat L) records),
         (drop (length records - Z.to_nat L) records).
  split; [by rewrite take_drop|].
  split; [rewrite length_drop; lia|].
  rewrite (readHistory_decoded E historyFilePath w content members) by done.
  unfold truthy_number.
  destruct (Z.eqb_spec L 0) as [?|_]; [lia|].
  destruct (Z.gtb_spec L 0) as [_|?]; [|lia].
  simpl. rewrite Hhist. unfold try_catch, slice_value, ret.
  by rewrite slice_last.
Qed.

Lemma read_limit_returns_last_witness :
  FileManager.readHistory Examples.reliable_env Examples.store_path (Some 2)
    (Examples.world_with Examples.three_records_text)
  = (Ok (VArr (drop 1 Examples.three_records)),
     Examples.world_with Examples.three_records_text).
Proof.
  destruct (read_limit_returns_last Examples.reliable_env Examples.store_path
              (Examples.world_with Examples.three_records_text)
              Examples.three_records_text
              [(K_history, VArr Examples.three_records)]
              Examples.three_records 2)
    as (older & latest & Hsplit & Hlen & Hread);
    [reflexivity | reflexivity | vm_compute; reflexivity | reflexivity
    | lia | simpl; lia |].
  rewrite Hread. do 2 f_equal.
  assert (length older = 1%nat) as Holder.
  { apply (f_equal length) in Hsplit. rewrite length_app in Hsplit.
    simpl in Hsplit. lia. }
  rewrite Hsplit.
  by rewrite drop_app_length' by done.
Defined.

(** C10: on a store whose file decodes to a history of records, [readHistory]
    with no limit, with the limit zero or with a negative limit returns the
    whole stored history in order; a limit that is not positive is no error
    and cuts nothing. *)
Theorem read_nonpositive_limit_returns_all (E : Env) (historyFilePath : jstring)
    (w : World) (content : jstring) (members : list (jstring * value))
    (records : list value) (limit : option Z) :
  files w !! historyFilePath = Some content →
  read_fails E historyFilePath = false →
  JSON_parse content = Some (VObj members) →
  obj_get members K_history = VArr records →
  (limit = None ∨ ∃ l, limit = Some l ∧ l <= 0) →
  FileManager.readHistory E historyFilePath limit w = (Ok (VArr records), w).
Proof.
  intros Hfile Hread Hparse Hhist Hlimit.
  rewrite (readHistory_decoded E historyFilePath w content members) by done.
  destruct Hlimit as [->|(l & -> & Hle)]; [by rewrite Hhist|].
  replace (truthy_number l && (l >? 0)) with false; [by rewrite Hhist|].
  destruct (Z.gtb_spec l 0); [lia|]. by rewrite andb_false_r.
Qed.

Lemma read_nonpositive_limit_returns_all_witness :
  FileManager.readHistory Examples.reliable_env Examples.store_path (Some (-3))
    (Examples.world_with Examples.three_records_text)
  = (Ok (VArr Examples.three_records),
     Examples.world_with Examples.three_records_text).
Proof.
  apply (read_nonpositive_limit_returns_all Examples.reliable_env
           Examples.store_path _ Examples.three_records_text
           [(K_history, VArr Examples.three_records)]);
    [reflexivity | reflexivity | vm_compute; reflexivity | reflexivity |].
  right. exists (-3). split; [reflexivity | lia].
Defined.

(** ** Claims about initialization *)

(** C2: when the store file exists, [initializeHistoryFile(false)] throws the
    already-exists error and the world is the one it started in: the files
    are unchanged to the last code unit and no write, copy, rename or
    deletion took place. *)
Theorem initialize_without_force_protects (E : Env) (historyFilePath : jstring)
    (w : World) :
  is_Some (files w !! historyFilePath) →
  FileManager.initializeHistoryFile E historyFilePath false w
  = (Throw (AlreadyExists historyFilePath), w).
Proof.
  intros Hfile. unfold FileManager.initializeHistoryFile, bind.
  by rewrite existsSync_present.
Qed.

Lemma initialize_without_force_protects_witness :
  FileManager.initializeHistoryFile Examples.reliable_env Examples.store_path false
    (Examples.world_with Examples.three_records_text)
  = (Throw (AlreadyExists Examples.store_path),
     Examples.world_with Examples.three_records_text).
Proof.
  apply initialize_without_force_protects.
  exists Examples.three_records_text. reflexivity.
Defined.

(** The text of a store without records. *)
Lemma empty_history_text :
  JSON_stringify empty_history
  = Some [123; 10; 32; 32; 34; 104; 105; 115; 116; 111; 114; 121; 34; 58; 32;
          91; 93; 10; 125]%N.
Proof. reflexivity. Qed.

Lemma empty_history_decodes (text : jstring) :
  JSON_stringify empty_history = Some text →
  JSON_parse text = Some empty_history.
Proof. rewrite empty_history_text. intros [= <-]. by vm_compute. Qed.




(** ** Claims about appending *)

(** An append on a store whose text does not decode, in every state and
    with every failing operation: [appendCommand] throws, the store file
    keeps its text and no file other than the lock file is touched, so
    nothing is appended, backed up or initialized again.  With the lock
    taken and the file read, what is thrown is the decoding error. *)
Lemma append_on_corrupted_store_throws (E : Env) (historyFilePath : jstring)
    (w : World) (record : value) (content : jstring) :
  files w !! historyFilePath = Some content →
  JSON_parse content = None →
  ∃ e w',
    FileManager.appendCommand E historyFilePath record w = (Throw e, w') ∧
    files w' !! historyFilePath = Some content ∧
    (∀ p, p ≠ FileManager.lockFilePath historyFilePath →
          files w' !! p = files w !! p) ∧
    (∃ evs, trace w' = trace w ++ evs ∧
            Forall (touches_only (FileManager.lockFilePath historyFilePath)) evs) ∧
    (files w !! FileManager.lockFilePath historyFilePath = None →
     write_fault_at E (FileManager.lockFilePath historyFilePath) = None →
     read_fails E historyFilePath = false →
     e = SyntaxError ∧
     (unlink_fails E (FileManager.lockFilePath historyFilePath) = false →
      files w' = files w)).
Proof.
  intros Hfile Hparse.
  pose proof (lock_ne_history historyFilePath) as Hne.
  set (lockPath := FileManager.lockFilePath historyFilePath) in *.
  unfold FileManager.appendCommand. unfold bind at 1.
  destruct (files w !! lockPath) as [holder|] eqn:Hlock.
  { (* somebody holds the lock *)
    rewrite acquireLock_held by (fold lockPath; rewrite Hlock; eauto).
    eexists _, _. split; [done|]. simpl.
    split; [done|]. split; [done|].
    split; [exists []; by rewrite app_nil_r|].
    intros; done. }
  rewrite acquireLock_free by done. fold lockPath.
  destruct (write_fault_at E lockPath) as [[|n]|] eqn:Hwrite.
  - (* the lock file cannot be created *)
    eexists _, _. split; [done|].
    split; [done|]. split; [done|].
    split; [exists []; by rewrite app_nil_r|].
    intros; done.
  - (* the creation of the lock file is torn *)
    eexists _, _. split; [done|]. simpl.
    split; [by rewrite lookup_insert_ne|].
    split; [intros p Hp; by rewrite lookup_insert_ne|].
    split; [eexists [_]; split; [done|]; by repeat constructor|].
    intros; done.
  - (* the lock is taken *)
    set (w1 := set_files w _ _).
    assert (files w1 !! historyFilePath = Some content) as Hfile1.
    { unfold w1. simpl. by rewrite lookup_insert_ne. }
    destruct (append_body_corrupted E historyFilePath record w1 content
                Hfile1 Hparse) as (e & Hbody & He).
    rewrite (try_finally_release E historyFilePath _ w1 w1 (Throw e)) by done.
    eexists _, _. split; [done|].
    split; [by rewrite released_frame|].
    split.
    { intros p Hp. rewrite released_frame by done.
      unfold w1. simpl. by rewrite lookup_insert_ne. }
    split.
    { destruct (released_trace E historyFilePath w1) as (evs & -> & Hevs).
      unfold w1. simpl. rewrite <- app_assoc. eexists. split; [done|].
      constructor; done. }
    intros _ _ Hread. split; [by apply He|]. intros Hunlink.
    unfold released. fold lockPath. unfold w1 at 1. simpl.
    rewrite lookup_insert_eq, Hunlink. unfold w1. simpl.
    by apply delete_insert_id.
Qed.


(** C4, as stated, fails: the error is not always the one of the decoding.
    With a store whose text is not JSON next to another writer's lock
    file, [appendCommand] gives up on the lock before it reads the store:
    what it throws is the lock timeout. *)
Lemma append_on_locked_corrupted_store_times_out :
  ∃ w',
    FileManager.appendCommand Examples.reliable_env Examples.store_path
      (value_of_record Examples.git_status) Faults.garbage_world_locked
    = (Throw LockTimeout, w') ∧
    files w' = files Faults.garbage_world_locked.
Proof.
  eexists. split.
  - unfold FileManager.appendCommand. unfold bind at 1.
    rewrite acquireLock_held; [reflexivity|].
    vm_compute. eauto.
  - reflexivity.
Qed.

(** C4, amended: when the store file exists and its text does not decode,
    no lock file is there, the lock file can be created and the store file
    can be read, [appendCommand] throws, for every record, the error of
    the decoding itself ([SyntaxError], as [JSON.parse] throws it); the
    store file keeps its text; no file other than the lock file is
    touched, so nothing is appended, backed up or initialized again; and
    when the lock file can be deleted the files are exactly as before. *)
Theorem append_on_corrupted_store_fails (E : Env) (historyFilePath : jstring)
    (w : World) (record : value) (content : jstring) :
  files w !! historyFilePath = Some content →
  JSON_parse content = None →
  files w !! FileManager.lockFilePath historyFilePath = None →
  write_fault_at E (FileManager.lockFilePath historyFilePath) = None →
  read_fails E historyFilePath = false →
  ∃ w',
    FileManager.appendCommand E historyFilePath record w
      = (Throw SyntaxError, w') ∧
    files w' !! historyFilePath = Some content ∧
    (∀ p, p ≠ FileManager.lockFilePath historyFilePath →
          files w' !! p = files w !! p) ∧
    (∃ evs, trace w' = trace w ++ evs ∧
            Forall (touches_only (FileManager.lockFilePath historyFilePath)) evs) ∧
    (unlink_fails E (FileManager.lockFilePath historyFilePath) = false →
     files w' = files w).
Proof.
  intros Hfile Hparse Hlock Hwrite Hread.
  destruct (append_on_corrupted_store_throws E historyFilePath w record content
              Hfile Hparse)
    as (e & w' & Hrun & Hkept & Hframe & Htrace & Hnominal).
  destruct (Hnominal Hlock Hwrite Hread) as [-> Hfiles].
  by exists w'.
Qed.

Lemma append_on_corrupted_store_fails_witness :
  ∃ w',
    FileManager.appendCommand Examples.reliable_env Examples.store_path
      (value_of_record Examples.git_status)
      (Examples.world_with Examples.garbage_text)
    = (Throw SyntaxError, w') ∧
    files w' = files (Examples.world_with Examples.garbage_text).
Proof.
  destruct (append_on_corrupted_store_fails Examples.reliable_env
              Examples.store_path (Examples.world_with Examples.garbage_text)
              (value_of_record Examples.git_status) Examples.garbage_text)
    as (w' & Hrun & _ & _ & _ & Hfiles);
    [reflexivity | vm_compute; reflexivity | reflexivity | reflexivity
    | reflexivity |].
  exists w'. split; [exact Hrun | apply Hfiles; reflexivity].
Defined.

(** C5, as stated, fails: next to a store whose lock file another writer
    left behind, [appendCommand] gives up with the timeout error and the
    lock file is still there when it returns. *)
Lemma append_leaves_foreign_lock :
  ∃ w',
    FileManager.appendCommand Examples.reliable_env Examples.store_path
      (value_of_record Examples.git_status) Examples.world_with_stale_lock
    = (Throw LockTimeout, w') ∧
    is_Some (files w' !! FileManager.lockFilePath Examples.store_path).
Proof.
  eexists. split.
  - unfold FileManager.appendCommand. unfold bind at 1.
    rewrite acquireLock_held; [reflexivity|].
    vm_compute. eauto.
  - vm_compute. eauto.
Qed.

(** C5, amended: when no lock file and no temporary file are there at the
    call, deleting the two does not fail and the creation of the lock file is
    not torn, then after [appendCommand] returns, with success or with any
    failure (of the read, the decoding, the write or the rename), neither
    the temporary file nor the lock file is there. *)
Theorem append_leaves_no_temp_no_lock (E : Env) (historyFilePath : jstring)
    (w : World) (record : value) :
  files w !! FileManager.lockFilePath historyFilePath = None →
  files w !! (historyFilePath ++ SUFFIX_TMP) = None →
  unlink_fails E (FileManager.lockFilePath historyFilePath) = false →
  unlink_fails E (historyFilePath ++ SUFFIX_TMP) = false →
  (∀ n, write_fault_at E (FileManager.lockFilePath historyFilePath)
        ≠ Some (WriteTorn n)) →
  ∃ r w',
    FileManager.appendCommand E historyFilePath record w = (r, w') ∧
    files w' !! FileManager.lockFilePath historyFilePath = None ∧
    files w' !! (historyFilePath ++ SUFFIX_TMP) = None.
Proof.
  intros Hlock Htmp Hunlock Huntmp Htorn.
  pose proof (tmp_ne_lock historyFilePath) as Hne.
  set (lockPath := FileManager.lockFilePath historyFilePath) in *.
  unfold FileManager.appendCommand. unfold bind at 1.
  rewrite acquireLock_free by done. fold lockPath.
  destruct (write_fault_at E lockPath) as [[|n]|] eqn:Hwrite.
  - eexists _, _. split; [done|]. done.
  - by destruct (Htorn n).
  - set (w1 := set_files w _ _).
    destruct (append_body_frame E historyFilePath record w1)
      as (r & w2 & Hbody & _ & _ & Hclean).
    rewrite (try_finally_release E historyFilePath _ w1 w2 r) by done.
    eexists _, _. split; [done|].
    split; [by apply released_unlocked|].
    rewrite released_frame by done.
    apply Hclean; [done|]. unfold w1. simpl. by rewrite lookup_insert_ne.
Qed.

Lemma append_leaves_no_temp_no_lock_witness :
  ∃ r w',
    FileManager.appendCommand Examples.reliable_env Examples.store_path
      (value_of_record Examples.git_status)
      (Examples.world_with Examples.garbage_text) = (r, w') ∧
    files w' !! FileManager.lockFilePath Examples.store_path = None ∧
    files w' !! (Examples.store_path ++ SUFFIX_TMP) = None.
Proof.
  apply append_leaves_no_temp_no_lock;
    [reflexivity | reflexivity | reflexivity | reflexivity | intros n; discriminate].
Defined.

(** ** The round trip through the store *)

Lemma value_of_record_plain (r : CommandRecord) :
  plain (value_of_record r) = true.
Proof. destruct r as [ts u c e d [n|]]; by vm_compute. Qed.

Lemma history_document_plain (items : list value) :
  forallb plain items = true → plain (history_document items) = true.
Proof. intros H. cbn. rewrite H. by vm_compute. Qed.

(** Appending records one after the other to a store that holds [stored]
    leaves a store that holds [stored ++ records]. *)
Lemma appendAll_stores (E : Env) (historyFilePath : jstring)
    (records stored : list value) (w : World) (text : jstring) :
  reliable E historyFilePath →
  forallb plain stored = true → forallb plain records = true →
  files w !! FileManager.lockFilePath historyFilePath = None →
  files w !! historyFilePath = Some text →
  JSON_stringify (history_document stored) = Some text →
  ∃ w' text',
    appendAll E historyFilePath records w = (Ok tt, w') ∧
    files w' !! FileManager.lockFilePath historyFilePath = None ∧
    files w' !! historyFilePath = Some text' ∧
    JSON_stringify (history_document (stored ++ records)) = Some text'.
Proof.
  intros Hrel. revert stored w text.
  induction records as [|record records IH];
    intros stored w text Hstored Hrecords Hlock Hfile Htext.
  { exists w, text. by rewrite app_nil_r. }
  cbn [forallb] in Hrecords. apply andb_true_iff in Hrecords as [Hrecord Hrecords].
  assert (forallb plain (stored ++ [record]) = true) as Hstored'.
  { rewrite forallb_app, Hstored. cbn. by rewrite Hrecord. }
  destruct (JsonFacts.JSON_roundtrip (history_document stored)
              (history_document_plain _ Hstored)) as (t & Ht & Hparse).
  assert (t = text) as -> by congruence.
  destruct (JsonFacts.JSON_roundtrip (history_document (stored ++ [record]))
              (history_document_plain _ Hstored')) as (text' & Htext' & _).
  destruct (appendCommand_stores E historyFilePath w stored record text text')
    as (w1 & Hrun & Hlock1 & Hfile1); try done.
  destruct (IH (stored ++ [record]) w1 text') as (w' & text'' & Hrest & ? & ? & Hdoc);
    try done.
  exists w', text''. cbn [appendAll]. unfold bind. rewrite Hrun.
  rewrite <- app_assoc in Hdoc. done.
Qed.

(** C1: take a store that [initializeHistoryFile] has just set up, with no
    lock file around and no failing file operation.  Appending any sequence
    of N records in order succeeds, and [readHistory] without a limit then
    returns exactly these N records, in the same order. *)
Theorem append_then_read_round_trip (E : Env) (historyFilePath : jstring)
    (force : bool) (w w0 : World) (records : list CommandRecord) :
  FileManager.initializeHistoryFile E historyFilePath force w = (Ok tt, w0) →
  files w !! FileManager.lockFilePath historyFilePath = None →
  reliable E historyFilePath →
  ∃ w',
    appendAll E historyFilePath (List.map value_of_record records) w0
      = (Ok tt, w') ∧
    FileManager.readHistory E historyFilePath None w'
      = (Ok (VArr (List.map value_of_record records)), w').
Proof.
  intros Hinit Hlock Hrel.
  destruct (initializeHistoryFile_success E historyFilePath force w w0 Hinit)
    as (text & Htext & Hfile & Hlock0).
  rewrite Hlock in Hlock0.
  assert (forallb plain (List.map value_of_record records) = true) as Hplain.
  { apply forallb_forall. intros v (r & <- & _)%in_map_iff.
    apply value_of_record_plain. }
  destruct (appendAll_stores E historyFilePath (List.map value_of_record records)
              [] w0 text) as (w' & text' & Hrun & _ & Hfile' & Htext');
    try done.
  exists w'. split; [done|].
  destruct (JsonFacts.JSON_roundtrip
              (history_document (List.map value_of_record records))
              (history_document_plain _ Hplain)) as (t & Ht & Hparse).
  assert (t = text') as -> by (cbn [app] in Htext'; congruence).
  destruct Hrel as (_ & _ & Hread & _).
  by rewrite (readHistory_decoded E historyFilePath w' text'
                [(K_history, VArr (List.map value_of_record records))]).
Qed.

Lemma append_then_read_round_trip_witness :
  ∃ w',
    appendAll Examples.reliable_env Examples.store_path
      (List.map value_of_record
         [Examples.npm_install; Examples.git_status; Examples.npm_run_build])
      (snd (FileManager.initializeHistoryFile Examples.reliable_env
              Examples.store_path false Examples.empty_world))
      = (Ok tt, w') ∧
    FileManager.readHistory Examples.reliable_env Examples.store_path None w'
      = (Ok (VArr Examples.three_records), w').
Proof.
  apply (append_then_read_round_trip Examples.reliable_env Examples.store_path
           false Examples.empty_world);
    [vm_compute; reflexivity | reflexivity | by repeat split].
Defined.

(** ** The query layer *)

Module QueryFacts.

Local Open Scope N_scope.

(** *** White space and case *)

Lemma trimStart_nil (s : jstring) :
  trimStart s = [] ↔ forallb is_space s = true.
Proof.
  induction s as [|c s IH]; [done|]. simpl.
  destruct (is_space c); [exact IH|]. split; done.
Qed.

Lemma trimStart_head (s : jstring) :
  match trimStart s with
  | c :: _ => is_space c = false
  | [] => True
  end.
Proof.
  induction s as [|c s IH]; [done|]. simpl.
  destruct (is_space c) eqn:Hc; [exact IH | exact Hc].
Qed.

(** [filter.trim().length === 0] holds exactly for the blank strings. *)
Lemma trim_blank (s : jstring) :
  (length (trim s) =? 0)%nat = blank s.
Proof.
  unfold trim, trimEnd, blank.
  destruct (forallb is_space s) eqn:Hs.
  - apply trimStart_nil in Hs. by rewrite Hs.
  - pose proof (trimStart_head s) as Hhead.
    destruct (trimStart s) as [|c t] eqn:Ht.
    { apply trimStart_nil in Ht. congruence. }
    destruct (trimStart (rev (c :: t))) as [|d u] eqn:Hu.
    + apply trimStart_nil in Hu. rewrite forallb_forall in Hu.
      rewrite (Hu c) in Hhead; [done|]. apply in_rev. rewrite rev_involutive.
      by left.
    + rewrite length_rev. done.
Qed.

(** The guard of [filterCommands]. *)
Lemma filter_guard (needle : jstring) :
  (match needle with [] => true | _ => false end)
  || (length (trim needle) =? 0)%nat = blank needle.
Proof. rewrite trim_blank. by destruct needle. Qed.

Ltac not_space :=
  unfold is_space;
  repeat (apply orb_false_intro);
  first [ apply N.eqb_neq; lia
        | apply andb_false_iff; left; apply N.leb_gt; lia
        | apply andb_false_iff; right; apply N.leb_gt; lia ].

(** Letters, digits and the other units between U+0021 and U+167F, but for
    U+00A0, are no white space. *)
Lemma is_space_false (c : N) :
  33 <= c <= 159 ∨ 161 <= c <= 5759 → is_space c = false.
Proof. intros [[? ?]|[? ?]]; not_space. Qed.

Lemma lower_unit_cases (c : N) :
  lower_unit c = c ∨
  lower_unit c = c + 32 ∧ (65 <= c <= 90 ∨ 192 <= c <= 222).
Proof.
  unfold lower_unit.
  destruct (N.leb_spec 65 c), (N.leb_spec c 90); cbn [andb]; try (right; lia);
    destruct (N.leb_spec 192 c), (N.leb_spec c 222), (N.eqb_spec c 215);
    cbn [andb negb]; try (right; lia); by left.
Qed.







Lemma ascii_unit_round_trip (c : N) :
  c < 128 → List.map lower_unit (upper_unit c) = [lower_unit c].
Proof.
  intros Hc. unfold upper_unit.
  destruct (N.leb_spec 97 c), (N.leb_spec c 122); cbn [andb map];
    [ f_equal; unfold lower_unit | | | ];
    repeat match goal with
           | |- context [N.leb ?a ?b] => destruct (N.leb_spec a b); try lia
           | |- context [N.eqb ?a ?b] => destruct (N.eqb_spec a b); try lia
           end; cbn [andb negb]; done || lia.
Qed.

(** On ASCII text, upper-casing and then lower-casing is lower-casing. *)
Lemma ascii_case_round_trip (s : jstring) :
  Forall (λ c, c < 128) s →
  toLowerCase (toUpperCase s) = toLowerCase s.
Proof.
  unfold toLowerCase, toUpperCase.
  induction 1 as [|c s Hc _ IH]; [done|].
  cbn [flat_map map]. by rewrite List.map_app, IH, ascii_unit_round_trip.
Qed.

(** *** Searching *)



End QueryFacts.

(** *** Filtering *)




(** Lower-casing keeps a text within Latin-1. *)
Lemma toLowerCase_latin1 (s : jstring) : latin1 s → latin1 (toLowerCase s).
Proof.
  unfold latin1, toLowerCase. intros Hs. apply Forall_fmap.
  eapply Forall_impl; [exact Hs|]. intros c Hc. simpl in *.
  destruct (QueryFacts.lower_unit_cases c) as [Heq|[Heq Hrange]];
    rewrite Heq; lia.
Qed.





(** *** Formatting *)

Lemma Math_max_snoc (l : list nat) (k : nat) :
  Math_max (l ++ [k]) = Nat.max k (max_list l).
Proof. induction l as [|x l IH]; simpl in *; lia. Qed.

Lemma padEnd_pad_to (s : jstring) (width : nat) :
  padEnd s width = pad_to width s.
Proof.
  unfold padEnd, pad_to, repeat_unit.
  destruct (Nat.leb_spec width (length s)) as [Hle|_]; [|done].
  replace (width - length s)%nat with 0%nat by lia. by rewrite app_nil_r.
Qed.

Lemma column_width_greatest (records : list CommandRecord) (c : column) :
  greatest (column_width records c)
           (length (fst c) :: List.map (λ r, length (snd c r)) records).
Proof.
  unfold column_width.
  set (values := List.map (λ r, length (snd c r)) records).
  set (label := length (fst c)).
  assert (Nat.max label (max_list values) = max_list (label :: values))
    as -> by done.
  split; [by apply max_list_elem_of|]. intros x. apply max_list_elem_of_le.
Qed.

Lemma length_pad_to (width : nat) (text : jstring) :
  (length text <= width)%nat → length (pad_to width text) = width.
Proof.
  intros Hle. unfold pad_to. rewrite length_app, repeat_length. lia.
Qed.

(** C7, as stated, fails: with the user "alice" the last rule of the
    separator row has four dashes, not the five a column of the width of
    its longest value would have, so the table is not the one in which all
    five columns are aligned. *)
Lemma format_user_column_not_aligned :
  HistoryManager.formatForDisplay [Examples.npm_install]
  ≠ table_all_aligned [Examples.npm_install].
Proof.
  intros H. apply (f_equal length) in H. vm_compute in H. discriminate.
Qed.

(** C7, amended: for a non-empty list of records, [formatForDisplay] gives
    the header row, the separator row and one row per record in input order,
    joined by newlines, with the columns Timestamp, Command, Exit Code,
    Directory, User in this order, cells joined by " | " and rules by "-+-".
    Each of the first four columns has as width the greatest of the length
    of its label and the lengths of its values, its cells are padded with
    spaces to exactly that width and its rule has that many dashes.  The
    last column, User, is printed as it is, over a rule of four dashes. *)
Theorem format_table_layout (records : list CommandRecord) :
  records ≠ [] →
  HistoryManager.formatForDisplay records = table_last_plain records ∧
  ∀ c, c ∈ [column_Timestamp; column_Command; column_ExitCode; column_Directory] →
    greatest (column_width records c)
             (length (fst c) :: List.map (λ r, length (snd c r)) records) ∧
    length (pad_to (column_width records c) (fst c)) = column_width records c ∧
    ∀ r, r ∈ records →
         length (pad_to (column_width records c) (snd c r))
         = column_width records c.
Proof.
  intros Hrecords. split.
  - unfold HistoryManager.formatForDisplay.
    replace (length records =? 0)%nat with false by (by destruct records).
    cbv zeta.
    rewrite !Math_max_snoc, !padEnd_pad_to.
    unfold table_last_plain, table. cbn [List.map app fst snd].
    unfold column_width. cbn [fst snd].
    f_equal. f_equal. f_equal.
    apply List.map_ext. intros r'. by rewrite !padEnd_pad_to.
  - intros c _.
    pose proof (column_width_greatest records c) as [Hin Hmax].
    split; [done|].
    split.
    + apply length_pad_to, Hmax. by left.
    + intros r Hr. apply length_pad_to, Hmax. right.
      apply list_elem_of_In, in_map_iff. exists r. split; [done|].
      by apply list_elem_of_In.
Qed.

Lemma format_table_layout_witness :
  HistoryManager.formatForDisplay [Examples.npm_install; Examples.git_status]
  = table_last_plain [Examples.npm_install; Examples.git_status].
Proof.
  apply (format_table_layout [Examples.npm_install; Examples.git_status]).
  discriminate.
Defined.

(** ** The capture path *)

Section Capture.

Variable E : Env.
Variable historyFilePath : jstring.

(** The record [captureCommand] builds. *)
Abbreviation captured w command exitCode cwd :=
  (VObj [ (K_timestamp, VStr (toISOString E (clock w)));
          (K_user, VStr (username E));
          (K_command, command);
          (K_exit_code, exitCode);
          (K_cwd, cwd) ]).

Lemma check_required_pure (members : list (jstring * value))
    (fields : list jstring) (w : World) :
  ∃ r, SessionManager.check_required (VObj members) fields w = (r, w).
Proof.
  induction fields as [|field fields IH]; [by eexists|].
  cbn [SessionManager.check_required]. unfold bind, get_member, ret.
  destruct (obj_get members field); (exact IH || by eexists).
Qed.

(** Validation reads the record only. *)
Lemma validateCommandRecord_pure (members : list (jstring * value)) (w : World) :
  ∃ r, SessionManager.validateCommandRecord (VObj members) w = (r, w).
Proof.
  unfold SessionManager.validateCommandRecord. unfold bind at 1.
  destruct (check_required_pure members SessionManager.requiredFields w) as [r ->].
  destruct r as [[]|e]; [|by eexists].
  unfold bind, get_member, ret.
  destruct (SessionManager.isValidISO8601 _); cbn [negb]; [|by eexists].
  destruct (typeof (obj_get members K_exit_code)); by eexists.
Qed.

(** A record that fails validation makes [captureCommand] throw before
    the store is touched: the world is the one it started in. *)
Lemma captureCommand_rejects (command exitCode cwd : value) (w : World) (e : exn) :
  SessionManager.validateCommandRecord (captured w command exitCode cwd) w
    = (Throw e, w) →
  SessionManager.captureCommand E historyFilePath command exitCode cwd w
    = (Throw e, w).
Proof.
  intros Hvalid. unfold SessionManager.captureCommand, bind, Date_now.
  by rewrite Hvalid.
Qed.

(** What validation lets through: the five fields are neither [undefined]
    nor [null], the timestamp has the ISO-8601 shape and the exit code has
    the type number. *)
Lemma validateCommandRecord_accepts (members : list (jstring * value)) (w w' : World) :
  SessionManager.validateCommandRecord (VObj members) w = (Ok tt, w') →
  Forall (λ field, obj_get members field ≠ VUndefined
                   ∧ obj_get members field ≠ VNull)
         SessionManager.requiredFields ∧
  SessionManager.isValidISO8601 (ToString (obj_get members K_timestamp)) = true ∧
  typeof (obj_get members K_exit_code) = TNumber.
Proof.
  unfold SessionManager.validateCommandRecord. unfold bind at 1.
  assert (∀ fields r w0,
            SessionManager.check_required (VObj members) fields w = (r, w0) →
            r = Ok tt →
            Forall (λ field, obj_get members field ≠ VUndefined
                             ∧ obj_get members field ≠ VNull) fields) as Hloop.
  { induction fields as [|field fields IH]; intros r w0 Hrun Hr; [constructor|].
    cbn [SessionManager.check_required] in Hrun.
    unfold bind, get_member in Hrun. unfold ret at 1 in Hrun.
    destruct (obj_get members field) eqn:Hfield;
      try (injection Hrun as <- _; done);
      (constructor; [by rewrite Hfield | by eapply IH]). }
  destruct (SessionManager.check_required _ _ w) as [r w0] eqn:Hrun.
  destruct r as [[]|e]; [|done].
  specialize (Hloop _ _ _ Hrun eq_refl).
  unfold bind, get_member. unfold ret at 1.
  destruct (SessionManager.isValidISO8601 _) eqn:Hts; [|done]. cbn [negb].
  unfold ret at 1.
  destruct (typeof (obj_get members K_exit_code)) eqn:Htype; try done.
Qed.

(** Every record [captureCommand] hands to the store passed validation. *)
Lemma captureCommand_validated (command exitCode cwd : value) (w w' : World)
    (record : value) :
  SessionManager.captureCommand E historyFilePath command exitCode cwd w
    = (Ok record, w') →
  record = captured w command exitCode cwd ∧
  command ≠ VUndefined ∧ command ≠ VNull ∧
  exitCode ≠ VUndefined ∧ exitCode ≠ VNull ∧ typeof exitCode = TNumber ∧
  cwd ≠ VUndefined ∧ cwd ≠ VNull ∧
  SessionManager.isValidISO8601 (toISOString E (clock w)) = true.
Proof.
  unfold SessionManager.captureCommand. unfold bind at 1. unfold Date_now.
  unfold bind at 1.
  destruct (validateCommandRecord_pure
              [ (K_timestamp, VStr (toISOString E (clock w)));
                (K_user, VStr (username E));
                (K_command, command);
                (K_exit_code, exitCode);
                (K_cwd, cwd) ] w) as [r Hvalid].
  rewrite Hvalid. destruct r as [[]|e]; [|done].
  apply validateCommandRecord_accepts in Hvalid as (Hfields & Hts & Htype).
  unfold bind.
  destruct (FileManager.appendCommand _ _ _ w) as [[[]|e] w1]; [|done].
  intros [= <- _]. split; [done|].
  unfold SessionManager.requiredFields in Hfields.
  repeat match goal with
         | H : Forall _ (_ :: _) |- _ => apply Forall_cons in H as [[? ?] H]
         end.
  vm_compute obj_get in *. done.
Qed.

End Capture.

(** C9, at the input [captureCommand("ls", NaN, "/tmp")] on a fresh store:
    the record passes validation, since [typeof NaN] is number, and is
    appended; [JSON.stringify] writes a non-finite number as [null], so the
    record the store then holds has the exit code [null]. *)
Lemma capture_NaN_persists_null :
  ∃ record w' members,
    (FileManager.initializeHistoryFile Examples.reliable_env Examples.store_path
       false ;;
     SessionManager.captureCommand Examples.reliable_env Examples.store_path
       (VStr (js "ls")) (VNum NaN) (VStr (js "/tmp"))) Examples.empty_world
      = (Ok record, w') ∧
    FileManager.readHistory Examples.reliable_env Examples.store_path None w'
      = (Ok (VArr [VObj members]), w') ∧
    obj_get members K_exit_code = VNull.
Proof.
  eexists _, _, _. split; [by vm_compute|]. split; by vm_compute.
Qed.


(** * Further properties of the store *)

Section StoreSteps.

Variable E : Env.
Variable historyFilePath : jstring.

Abbreviation lockPath := (FileManager.lockFilePath historyFilePath).
Abbreviation tempPath := (historyFilePath ++ SUFFIX_TMP).

(** [push_history] on a document that is an object with an array under
    [history]. *)
Lemma push_history_array (members : list (jstring * value)) (items : list value)
    (record : value) (w : World) :
  obj_get members K_history = VArr items →
  push_history (VObj members) record w
  = (Ok (VObj (obj_set members K_history (VArr (items ++ [record])))), w).
Proof.
  intros Hget. unfold push_history, bind, get_history, ret. by rewrite Hget.
Qed.

(** [push_history] on any other document. *)
Lemma push_history_other (doc record : value) (w : World) :
  (∀ members items, doc = VObj members → obj_get members K_history ≠ VArr items) →
  push_history doc record w = (Throw TypeError, w).
Proof.
  intros Hno. unfold push_history, bind, get_history, ret, throw.
  destruct doc as [| |b|n|s|items|members]; try done.
  destruct (obj_get members K_history) eqn:Hget; try done.
  by destruct (Hno members items).
Qed.

(** The document [appendCommand] loads. *)
Lemma load_loaded (w : World) (doc : value) :
  read_fails E historyFilePath = false →
  loaded historyFilePath w doc →
  (let! present := existsSync historyFilePath in
   if present then
     let! content := readFileSync E historyFilePath in
     parse content
   else ret empty_history) w = (Ok doc, w).
Proof.
  intros Hread Hdoc. rewrite load_run. unfold loaded in Hdoc.
  destruct (files w !! historyFilePath); [by rewrite Hread, Hdoc | by subst].
Qed.

(** The lock file, taken and given back, leaves the files as they were. *)
Lemma released_after_lock (w w1 : World) (holder : jstring) :
  files w !! lockPath = None →
  unlink_fails E lockPath = false →
  files w1 = <[lockPath := holder]> (files w) →
  files (released E historyFilePath w1) = files w.
Proof.
  intros Hlock Hunlink Hw1. unfold released.
  rewrite Hw1, lookup_insert_eq, Hunlink. simpl.
  by apply delete_insert_id.
Qed.

End StoreSteps.

(** ** Reading *)

(** X1: [readHistory] only reads.  Whatever the store file holds, whatever
    the limit and whichever operations fail, the call leaves the files, the
    clock and the log of mutations exactly as they were. *)
Theorem readHistory_never_writes (E : Env) (historyFilePath : jstring)
    (limit : option Z) (w : World) :
  ∃ r, FileManager.readHistory E historyFilePath limit w = (r, w).
Proof.
  unfold FileManager.readHistory. unfold bind at 1. rewrite existsSync_match.
  destruct (files w !! historyFilePath) as [content|] eqn:Hfile; cbn [negb];
    [|by eexists].
  unfold try_catch, bind, readFileSync, parse, throw, ret.
  destruct (read_fails E historyFilePath); [by eexists|].
  rewrite Hfile.
  destruct (JSON_parse content) as [doc|]; [|by eexists].
  assert (∃ r, get_history doc w = (r, w)) as [r Hr]
    by (unfold get_history, ret, throw; destruct doc; by eexists).
  assert (∀ h start, ∃ r', slice_value h start w = (r', w)) as Hslice
    by (intros h start; unfold slice_value, ret, throw; destruct h; by eexists).
  destruct limit as [l|]; [|rewrite Hr; destruct r; by eexists].
  destruct (truthy_number l && (l >? 0));
    [|rewrite Hr; destruct r; by eexists].
  rewrite Hr. destruct r as [h|e]; [|by eexists].
  destruct (Hslice h (- l)) as [r' ->]. destruct r'; by eexists.
Qed.

(** X2: a store file whose text is not JSON makes [readHistory] fail, for
    every limit, with the error "Failed to read history file" around the
    [SyntaxError] of the decoder; nothing is repaired or moved aside. *)
Theorem readHistory_undecodable_fails (E : Env) (historyFilePath : jstring)
    (limit : option Z) (w : World) (content : jstring) :
  files w !! historyFilePath = Some content →
  read_fails E historyFilePath = false →
  JSON_parse content = None →
  FileManager.readHistory E historyFilePath limit w
  = (Throw (ReadFailed SyntaxError), w).
Proof.
  intros Hfile Hread Hparse.
  unfold FileManager.readHistory. unfold bind at 1. rewrite existsSync_match, Hfile.
  cbn [negb]. unfold try_catch, bind, readFileSync, parse, throw.
  by rewrite Hread, Hfile, Hparse.
Qed.

Lemma readHistory_undecodable_fails_witness :
  FileManager.readHistory Examples.reliable_env Examples.store_path (Some 5)
    (Examples.world_with Examples.garbage_text)
  = (Throw (ReadFailed SyntaxError), Examples.world_with Examples.garbage_text).
Proof.
  apply (readHistory_undecodable_fails Examples.reliable_env Examples.store_path
           (Some 5) (Examples.world_with Examples.garbage_text)
           Examples.garbage_text); reflexivity.
Defined.

(** X3: a limit that is not below the number of stored records returns all
    of them, in their stored order: the limit only ever cuts, it never
    pads and never fails. *)
Theorem readHistory_large_limit_returns_all (E : Env) (historyFilePath : jstring)
    (w : World) (content : jstring) (members : list (jstring * value))
    (records : list value) (L : Z) :
  files w !! historyFilePath = Some content →
  read_fails E historyFilePath = false →
  JSON_parse content = Some (VObj members) →
  obj_get members K_history = VArr records →
  0 < L → Z.of_nat (length records) <= L →
  FileManager.readHistory E historyFilePath (Some L) w = (Ok (VArr records), w).
Proof.
  intros Hfile Hread Hparse Hget HL Hlen.
  rewrite (readHistory_decoded E historyFilePath w content members) by done.
  unfold truthy_number.
  replace (negb (L =? 0) && (L >? 0)) with true by lia.
  rewrite Hget. unfold try_catch, slice_value, ret, slice.
  replace (- L <? 0) with true by lia.
  replace (Z.to_nat (Z.max (Z.of_nat (length records) + - L) 0)) with 0%nat by lia.
  done.
Qed.

Lemma readHistory_large_limit_returns_all_witness :
  FileManager.readHistory Examples.reliable_env Examples.store_path (Some 3)
    (Examples.world_with Examples.three_records_text)
  = (Ok (VArr Examples.three_records),
     Examples.world_with Examples.three_records_text).
Proof.
  apply (readHistory_large_limit_returns_all Examples.reliable_env
           Examples.store_path (Examples.world_with Examples.three_records_text)
           Examples.three_records_text [(K_history, VArr Examples.three_records)]
           Examples.three_records 3);
    [reflexivity | reflexivity | by vm_compute | reflexivity | lia
    | vm_compute; discriminate].
Defined.

(** X4: a store file that decodes to an object without a [history] member
    is not reported as damaged.  Without a positive limit [readHistory]
    returns [undefined], which is not a list of records; with a positive
    limit the same store makes it fail, with the [TypeError] of the
    [slice] it attempts. *)
Theorem readHistory_without_history_member (E : Env) (historyFilePath : jstring)
    (w : World) (content : jstring) (members : list (jstring * value))
    (limit : option Z) :
  files w !! historyFilePath = Some content →
  read_fails E historyFilePath = false →
  JSON_parse content = Some (VObj members) →
  obj_get members K_history = VUndefined →
  FileManager.readHistory E historyFilePath limit w
  = (match limit with
     | Some l => if 0 <? l then Throw (ReadFailed TypeError) else Ok VUndefined
     | None => Ok VUndefined
     end, w).
Proof.
  intros Hfile Hread Hparse Hget.
  rewrite (readHistory_decoded E historyFilePath w content members) by done.
  rewrite Hget. destruct limit as [l|]; [|done].
  unfold truthy_number.
  destruct (0 <? l) eqn:Hl.
  - replace (negb (l =? 0) && (l >? 0)) with true by lia. done.
  - replace (negb (l =? 0) && (l >? 0)) with false by lia. done.
Qed.

Lemma readHistory_without_history_member_witness :
  FileManager.readHistory Examples.reliable_env Examples.store_path (Some 10)
    (Examples.world_with [123; 125]%N)
  = (Throw (ReadFailed TypeError), Examples.world_with [123; 125]%N).
Proof.
  apply (readHistory_without_history_member Examples.reliable_env
           Examples.store_path (Examples.world_with [123; 125]%N) [123; 125]%N []
           (Some 10)); reflexivity.
Defined.

(** ** Appending *)

Section Appending.

Variable E : Env.
Variable historyFilePath : jstring.

Abbreviation lockPath := (FileManager.lockFilePath historyFilePath).
Abbreviation tempPath := (historyFilePath ++ SUFFIX_TMP).

(** One append with nothing failing, on a document that has an array under
    [history]: the store file gets the text of the extended document, the
    temporary file is gone, and every other file is as it was. *)
Lemma appendCommand_writes (w : World) (members : list (jstring * value))
    (items : list value) (record : value) (text' : jstring) :
  reliable E historyFilePath →
  files w !! lockPath = None →
  loaded historyFilePath w (VObj members) →
  obj_get members K_history = VArr items →
  JSON_stringify (VObj (obj_set members K_history (VArr (items ++ [record]))))
    = Some text' →
  ∃ w',
    FileManager.appendCommand E historyFilePath record w = (Ok tt, w') ∧
    files w' = <[historyFilePath := text']> (delete tempPath (files w)).
Proof.
  intros (Hwl & Hul & Hrh & Hwt & Hrn) Hlock Hdoc Hget Htext'.
  pose proof (lock_ne_history historyFilePath) as Hlh.
  pose proof (tmp_ne_lock historyFilePath) as Htl.
  unfold FileManager.appendCommand. unfold bind at 1.
  rewrite acquireLock_free by done. rewrite Hwl.
  set (w1 := set_files w _ _).
  assert (loaded historyFilePath w1 (VObj members)) as Hdoc1.
  { unfold loaded in *. unfold w1. simpl. by rewrite lookup_insert_ne. }
  assert (FileManager.atomicWrite E historyFilePath
            (VObj (obj_set members K_history (VArr (items ++ [record])))) w1
          = (Ok tt,
             mkWorld (<[historyFilePath := text']> (delete tempPath (files w1)))
               (clock w1)
               (trace w1 ++ [Wrote tempPath text';
                             Renamed tempPath historyFilePath]))) as Hwrite
    by by apply atomicWrite_ok.
  set (w2 := mkWorld _ _ _) in Hwrite.
  rewrite (try_finally_release E historyFilePath _ w1 w2 (Ok tt)); last first.
  { unfold bind at 1. rewrite (load_loaded E historyFilePath w1 _ Hrh Hdoc1).
    unfold bind at 1. rewrite (push_history_array members items record w1 Hget).
    exact Hwrite. }
  eexists. split; [done|].
  unfold released, w2. simpl.
  rewrite lookup_insert_ne, lookup_delete_ne, lookup_insert_eq, Hul by done.
  simpl. apply map_eq. intros p.
  destruct (decide (p = lockPath)) as [->|Hpl].
  - rewrite lookup_delete_eq, lookup_insert_ne, lookup_delete_ne by done.
    done.
  - rewrite lookup_delete_ne by done.
    destruct (decide (p = historyFilePath)) as [->|Hph];
      [by rewrite !lookup_insert_eq|].
    rewrite !(lookup_insert_ne _ historyFilePath) by done.
    destruct (decide (p = tempPath)) as [->|Hpt];
      [by rewrite !lookup_delete_eq|].
    rewrite !lookup_delete_ne by done. by rewrite lookup_insert_ne.
Qed.

(** One append with nothing failing, on a document that has no array under
    [history]. *)
Lemma appendCommand_no_array (w : World) (doc record : value) :
  reliable E historyFilePath →
  files w !! lockPath = None →
  loaded historyFilePath w doc →
  (∀ members items, doc = VObj members → obj_get members K_history ≠ VArr items) →
  ∃ w',
    FileManager.appendCommand E historyFilePath record w = (Throw TypeError, w') ∧
    files w' = files w.
Proof.
  intros (Hwl & Hul & Hrh & Hwt & Hrn) Hlock Hdoc Hno.
  pose proof (lock_ne_history historyFilePath) as Hlh.
  unfold FileManager.appendCommand. unfold bind at 1.
  rewrite acquireLock_free by done. rewrite Hwl.
  set (w1 := set_files w _ _).
  assert (loaded historyFilePath w1 doc) as Hdoc1.
  { unfold loaded in *. unfold w1. simpl. by rewrite lookup_insert_ne. }
  rewrite (try_finally_release E historyFilePath _ w1 w1 (Throw TypeError));
    last first.
  { unfold bind at 1. rewrite (load_loaded E historyFilePath w1 _ Hrh Hdoc1).
    unfold bind at 1. by rewrite (push_history_other doc record w1 Hno). }
  eexists. split; [done|].
  by apply (released_after_lock E historyFilePath w w1 (N_toString (pid E))).
Qed.

End Appending.

(** *** Objects and plain values *)

Lemma obj_get_obj_set_eq (ms : list (jstring * value)) (k : jstring) (v : value) :
  obj_get (obj_set ms k v) k = v.
Proof.
  induction ms as [|[k0 x] ms IH]; simpl.
  - unfold jstring_eqb. by rewrite bool_decide_eq_true_2.
  - unfold jstring_eqb at 1. case_bool_decide as Hk; simpl.
    + unfold jstring_eqb. by rewrite bool_decide_eq_true_2.
    + unfold jstring_eqb at 1. by rewrite bool_decide_eq_false_2.
Qed.

Lemma obj_get_obj_set_ne (ms : list (jstring * value)) (k k' : jstring) (v : value) :
  k' ≠ k → obj_get (obj_set ms k v) k' = obj_get ms k'.
Proof.
  intros Hne. induction ms as [|[k0 x] ms IH]; simpl.
  - unfold jstring_eqb. by rewrite bool_decide_eq_false_2.
  - unfold jstring_eqb at 1. case_bool_decide as Hk; simpl.
    + subst k0. unfold jstring_eqb. by rewrite !bool_decide_eq_false_2.
    + by rewrite IH.
Qed.

(** The keys of an object after an assignment: as before when the key was
    there, with the new key last otherwise. *)
Lemma obj_set_keys (ms : list (jstring * value)) (k : jstring) (v : value) :
  List.map fst (obj_set ms k v)
  = if bool_decide (k ∈ List.map fst ms) then List.map fst ms
    else List.map fst ms ++ [k].
Proof.
  induction ms as [|[k0 x] ms IH]; cbn [obj_set List.map fst].
  - rewrite bool_decide_eq_false_2; [done|]. by intros ?%elem_of_nil.
  - unfold jstring_eqb. destruct (decide (k0 = k)) as [->|Hk].
    + rewrite (bool_decide_eq_true_2 (k = k)) by done. cbn [List.map fst].
      rewrite bool_decide_eq_true_2; [done|]. by left.
    + rewrite (bool_decide_eq_false_2 (k0 = k)) by done. cbn [List.map fst].
      rewrite IH. destruct (decide (k ∈ List.map fst ms)) as [Hin|Hin].
      * rewrite !bool_decide_eq_true_2; [done| by right | done].
      * rewrite !bool_decide_eq_false_2; [done| | done].
        intros [->|?]%elem_of_cons; done.
Qed.

Lemma obj_set_plain (ms : list (jstring * value)) (k : jstring) (v : value) :
  plain (VObj ms) = true → plain v = true → plain (VObj (obj_set ms k v)) = true.
Proof.
  cbn [plain]. intros [Hall Hdup%bool_decide_eq_true]%andb_true_iff Hv.
  apply andb_true_iff. split.
  - clear Hdup. induction ms as [|[k0 x] ms IH]; simpl in *.
    + by rewrite Hv.
    + apply andb_true_iff in Hall as [Hx Hall].
      destruct (jstring_eqb k0 k); simpl; [by rewrite Hv | by rewrite Hx, IH].
  - apply bool_decide_eq_true. rewrite obj_set_keys.
    case_bool_decide as Hin; [done|].
    apply NoDup_app. split; [done|]. split; [|apply NoDup_singleton].
    intros y Hy ->%list_elem_of_singleton. done.
Qed.

(** An array found in a plain object holds plain values. *)
Lemma obj_get_plain (ms : list (jstring * value)) (k : jstring) (items : list value) :
  plain (VObj ms) = true → obj_get ms k = VArr items → forallb plain items = true.
Proof.
  cbn [plain]. intros [Hall _]%andb_true_iff.
  induction ms as [|[k0 x] ms IH]; simpl in *; [done|].
  apply andb_true_iff in Hall as [Hx Hall].
  destruct (jstring_eqb k0 k); [|by apply IH].
  intros ->. done.
Qed.

(** The document an append builds is plain when the one it loaded and the
    record are, so it is read back as it was written. *)
Lemma extended_document_plain (members : list (jstring * value))
    (items : list value) (record : value) :
  plain (VObj members) = true →
  obj_get members K_history = VArr items →
  plain record = true →
  plain (VObj (obj_set members K_history (VArr (items ++ [record])))) = true.
Proof.
  intros Hdoc Hget Hrecord. apply obj_set_plain; [done|].
  cbn [plain]. rewrite forallb_app, (obj_get_plain members K_history items) by done.
  simpl. by rewrite Hrecord.
Qed.

(** Reading a store file that holds the text of a plain document. *)
Lemma readHistory_written (E : Env) (historyFilePath : jstring) (w : World)
    (text : jstring) (members : list (jstring * value)) :
  read_fails E historyFilePath = false →
  files w !! historyFilePath = Some text →
  JSON_parse text = Some (VObj members) →
  FileManager.readHistory E historyFilePath None w
  = (Ok (obj_get members K_history), w).
Proof.
  intros Hread Hfile Hparse.
  by rewrite (readHistory_decoded E historyFilePath w text members).
Qed.

(** X5: an append that fails, for whatever reason (the lock, the read, the
    decoding, the write, the rename), leaves the store file exactly as it
    was: there, with the same text, or not there. *)
Theorem appendCommand_failure_keeps_store (E : Env) (historyFilePath : jstring)
    (record : value) (w w' : World) (e : exn) :
  FileManager.appendCommand E historyFilePath record w = (Throw e, w') →
  files w' !! historyFilePath = files w !! historyFilePath.
Proof.
  pose proof (lock_ne_history historyFilePath) as Hlh.
  unfold FileManager.appendCommand. unfold bind at 1.
  destruct (files w !! FileManager.lockFilePath historyFilePath)
    as [holder|] eqn:Hlock.
  { rewrite acquireLock_held by (rewrite Hlock; eauto). by intros [= _ <-]. }
  rewrite acquireLock_free by done.
  destruct (write_fault_at E (FileManager.lockFilePath historyFilePath))
    as [[|n]|].
  - by intros [= _ <-].
  - intros [= _ <-]. simpl. by rewrite lookup_insert_ne.
  - set (w1 := set_files w _ _).
    destruct (append_body_frame E historyFilePath record w1)
      as (r & w2 & Hbody & _ & Hres & _).
    rewrite (try_finally_release E historyFilePath _ _ _ _ Hbody).
    intros [= -> <-]. rewrite released_frame by auto.
    destruct Hres as [[_ ->]|[=]].
    unfold w1. simpl. by rewrite lookup_insert_ne.
Qed.

Lemma appendCommand_failure_keeps_store_witness :
  files (snd (FileManager.appendCommand Examples.reliable_env Examples.store_path
                (value_of_record Examples.git_status)
                Examples.world_with_stale_lock)) !! Examples.store_path
  = files Examples.world_with_stale_lock !! Examples.store_path.
Proof.
  apply (appendCommand_failure_keeps_store Examples.reliable_env
           Examples.store_path (value_of_record Examples.git_status)
           Examples.world_with_stale_lock
           (snd (FileManager.appendCommand Examples.reliable_env
                   Examples.store_path (value_of_record Examples.git_status)
                   Examples.world_with_stale_lock))
           LockTimeout).
  by vm_compute.
Defined.

(** An append with nothing failing, and the read after it. *)
Lemma appendCommand_read_back (E : Env) (historyFilePath : jstring)
    (w : World) (text : jstring) (members : list (jstring * value))
    (items : list value) (record : value) :
  reliable E historyFilePath →
  files w !! FileManager.lockFilePath historyFilePath = None →
  files w !! historyFilePath = Some text →
  JSON_parse text = Some (VObj members) →
  plain (VObj members) = true →
  obj_get members K_history = VArr items →
  plain record = true →
  ∃ w' text' members',
    FileManager.appendCommand E historyFilePath record w = (Ok tt, w') ∧
    files w' = <[historyFilePath := text']> (delete (historyFilePath ++ SUFFIX_TMP) (files w)) ∧
    JSON_parse text' = Some (VObj members') ∧
    (∀ key, key ≠ K_history → obj_get members' key = obj_get members key) ∧
    FileManager.readHistory E historyFilePath None w'
      = (Ok (VArr (items ++ [record])), w').
Proof.
  intros Hrel Hlock Hfile Hparse Hplain Hget Hrecord.
  destruct (JsonFacts.JSON_roundtrip _
              (extended_document_plain members items record Hplain Hget Hrecord))
    as (text' & Htext' & Hback).
  destruct (appendCommand_writes E historyFilePath w members items record text')
    as (w' & Hrun & Hfiles); try done.
  { unfold loaded. by rewrite Hfile. }
  exists w', text', (obj_set members K_history (VArr (items ++ [record]))).
  split; [done|]. split; [done|]. split; [done|].
  split; [intros key Hkey; by apply obj_get_obj_set_ne|].
  rewrite (readHistory_written E historyFilePath w' text'
             (obj_set members K_history (VArr (items ++ [record])))); try done.
  - by rewrite obj_get_obj_set_eq.
  - apply Hrel.
  - rewrite Hfiles. apply lookup_insert_eq.
Qed.

(** X6: an append with nothing failing, on a store whose file holds any
    plain document with a list under [history]: the record goes to the end
    of that list, every other member of the document is kept, and a read
    returns the old records followed by the new one. *)
Theorem appendCommand_extends_document (E : Env) (historyFilePath : jstring)
    (w : World) (text : jstring) (members : list (jstring * value))
    (items : list value) (record : value) :
  reliable E historyFilePath →
  files w !! FileManager.lockFilePath historyFilePath = None →
  files w !! historyFilePath = Some text →
  JSON_parse text = Some (VObj members) →
  plain (VObj members) = true →
  obj_get members K_history = VArr items →
  plain record = true →
  ∃ w' text' members',
    FileManager.appendCommand E historyFilePath record w = (Ok tt, w') ∧
    files w' = <[historyFilePath := text']> (delete (historyFilePath ++ SUFFIX_TMP) (files w)) ∧
    JSON_parse text' = Some (VObj members') ∧
    (∀ key, key ≠ K_history → obj_get members' key = obj_get members key) ∧
    FileManager.readHistory E historyFilePath None w'
      = (Ok (VArr (items ++ [record])), w').
Proof. apply appendCommand_read_back. Qed.

Lemma appendCommand_extends_document_witness :
  ∃ w' text' members',
    FileManager.appendCommand Examples.reliable_env Examples.store_path
      (value_of_record Examples.git_status)
      (Examples.world_with Faults.versioned_text) = (Ok tt, w') ∧
    files w'
      = <[Examples.store_path := text']>
          (delete (Examples.store_path ++ SUFFIX_TMP)
             (files (Examples.world_with Faults.versioned_text))) ∧
    JSON_parse text' = Some (VObj members') ∧
    (∀ key, key ≠ K_history →
       obj_get members' key
       = obj_get [(js "version", VNum (Int 1));
                  (K_history, VArr [value_of_record Examples.npm_install])] key) ∧
    FileManager.readHistory Examples.reliable_env Examples.store_path None w'
      = (Ok (VArr ([value_of_record Examples.npm_install]
                   ++ [value_of_record Examples.git_status])), w').
Proof.
  apply (appendCommand_extends_document Examples.reliable_env Examples.store_path
           (Examples.world_with Faults.versioned_text)
           Faults.versioned_text
           [(js "version", VNum (Int 1));
            (K_history, VArr [value_of_record Examples.npm_install])]
           [value_of_record Examples.npm_install]
           (value_of_record Examples.git_status)).
  - repeat split; reflexivity.
  - reflexivity.
  - reflexivity.
  - by vm_compute.
  - by vm_compute.
  - by vm_compute.
  - by vm_compute.
Defined.

(** X7: the store need not be initialized before the first append.  When
    there is no store file and nothing fails, [appendCommand] creates it,
    and a read returns the one record. *)
Theorem appendCommand_creates_store (E : Env) (historyFilePath : jstring)
    (w : World) (record : value) :
  reliable E historyFilePath →
  files w !! FileManager.lockFilePath historyFilePath = None →
  files w !! historyFilePath = None →
  plain record = true →
  ∃ w' text',
    FileManager.appendCommand E historyFilePath record w = (Ok tt, w') ∧
    files w' = <[historyFilePath := text']> (delete (historyFilePath ++ SUFFIX_TMP) (files w)) ∧
    FileManager.readHistory E historyFilePath None w' = (Ok (VArr [record]), w').
Proof.
  intros Hrel Hlock Hfile Hrecord.
  assert (obj_get [(K_history, VArr [])] K_history = VArr []) as Hget by done.
  destruct (JsonFacts.JSON_roundtrip _
              (extended_document_plain [(K_history, VArr [])] [] record
                 eq_refl Hget Hrecord))
    as (text' & Htext' & Hback).
  destruct (appendCommand_writes E historyFilePath w [(K_history, VArr [])] []
              record text')
    as (w' & Hrun & Hfiles); try done.
  { unfold loaded. by rewrite Hfile. }
  exists w', text'. split; [done|]. split; [done|].
  rewrite (readHistory_written E historyFilePath w' text'
             (obj_set [(K_history, VArr [])] K_history (VArr ([] ++ [record]))));
    try done.
  - apply Hrel.
  - rewrite Hfiles. apply lookup_insert_eq.
Qed.

Lemma appendCommand_creates_store_witness :
  ∃ w' text',
    FileManager.appendCommand Examples.reliable_env Examples.store_path
      (value_of_record Examples.npm_install) Examples.empty_world = (Ok tt, w') ∧
    files w'
      = <[Examples.store_path := text']>
          (delete (Examples.store_path ++ SUFFIX_TMP) (files Examples.empty_world)) ∧
    FileManager.readHistory Examples.reliable_env Examples.store_path None w'
      = (Ok (VArr [value_of_record Examples.npm_install]), w').
Proof.
  apply (appendCommand_creates_store Examples.reliable_env Examples.store_path
           Examples.empty_world (value_of_record Examples.npm_install)).
  - repeat split; reflexivity.
  - reflexivity.
  - reflexivity.
  - by vm_compute.
Defined.

(** X8: a store file that decodes, but not to an object with a list under
    [history] (the member is missing, or is not an array, or the document
    is not an object at all), makes [appendCommand] fail with a [TypeError]
    when nothing else fails; the files are then exactly as they were. *)
Theorem appendCommand_needs_history_list (E : Env) (historyFilePath : jstring)
    (w : World) (text : jstring) (doc record : value) :
  reliable E historyFilePath →
  files w !! FileManager.lockFilePath historyFilePath = None →
  files w !! historyFilePath = Some text →
  JSON_parse text = Some doc →
  (∀ members items, doc = VObj members → obj_get members K_history ≠ VArr items) →
  ∃ w',
    FileManager.appendCommand E historyFilePath record w = (Throw TypeError, w') ∧
    files w' = files w.
Proof.
  intros Hrel Hlock Hfile Hparse Hno.
  apply appendCommand_no_array with (doc := doc); try done.
  unfold loaded. by rewrite Hfile.
Qed.

Lemma appendCommand_needs_history_list_witness :
  ∃ w',
    FileManager.appendCommand Examples.reliable_env Examples.store_path
      (value_of_record Examples.npm_install) (Examples.world_with [123; 125]%N)
    = (Throw TypeError, w') ∧
    files w' = files (Examples.world_with [123; 125]%N).
Proof.
  apply (appendCommand_needs_history_list Examples.reliable_env
           Examples.store_path (Examples.world_with [123; 125]%N) [123; 125]%N
           (VObj []) (value_of_record Examples.npm_install)).
  - repeat split; reflexivity.
  - reflexivity.
  - reflexivity.
  - reflexivity.
  - intros members items [= <-]. discriminate.
Defined.

(** X9: while another writer's lock file is there, [appendCommand] polls
    every 10 ms and gives up with "Failed to acquire lock: timeout" once
    more than 5000 ms have passed, that is 5010 ms after the call; it has
    then read and written nothing. *)
Theorem appendCommand_lock_timeout (E : Env) (historyFilePath : jstring)
    (w : World) (record : value) :
  is_Some (files w !! FileManager.lockFilePath historyFilePath) →
  FileManager.appendCommand E historyFilePath record w
  = (Throw LockTimeout, mkWorld (files w) (clock w + 5010) (trace w)).
Proof.
  intros Hheld. unfold FileManager.appendCommand. unfold bind at 1.
  by rewrite acquireLock_held.
Qed.

Lemma appendCommand_lock_timeout_witness :
  FileManager.appendCommand Examples.reliable_env Examples.store_path
    (value_of_record Examples.git_status) Examples.world_with_stale_lock
  = (Throw LockTimeout,
     mkWorld (files Examples.world_with_stale_lock) 6010 []).
Proof.
  apply (appendCommand_lock_timeout Examples.reliable_env Examples.store_path
           Examples.world_with_stale_lock (value_of_record Examples.git_status)).
  vm_compute. eauto.
Defined.

(** ** Writing, backing up and initializing *)

Section Keeping.

Variable E : Env.
Variable historyFilePath : jstring.

Abbreviation backupPath w := (backupPath_at E historyFilePath w).

(** What [backupCorruptedFile] leaves of a store file that is there. *)
Lemma backupCorruptedFile_outcome (w w' : World) (r : Res unit) (content : jstring) :
  files w !! historyFilePath = Some content →
  FileManager.backupCorruptedFile E historyFilePath w = (r, w') →
  match r with
  | Ok _ =>
      files w' !! historyFilePath = None ∧ files w' !! backupPath w = Some content
  | Throw e =>
      files w' !! historyFilePath = Some content ∧ ∃ cause, e = BackupFailed cause
  end.
Proof.
  intros Hfile.
  pose proof (backup_ne_history historyFilePath
                (FileManager.replace_colon_dot (toISOString E (clock w)))) as Hne.
  unfold FileManager.backupCorruptedFile. unfold bind at 1.
  rewrite existsSync_match, Hfile. cbn [negb].
  unfold bind at 1, Date_now. unfold try_catch, bind, copyFileSync, throw.
  rewrite Hfile. fold (backupPath w) in *.
  destruct (copy_fault_at E historyFilePath (backupPath w)) as [[|n]|].
  - intros [= <- <-]. eauto.
  - intros [= <- <-]. simpl. rewrite lookup_insert_ne by done. eauto.
  - unfold unlinkSync. simpl.
    destruct (unlink_fails E historyFilePath).
    + intros [= <- <-]. simpl. rewrite lookup_insert_ne by done. eauto.
    + rewrite lookup_insert_ne, Hfile by done.
      intros [= <- <-]. simpl.
      rewrite lookup_delete_eq, lookup_delete_ne, lookup_insert_eq by done.
      done.
Qed.

(** What [initializeHistoryFile] leaves of a store file that is there. *)
Lemma initializeHistoryFile_outcome (force : bool) (w w' : World) (r : Res unit)
    (content : jstring) :
  files w !! historyFilePath = Some content →
  FileManager.initializeHistoryFile E historyFilePath force w = (r, w') →
  kept historyFilePath (backupPath w) content w' ∧
  (r = Ok tt → force = true ∧ files w' !! backupPath w = Some content).
Proof.
  intros Hfile.
  pose proof (backup_ne_history historyFilePath
                (FileManager.replace_colon_dot (toISOString E (clock w)))) as Hbh.
  pose proof (backup_ne_tmp historyFilePath
                (FileManager.replace_colon_dot (toISOString E (clock w)))) as Hbt.
  unfold FileManager.initializeHistoryFile. unfold bind at 1.
  rewrite existsSync_match, Hfile.
  destruct force; cbn [negb andb].
  2: { intros [= <- <-]. split; [by left | done]. }
  unfold bind at 1. unfold bind at 1. rewrite existsSync_match, Hfile.
  cbn [andb].
  destruct (FileManager.backupCorruptedFile E historyFilePath w)
    as [r0 w0] eqn:Hbackup.
  pose proof (backupCorruptedFile_outcome w w0 r0 content Hfile Hbackup) as Hout.
  destruct r0 as [[]|e].
  - destruct Hout as [_ Hcopy].
    destruct (atomicWrite_frame E historyFilePath empty_history w0)
      as (r1 & w1 & -> & Hframe & _ & _).
    intros [= <- <-].
    assert (files w1 !! backupPath w = Some content) as Hkept
      by (by rewrite Hframe).
    split; [by right | done].
  - destruct Hout as [Hstill _]. intros [= <- <-].
    split; [by left | done].
Qed.

End Keeping.

(** X10: [backupCorruptedFile] never loses the store.  If it succeeds, the
    store file is gone and the backup, named after the store and the
    instant of the call, holds its text; if it fails (the copy is refused
    or torn, or the original cannot be deleted), the error is "Failed to
    backup corrupted file" and the store file is still there with its
    text. *)
Theorem backupCorruptedFile_keeps_content (E : Env) (historyFilePath : jstring)
    (w w' : World) (r : Res unit) (content : jstring) :
  files w !! historyFilePath = Some content →
  FileManager.backupCorruptedFile E historyFilePath w = (r, w') →
  match r with
  | Ok _ =>
      files w' !! historyFilePath = None ∧
      files w' !! backupPath_at E historyFilePath w = Some content
  | Throw e =>
      files w' !! historyFilePath = Some content ∧ ∃ cause, e = BackupFailed cause
  end.
Proof. apply backupCorruptedFile_outcome. Qed.

Lemma backupCorruptedFile_keeps_content_witness :
  files (snd (FileManager.backupCorruptedFile Examples.reliable_env
                Examples.store_path (Examples.world_with Examples.garbage_text)))
    !! Examples.store_path = None ∧
  files (snd (FileManager.backupCorruptedFile Examples.reliable_env
                Examples.store_path (Examples.world_with Examples.garbage_text)))
    !! Examples.backup_path = Some Examples.garbage_text.
Proof.
  apply (backupCorruptedFile_keeps_content Examples.reliable_env
           Examples.store_path (Examples.world_with Examples.garbage_text)
           (snd (FileManager.backupCorruptedFile Examples.reliable_env
                   Examples.store_path (Examples.world_with Examples.garbage_text)))
           (Ok tt) Examples.garbage_text); reflexivity.
Defined.

(** X11: [initializeHistoryFile] never loses the text of a store file that
    is there, with or without [force], whether it succeeds or fails and
    whichever file operation fails: afterwards the store file still holds
    the text, or the backup does.  It succeeds only with [force], and the
    backup then holds the text. *)
Theorem initializeHistoryFile_keeps_content (E : Env) (historyFilePath : jstring)
    (force : bool) (w w' : World) (r : Res unit) (content : jstring) :
  files w !! historyFilePath = Some content →
  FileManager.initializeHistoryFile E historyFilePath force w = (r, w') →
  kept historyFilePath (backupPath_at E historyFilePath w) content w' ∧
  (r = Ok tt →
   force = true ∧ files w' !! backupPath_at E historyFilePath w = Some content).
Proof. apply initializeHistoryFile_outcome. Qed.

Lemma initializeHistoryFile_keeps_content_witness :
  kept Examples.store_path Examples.backup_path Examples.three_records_text
    (snd (FileManager.initializeHistoryFile Examples.reliable_env
            Examples.store_path true
            (Examples.world_with Examples.three_records_text))).
Proof.
  apply (initializeHistoryFile_keeps_content Examples.reliable_env
           Examples.store_path true
           (Examples.world_with Examples.three_records_text)
           (snd (FileManager.initializeHistoryFile Examples.reliable_env
                   Examples.store_path true
                   (Examples.world_with Examples.three_records_text)))
           (fst (FileManager.initializeHistoryFile Examples.reliable_env
                   Examples.store_path true
                   (Examples.world_with Examples.three_records_text)))
           Examples.three_records_text); [reflexivity|].
  by destruct (FileManager.initializeHistoryFile _ _ _ _).
Defined.

(** X12: on a path where there is no store file, [initializeHistoryFile]
    does the same with and without [force]: when the write and the rename
    do not fail, it writes the temporary file and renames it to the store
    file, makes no backup, and the store then reads as the empty
    history. *)
Theorem initializeHistoryFile_fresh (E : Env) (historyFilePath : jstring)
    (force : bool) (w : World) :
  files w !! historyFilePath = None →
  write_fault_at E (historyFilePath ++ SUFFIX_TMP) = None →
  rename_fails E (historyFilePath ++ SUFFIX_TMP) historyFilePath = false →
  read_fails E historyFilePath = false →
  ∃ w' text,
    FileManager.initializeHistoryFile E historyFilePath force w = (Ok tt, w') ∧
    files w' = <[historyFilePath := text]> (delete (historyFilePath ++ SUFFIX_TMP) (files w)) ∧
    trace w' = trace w ++ [Wrote (historyFilePath ++ SUFFIX_TMP) text;
                           Renamed (historyFilePath ++ SUFFIX_TMP) historyFilePath] ∧
    FileManager.readHistory E historyFilePath None w' = (Ok (VArr []), w').
Proof.
  intros Hfile Hwrite Hrename Hread.
  unfold FileManager.initializeHistoryFile. unfold bind at 1.
  rewrite existsSync_match, Hfile. cbn [andb].
  unfold bind at 1. unfold bind at 1. rewrite existsSync_match, Hfile.
  cbn [andb]. unfold ret at 1.
  pose proof empty_history_text as Htext.
  rewrite (atomicWrite_ok E historyFilePath empty_history _ w Htext) by done.
  eexists _, _. split; [done|]. split; [done|]. split; [done|].
  erewrite (readHistory_written E historyFilePath _ _ [(K_history, VArr [])]);
    try done.
  - apply lookup_insert_eq.
  - by apply empty_history_decodes.
Qed.

Lemma initializeHistoryFile_fresh_witness :
  ∃ w' text,
    FileManager.initializeHistoryFile Examples.reliable_env Examples.store_path
      true Examples.empty_world = (Ok tt, w') ∧
    files w' = <[Examples.store_path := text]>
                 (delete (Examples.store_path ++ SUFFIX_TMP)
                    (files Examples.empty_world)) ∧
    trace w' = trace Examples.empty_world
               ++ [Wrote (Examples.store_path ++ SUFFIX_TMP) text;
                   Renamed (Examples.store_path ++ SUFFIX_TMP) Examples.store_path] ∧
    FileManager.readHistory Examples.reliable_env Examples.store_path None w'
      = (Ok (VArr []), w').
Proof.
  apply (initializeHistoryFile_fresh Examples.reliable_env Examples.store_path
           true Examples.empty_world); reflexivity.
Defined.

(** X13: [atomicWrite] is all or nothing for the store file.  When it
    succeeds the store file holds the whole text of the document; when it
    fails, even if the write of the temporary file was torn half-way, the
    error is "Failed to write history file" and the store file is exactly
    as it was.  No outcome leaves a partly written store file. *)
Theorem atomicWrite_all_or_nothing (E : Env) (historyFilePath : jstring)
    (historyFile : value) (w w' : World) (r : Res unit) :
  FileManager.atomicWrite E historyFilePath historyFile w = (r, w') →
  match r with
  | Ok _ =>
      ∃ text, JSON_stringify historyFile = Some text ∧
              files w' !! historyFilePath = Some text
  | Throw e =>
      files w' !! historyFilePath = files w !! historyFilePath ∧
      ∃ cause, e = WriteFailed cause
  end.
Proof.
  destruct (atomicWrite_frame E historyFilePath historyFile w)
    as (r0 & w0 & -> & _ & Hres & _).
  intros [= <- <-].
  destruct Hres as [[[e ->] Hsame] | [-> Hdone]]; eauto.
Qed.

Lemma atomicWrite_all_or_nothing_witness :
  files (snd (FileManager.atomicWrite Faults.torn_env Examples.store_path
                empty_history (Examples.world_with Examples.three_records_text)))
    !! Examples.store_path
  = Some Examples.three_records_text.
Proof.
  apply (atomicWrite_all_or_nothing Faults.torn_env Examples.store_path
           empty_history (Examples.world_with Examples.three_records_text)
           (snd (FileManager.atomicWrite Faults.torn_env Examples.store_path
                   empty_history
                   (Examples.world_with Examples.three_records_text)))
           (Throw (WriteFailed (FsError OpWrite (Examples.store_path ++ SUFFIX_TMP))))).
  by vm_compute.
Defined.

(** * Further properties of the query layer *)

Lemma filter_idemp {A} (f : A → bool) (l : list A) :
  List.filter f (List.filter f l) = List.filter f l.
Proof.
  induction l as [|a l IH]; simpl; [done|].
  destruct (f a) eqn:Hfa; simpl; [by rewrite Hfa, IH | done].
Qed.

(** X14: a needle that is empty or made of white space only selects
    everything: [filterCommands] returns the records it was given,
    unchanged and in the same order. *)
Theorem filterCommands_blank_returns_all (records : list CommandRecord)
    (needle : jstring) :
  blank needle = true →
  HistoryManager.filterCommands records needle = records.
Proof.
  intros Hblank. unfold HistoryManager.filterCommands.
  by rewrite QueryFacts.filter_guard, Hblank.
Qed.

Lemma filterCommands_blank_returns_all_witness :
  HistoryManager.filterCommands [Examples.npm_install; Examples.git_status]
    [32; 9; 160]%N
  = [Examples.npm_install; Examples.git_status].
Proof.
  apply (filterCommands_blank_returns_all
           [Examples.npm_install; Examples.git_status] [32; 9; 160]%N).
  reflexivity.
Defined.

(** X15: [filterCommands] decides record by record.  Filtering two lists
    one after the other gives what filtering their concatenation gives,
    and filtering a second time with the same needle changes nothing. *)
Theorem filterCommands_record_by_record (older newer : list CommandRecord)
    (needle : jstring) :
  HistoryManager.filterCommands (older ++ newer) needle
  = HistoryManager.filterCommands older needle
    ++ HistoryManager.filterCommands newer needle
  ∧ HistoryManager.filterCommands
      (HistoryManager.filterCommands older needle) needle
    = HistoryManager.filterCommands older needle.
Proof.
  unfold HistoryManager.filterCommands.
  destruct (_ || _); [done|].
  split; [apply List.filter_app | apply filter_idemp].
Qed.

(** The widths [formatForDisplay] computes are the column widths. *)
Lemma Math_max_column (records : list CommandRecord) (c : column) :
  Math_max (List.map (λ r, length (snd c r)) records ++ [length (fst c)])
  = column_width records c.
Proof. apply Math_max_snoc. Qed.

Lemma column_width_label (records : list CommandRecord) (c : column) :
  (length (fst c) <= column_width records c)%nat.
Proof. unfold column_width. lia. Qed.

Lemma column_width_value (records : list CommandRecord) (c : column)
    (r : CommandRecord) :
  r ∈ records → (length (snd c r) <= column_width records c)%nat.
Proof.
  intros Hr. unfold column_width.
  assert (length (snd c r) ∈ List.map (λ r, length (snd c r)) records) as Hin
    by (apply list_elem_of_fmap; eauto).
  apply max_list_elem_of_le in Hin. lia.
Qed.

Lemma length_padEnd (s : jstring) (width : nat) :
  (length s <= width)%nat → length (padEnd s width) = width.
Proof. intros Hle. rewrite padEnd_pad_to. by apply length_pad_to. Qed.

(** A line of five cells: the first four and their separators, then the
    fifth. *)
Lemma join_five (sep a b c d e : jstring) :
  join sep [a; b; c; d; e] = (a ++ sep ++ b ++ sep ++ c ++ sep ++ d ++ sep) ++ e.
Proof. simpl. by rewrite <- !app_assoc. Qed.

Lemma join_more (sep a b : jstring) (rest : list jstring) :
  join sep (a :: b :: rest) = a ++ sep ++ join sep (b :: rest).
Proof. done. Qed.

(** X16: in the table [formatForDisplay] prints, the last cell of every
    line starts at the same offset.  The text is the header, the rule and
    one row per record, joined by line feeds; the header is some cells
    followed by the label [User], the rule some dashes and separators
    followed by four dashes, each row some cells followed by the record's
    user; and in all of them what comes before has the same length, the
    four column widths plus four separators of three characters. *)
Theorem formatForDisplay_user_offset (records : list CommandRecord) :
  records ≠ [] →
  ∃ header rule rows,
    HistoryManager.formatForDisplay records
      = join HistoryManager.NEWLINE (header :: rule :: rows) ∧
    (∃ cells, header = cells ++ HistoryManager.L_User
              ∧ length cells = user_offset records) ∧
    (∃ dashes, rule = dashes ++ List.repeat HistoryManager.DASH 4
               ∧ length dashes = user_offset records) ∧
    Forall2 (λ r row, ∃ cells, row = cells ++ user r
                               ∧ length cells = user_offset records)
            records rows.
Proof.
  intros Hne. unfold HistoryManager.formatForDisplay.
  replace (length records =? 0)%nat with false by (by destruct records).
  change (List.map (λ r, length (timestamp r)) records
          ++ [length HistoryManager.L_Timestamp])
    with (List.map (λ r, length (snd column_Timestamp r)) records
          ++ [length (fst column_Timestamp)]).
  change (List.map (λ r, length (command r)) records
          ++ [length HistoryManager.L_Command])
    with (List.map (λ r, length (snd column_Command r)) records
          ++ [length (fst column_Command)]).
  change (List.map (λ r, length (Z_toString (exit_code r))) records
          ++ [length HistoryManager.L_ExitCode])
    with (List.map (λ r, length (snd column_ExitCode r)) records
          ++ [length (fst column_ExitCode)]).
  change (List.map (λ r, length (cwd r)) records
          ++ [length HistoryManager.L_Directory])
    with (List.map (λ r, length (snd column_Directory r)) records
          ++ [length (fst column_Directory)]).
  rewrite !Math_max_column.
  cbv zeta. eexists _, _, _. split; [reflexivity|].
  pose proof (column_width_label records column_Timestamp) as Ht.
  pose proof (column_width_label records column_Command) as Hc.
  pose proof (column_width_label records column_ExitCode) as He.
  pose proof (column_width_label records column_Directory) as Hd.
  split; [|split].
  - eexists. split; [apply join_five|].
    rewrite !length_app, !length_padEnd by done. unfold user_offset.
    change (length HistoryManager.SEP_CELL) with 3%nat. lia.
  - eexists. split; [apply join_five|].
    unfold repeat_unit. rewrite !length_app, !repeat_length. unfold user_offset.
    change (length HistoryManager.SEP_RULE) with 3%nat. lia.
  - apply Forall2_fmap_r, Forall_Forall2_diag, Forall_forall. intros r Hr.
    eexists. split; [apply join_five|].
    rewrite !length_app.
    rewrite (length_padEnd (timestamp r))
      by apply (column_width_value records column_Timestamp r Hr).
    rewrite (length_padEnd (command r))
      by apply (column_width_value records column_Command r Hr).
    rewrite (length_padEnd (Z_toString (exit_code r)))
      by apply (column_width_value records column_ExitCode r Hr).
    rewrite (length_padEnd (cwd r))
      by apply (column_width_value records column_Directory r Hr).
    unfold user_offset. change (length HistoryManager.SEP_CELL) with 3%nat. lia.
Qed.

Lemma formatForDisplay_user_offset_witness :
  ∃ header rule rows,
    HistoryManager.formatForDisplay [Examples.npm_install; Examples.git_status]
      = join HistoryManager.NEWLINE (header :: rule :: rows) ∧
    (∃ cells, header = cells ++ HistoryManager.L_User
              ∧ length cells
                = user_offset [Examples.npm_install; Examples.git_status]) ∧
    (∃ dashes, rule = dashes ++ List.repeat HistoryManager.DASH 4
               ∧ length dashes
                 = user_offset [Examples.npm_install; Examples.git_status]) ∧
    Forall2 (λ r row, ∃ cells, row = cells ++ user r
                               ∧ length cells
                                 = user_offset [Examples.npm_install;
                                                Examples.git_status])
            [Examples.npm_install; Examples.git_status] rows.
Proof.
  apply (formatForDisplay_user_offset [Examples.npm_install; Examples.git_status]).
  discriminate.
Defined.

(** X17: [formatForDisplay] prints "No command history found." exactly
    when it is given no record: a table is never mistaken for the message,
    whatever the records hold. *)
Theorem formatForDisplay_message_iff_empty (records : list CommandRecord) :
  HistoryManager.formatForDisplay records = HistoryManager.NO_HISTORY
  ↔ records = [].
Proof.
  split; [|by intros ->].
  destruct records as [|r rs]; [done|]. intros Htext. exfalso.
  revert Htext. unfold HistoryManager.formatForDisplay.
  cbn [length Nat.eqb]. cbv zeta. cbn [app].
  rewrite (join_more HistoryManager.NEWLINE).
  rewrite join_five, padEnd_pad_to. unfold pad_to.
  unfold HistoryManager.L_Timestamp, HistoryManager.NO_HISTORY.
  rewrite <- !app_assoc. cbn [app]. discriminate.
Qed.

(** X18: what [displayHistory] shows.  The filter comes first and the
    limit second: of the records that match the filter (all of them when
    no filter or an empty one is given), the table holds the latest
    [limit], or all of them when there are no more than [limit] or when
    [limit] is not positive. *)
Theorem displayHistory_shows_latest_matches (limit : Z) (filter : option jstring)
    (allRecords : list CommandRecord) :
  let matching :=
    match filter with
    | Some f => HistoryManager.filterCommands allRecords f
    | None => allRecords
    end in
  ∃ older shown,
    matching = older ++ shown ∧
    length shown
      = (if 0 <? limit then Nat.min (Z.to_nat limit) (length matching)
         else length matching) ∧
    Display.displayHistory limit filter allRecords
      = HistoryManager.formatForDisplay shown.
Proof.
  intros matching. unfold Display.displayHistory, Display.selectRecords.
  replace (match filter with
           | Some f =>
               if Display.truthy_string f
               then HistoryManager.filterCommands allRecords f
               else allRecords
           | None => allRecords
           end) with matching
    by (subst matching; destruct filter as [[|c f]|]; done).
  destruct ((limit >? 0) && (Z.of_nat (length matching) >? limit)) eqn:Hcut.
  - apply andb_true_iff in Hcut as [Hpos Hmore].
    rewrite slice_last by lia.
    exists (take (length matching - Z.to_nat limit) matching),
           (drop (length matching - Z.to_nat limit) matching).
    split; [by rewrite take_drop|]. split; [|done].
    rewrite length_drop. replace (0 <? limit) with true by lia. lia.
  - exists [], matching. split; [done|]. split; [|done].
    apply andb_false_iff in Hcut.
    destruct (0 <? limit) eqn:Hpos; [|done]. lia.
Qed.

(** * Further properties of the capture path *)

Lemma obj_get_cons (k key : jstring) (v : value) (rest : list (jstring * value)) :
  obj_get ((k, v) :: rest) key = if jstring_eqb k key then v else obj_get rest key.
Proof. done. Qed.

(* Looks a given key up in a list of members whose keys are given. *)
Ltac lookup_members :=
  repeat (rewrite obj_get_cons;
          match goal with
          | |- context [jstring_eqb ?a ?b] =>
              let v := eval vm_compute in (jstring_eqb a b) in
              change (jstring_eqb a b) with v
          end;
          cbv iota).

(** Validation of a record that has the type [CommandRecord]. *)
Lemma validateCommandRecord_record (r : CommandRecord) (w : World) :
  SessionManager.validateCommandRecord (value_of_record r) w
  = (if SessionManager.isValidISO8601 (timestamp r) then Ok tt
     else Throw (InvalidTimestamp (VStr (timestamp r))), w).
Proof.
  destruct r as [ts u c x d n].
  unfold SessionManager.validateCommandRecord, SessionManager.requiredFields,
    value_of_record.
  cbn [timestamp user command exit_code cwd note app].
  unfold bind at 1. cbn [SessionManager.check_required].
  unfold bind, get_member, ret, throw.
  lookup_members. cbn [ToString typeof negb].
  by destruct (SessionManager.isValidISO8601 ts).
Qed.

(** X19: for a record that has the type [CommandRecord], validation
    depends on the timestamp alone: the record is accepted when the
    timestamp has the ISO-8601 shape and refused with "Invalid timestamp
    format" otherwise.  The user, the command and the directory may be
    empty strings. *)
Theorem validateCommandRecord_typed_record (r : CommandRecord) (w : World) :
  SessionManager.validateCommandRecord (value_of_record r) w
  = (if SessionManager.isValidISO8601 (timestamp r) then Ok tt
     else Throw (InvalidTimestamp (VStr (timestamp r))), w).
Proof. apply validateCommandRecord_record. Qed.

(** A run of digits of a given length, digit by digit. *)
Lemma digit_run_cons (n : nat) (c : N) (s : jstring) :
  digit_run (S n) (c :: s) ↔ is_digit c = true ∧ digit_run n s.
Proof.
  unfold digit_run. simpl. rewrite Forall_cons. split.
  - intros ([= Hlen] & Hc & Hs). done.
  - intros (Hc & Hlen & Hs). by rewrite Hlen.
Qed.

Lemma digit_run_nil (s : jstring) : digit_run 0 s ↔ s = [].
Proof.
  unfold digit_run. split.
  - by intros [->%nil_length_inv _].
  - by intros ->.
Qed.

(* Takes a run of digits of a known length apart. *)
Ltac open_runs :=
  repeat match goal with
         | H : digit_run (S _) ?s |- _ =>
             destruct s; [by destruct H|]; apply digit_run_cons in H as [? H]
         | H : digit_run 0 ?s |- _ => apply digit_run_nil in H; subst s
         end.

Lemma match_digit_Some (atoms : list SessionManager.atom) (s rest : jstring) :
  SessionManager.match_atoms (SessionManager.Digit :: atoms) s = Some rest →
  ∃ c s', s = c :: s' ∧ is_digit c = true
          ∧ SessionManager.match_atoms atoms s' = Some rest.
Proof.
  destruct s as [|c s']; [done|]. cbn [SessionManager.match_atoms].
  destruct (is_digit c) eqn:Hc; [|done]. eauto.
Qed.

Lemma match_char_Some (k : N) (atoms : list SessionManager.atom) (s rest : jstring) :
  SessionManager.match_atoms (SessionManager.Char k :: atoms) s = Some rest →
  ∃ s', s = k :: s' ∧ SessionManager.match_atoms atoms s' = Some rest.
Proof.
  destruct s as [|c s']; [done|]. cbn [SessionManager.match_atoms].
  destruct (N.eqb_spec c k) as [->|]; [|done]. eauto.
Qed.

Lemma match_nil_Some (s rest : jstring) :
  SessionManager.match_atoms [] s = Some rest → s = rest.
Proof. destruct s; by intros [= ->]. Qed.

(* Takes a successful match apart, position by position. *)
Ltac open_match :=
  repeat match goal with
         | H : SessionManager.match_atoms (SessionManager.Digit :: _) _ = Some _ |- _ =>
             apply match_digit_Some in H as (? & ? & -> & ? & H)
         | H : SessionManager.match_atoms (SessionManager.Char _ :: _) _ = Some _ |- _ =>
             apply match_char_Some in H as (? & -> & H)
         | H : SessionManager.match_atoms [] _ = Some _ |- _ =>
             apply match_nil_Some in H as ->
         end.

(* The runs of digits found by a match. *)
Ltac close_runs :=
  repeat (apply digit_run_cons; split; [eassumption|]); by apply digit_run_nil.

(** X20: [isValidISO8601] accepts exactly the texts made of four digits, a
    dash, two digits, a dash, two digits, the letter T, two digits, a
    colon, two digits, a colon and two digits, optionally followed by a
    dot and three digits, optionally followed by the letter Z.  This is
    what [toISOString] prints, with or without the milliseconds and the
    zone; the values of the fields are not checked. *)
Theorem isValidISO8601_shape (text : jstring) :
  SessionManager.isValidISO8601 text = true
  ↔ ∃ year month day hour minute second fraction zone,
      digit_run 4 year ∧ digit_run 2 month ∧ digit_run 2 day ∧
      digit_run 2 hour ∧ digit_run 2 minute ∧ digit_run 2 second ∧
      (fraction = [] ∨ ∃ millis, digit_run 3 millis ∧ fraction = 46%N :: millis) ∧
      (zone = [] ∨ zone = [90%N]) ∧
      text = year ++ 45%N :: month ++ 45%N :: day ++ 84%N :: hour
             ++ 58%N :: minute ++ 58%N :: second ++ fraction ++ zone.
Proof.
  split.
  - unfold SessionManager.isValidISO8601.
    destruct (SessionManager.match_atoms _ text) as [rest|] eqn:Hdate; [|done].
    destruct (SessionManager.match_atoms _ rest) as [rest1|] eqn:Hfraction;
      destruct (SessionManager.match_atoms [SessionManager.Char 90] _)
        as [rest2|] eqn:Hzone;
      open_match;
      (match goal with |- match ?r with [] => _ | _ => _ end = _ → _ =>
         destruct r; [intros _|done] end).
    + eexists [_; _; _; _], [_; _], [_; _], [_; _], [_; _], [_; _],
        (46%N :: [_; _; _]), [90%N].
      split_and!; last reflexivity; try close_runs; [right|by right].
      eexists. split; last reflexivity. close_runs.
    + eexists [_; _; _; _], [_; _], [_; _], [_; _], [_; _], [_; _],
        (46%N :: [_; _; _]), [].
      split_and!; last reflexivity; try close_runs; [right|by left].
      eexists. split; last reflexivity. close_runs.
    + eexists [_; _; _; _], [_; _], [_; _], [_; _], [_; _], [_; _], [], [90%N].
      split_and!; last reflexivity; try close_runs; [by left|by right].
    + eexists [_; _; _; _], [_; _], [_; _], [_; _], [_; _], [_; _], [], [].
      split_and!; last reflexivity; try close_runs; by left.
  - intros (year & month & day & hour & minute & second & fraction & zone
            & Hy & Hmo & Hd & Hh & Hmi & Hs & Hf & Hz & ->).
    destruct Hf as [->|(millis & Hms & ->)]; destruct Hz as [->| ->];
      open_runs; unfold SessionManager.isValidISO8601;
      repeat (cbn [app SessionManager.match_atoms N.eqb Pos.eqb];
              match goal with
              | H : is_digit _ = true |- _ => rewrite H; clear H
              end);
      by vm_compute.
Qed.

(** X21: a capture with nothing failing.  When the clock prints in the
    ISO-8601 shape, the command and the directory are strings and the exit
    code is an integer, [captureCommand] returns the record made of the
    instant of the call, the user of the process and the three arguments,
    and a read of the store then returns the old records followed by that
    record. *)
Theorem captureCommand_stores_record (E : Env) (historyFilePath : jstring)
    (w : World) (text : jstring) (members : list (jstring * value))
    (items : list value) (command cwd : jstring) (exitCode : Z) :
  reliable E historyFilePath →
  files w !! FileManager.lockFilePath historyFilePath = None →
  files w !! historyFilePath = Some text →
  JSON_parse text = Some (VObj members) →
  plain (VObj members) = true →
  obj_get members K_history = VArr items →
  SessionManager.isValidISO8601 (toISOString E (clock w)) = true →
  let record :=
    value_of_record
      (mkRecord (toISOString E (clock w)) (username E) command exitCode cwd None) in
  ∃ w',
    SessionManager.captureCommand E historyFilePath
      (VStr command) (VNum (Int exitCode)) (VStr cwd) w = (Ok record, w') ∧
    FileManager.readHistory E historyFilePath None w'
      = (Ok (VArr (items ++ [record])), w').
Proof.
  intros Hrel Hlock Hfile Hparse Hplain Hget Hclock record.
  destruct (appendCommand_read_back E historyFilePath w text members items record)
    as (w' & text' & members' & Hrun & _ & _ & _ & Hread);
    try done.
  exists w'. split; [|done].
  unfold SessionManager.captureCommand. unfold bind at 1. unfold Date_now.
  unfold bind at 1.
  change (VObj [(K_timestamp, VStr (toISOString E (clock w)));
                (K_user, VStr (username E));
                (K_command, VStr command);
                (K_exit_code, VNum (Int exitCode));
                (K_cwd, VStr cwd)]) with record.
  pose proof (validateCommandRecord_record
                (mkRecord (toISOString E (clock w)) (username E) command
                          exitCode cwd None) w) as Hvalid.
  cbn [timestamp] in Hvalid. rewrite Hclock in Hvalid. fold record in Hvalid.
  rewrite Hvalid. unfold bind. by rewrite Hrun.
Qed.

Lemma captureCommand_stores_record_witness :
  ∃ w',
    SessionManager.captureCommand Examples.reliable_env Examples.store_path
      (VStr (js "git status")) (VNum (Int 1)) (VStr (js "C:\proj"))
      (Examples.world_with Faults.versioned_text)
    = (Ok (value_of_record
             (mkRecord (js "2025-12-25T01:03:14.221Z") (js "alice")
                       (js "git status") 1 (js "C:\proj") None)), w') ∧
    FileManager.readHistory Examples.reliable_env Examples.store_path None w'
    = (Ok (VArr ([value_of_record Examples.npm_install]
                 ++ [value_of_record
                       (mkRecord (js "2025-12-25T01:03:14.221Z") (js "alice")
                                 (js "git status") 1 (js "C:\proj") None)])), w').
Proof.
  apply (captureCommand_stores_record Examples.reliable_env Examples.store_path
           (Examples.world_with Faults.versioned_text) Faults.versioned_text
           [(js "version", VNum (Int 1));
            (K_history, VArr [value_of_record Examples.npm_install])]
           [value_of_record Examples.npm_install]
           (js "git status") (js "C:\proj") 1).
  - repeat split; reflexivity.
  - reflexivity.
  - reflexivity.
  - by vm_compute.
  - by vm_compute.
  - by vm_compute.
  - by vm_compute.
Defined.

(** X22: [captureCommand] checks before it writes.  An exit code that is
    there but is not of type number (a string, say) makes it fail with
    "Exit code must be a number, got <type>", and the world is then
    exactly as it was: no lock was taken and nothing was written. *)
Theorem captureCommand_checks_exit_code (E : Env) (historyFilePath : jstring)
    (w : World) (command exitCode cwd : value) :
  SessionManager.isValidISO8601 (toISOString E (clock w)) = true →
  command ≠ VUndefined → command ≠ VNull →
  cwd ≠ VUndefined → cwd ≠ VNull →
  exitCode ≠ VUndefined → exitCode ≠ VNull →
  typeof exitCode ≠ TNumber →
  SessionManager.captureCommand E historyFilePath command exitCode cwd w
  = (Throw (ExitCodeNotNumber (typeof exitCode)), w).
Proof.
  intros Hclock Hc1 Hc2 Hd1 Hd2 Hx1 Hx2 Htype.
  apply captureCommand_rejects.
  unfold SessionManager.validateCommandRecord, SessionManager.requiredFields.
  unfold bind at 1. cbn [SessionManager.check_required].
  unfold bind, get_member, ret, throw. lookup_members.
  cbn [ToString]. rewrite Hclock. cbn [negb].
  destruct command; try done; destruct cwd; try done;
    destruct exitCode; done.
Qed.

Lemma captureCommand_checks_exit_code_witness :
  SessionManager.captureCommand Examples.reliable_env Examples.store_path
    (VStr (js "ls")) (VStr (js "0")) (VStr (js "/tmp")) Examples.empty_world
  = (Throw (ExitCodeNotNumber TString), Examples.empty_world).
Proof.
  apply (captureCommand_checks_exit_code Examples.reliable_env
           Examples.store_path Examples.empty_world
           (VStr (js "ls")) (VStr (js "0")) (VStr (js "/tmp")));
    done.
Defined.

(** * The command line *)

Module CliFacts.

Lemma array_includes_spec (xs : list jstring) (x : jstring) :
  Cli.array_includes xs x = true ↔ x ∈ xs.
Proof.
  unfold Cli.array_includes. rewrite existsb_exists. split.
  - intros (y & Hy%list_elem_of_In & ->%bool_decide_eq_true). done.
  - intros Hx. exists x. split; [by apply list_elem_of_In|].
    by apply bool_decide_eq_true.
Qed.

Lemma array_includes_decide (xs : list jstring) (x : jstring) :
  Cli.array_includes xs x = bool_decide (x ∈ xs).
Proof.
  destruct (Cli.array_includes xs x) eqn:Hin; symmetry.
  - by apply bool_decide_eq_true, array_includes_spec.
  - apply bool_decide_eq_false. intros Hx%array_includes_spec. congruence.
Qed.

Lemma indexOf_lower (xs : list jstring) (x : jstring) : -1 <= Cli.indexOf xs x.
Proof.
  induction xs as [|y xs IH]; simpl; [lia|].
  destruct (jstring_eqb y x); [lia|].
  destruct (Z.eqb_spec (Cli.indexOf xs x) (-1)); lia.
Qed.

Lemma indexOf_absent (xs : list jstring) (x : jstring) :
  x ∉ xs → Cli.indexOf xs x = -1.
Proof.
  induction xs as [|y xs IH]; simpl; [done|].
  intros [Hne Hxs]%not_elem_of_cons.
  unfold jstring_eqb. rewrite bool_decide_eq_false_2 by done.
  by rewrite IH.
Qed.

Lemma indexOf_first (pre post : list jstring) (x : jstring) :
  x ∉ pre → Cli.indexOf (pre ++ x :: post) x = Z.of_nat (length pre).
Proof.
  induction pre as [|y pre IH]; simpl.
  - intros _. unfold jstring_eqb. by rewrite bool_decide_eq_true_2.
  - intros [Hne Hpre]%not_elem_of_cons.
    unfold jstring_eqb. rewrite bool_decide_eq_false_2 by done.
    rewrite IH by done.
    destruct (Z.eqb_spec (Z.of_nat (length pre)) (-1)); lia.
Qed.

(** The index of the option: that of the long spelling when it occurs. *)
Lemma optionIndex_long (pre post : list jstring) (long short : jstring) :
  long ∉ pre →
  Cli.optionIndex (pre ++ long :: post) long short = Z.of_nat (length pre).
Proof.
  intros Hpre. unfold Cli.optionIndex. rewrite indexOf_first by done.
  destruct (Z.eqb_spec (Z.of_nat (length pre)) (-1)); [lia|done].
Qed.

Lemma optionIndex_absent (argv : list jstring) (long short : jstring) :
  long ∉ argv → short ∉ argv → Cli.optionIndex argv long short = -1.
Proof.
  intros Hlong Hshort. unfold Cli.optionIndex.
  by rewrite !indexOf_absent.
Qed.

Lemma span_digits_until (ds rest : jstring) :
  Forall (λ c, is_digit c = true) ds → ends_digits rest →
  span_digits (ds ++ rest) = (ds, rest).
Proof.
  intros Hds Hrest. induction Hds as [|d ds Hd _ IH]; simpl.
  - destruct rest as [|c rest]; [done|]. simpl in *. by rewrite Hrest.
  - by rewrite Hd, IH.
Qed.

Lemma digit_not_space (c : N) : is_digit c = true → is_space c = false.
Proof.
  unfold is_digit. intros [?%N.leb_le ?%N.leb_le]%andb_true_iff.
  apply QueryFacts.is_space_false. lia.
Qed.

(** [parseInt] reads back what [toString] prints, and ignores what
    follows the digits. *)
Lemma parseInt_Z_toString (n : Z) (junk : jstring) :
  ends_digits junk → Cli.parseInt (Z_toString n ++ junk) = Some n.
Proof.
  intros Hjunk. unfold Cli.parseInt.
  assert (∀ m, ∃ d ds,
            N_toString m = d :: ds ∧ is_digit d = true ∧
            span_digits (N_toString m ++ junk) = (d :: ds, junk) ∧
            digits_value (d :: ds) = m) as Hrun.
  { intros m. destruct (JsonFacts.N_toString_spec m) as (d & ds & Heq & Hdig & Hval & _).
    exists d, ds. split; [done|]. split; [by inversion Hdig|].
    split; [|done]. rewrite Heq. by apply span_digits_until. }
  assert (∀ d, is_digit d = true → (d =? 45)%N = false ∧ (d =? 43)%N = false)
    as Hsign.
  { intros d [?%N.leb_le ?%N.leb_le]%andb_true_iff. split; apply N.eqb_neq; lia. }
  destruct n as [|p|p]; unfold Z_toString.
  - destruct (Hrun 0%N) as (d & ds & Heq & Hd & Hspan & Hval).
    change (Z.to_N 0) with 0%N. rewrite Heq in *.
    simpl app. cbn [trimStart]. rewrite (digit_not_space d Hd).
    destruct (Hsign d Hd) as [-> ->].
    simpl app in Hspan. rewrite Hspan, Hval. done.
  - destruct (Hrun (N.pos p)) as (d & ds & Heq & Hd & Hspan & Hval).
    change (Z.to_N (Z.pos p)) with (N.pos p). rewrite Heq in *.
    simpl app. cbn [trimStart]. rewrite (digit_not_space d Hd).
    destruct (Hsign d Hd) as [-> ->].
    simpl app in Hspan. rewrite Hspan, Hval. done.
  - destruct (Hrun (N.pos p)) as (d & ds & Heq & Hd & Hspan & Hval).
    simpl app. cbn [trimStart].
    replace (is_space 45) with false by done.
    rewrite N.eqb_refl, Hspan, Hval. done.
Qed.

(** The argument after the option at the end of [pre]. *)
Lemma lookup_after (pre post : list jstring) (flag value : jstring) :
  (pre ++ flag :: value :: post) !! Z.to_nat (Z.of_nat (length pre) + 1)
  = Some value.
Proof.
  replace (Z.to_nat (Z.of_nat (length pre) + 1)) with (length (pre ++ [flag]))
    by (rewrite length_app; simpl; lia).
  change (flag :: value :: post) with ([flag] ++ value :: post).
  rewrite app_assoc. apply list_lookup_middle. done.
Qed.

(** What [parseArgs] does with the [history] command. *)
Lemma parseArgs_history (rest : list jstring) :
  Cli.parseArgs (Cli.HISTORY :: rest)
  = let argv := Cli.HISTORY :: rest in
    let limitIndex := Cli.optionIndex argv Cli.OPT_LIMIT Cli.OPT_L in
    let filterIndex := Cli.optionIndex argv Cli.OPT_FILTER Cli.OPT_F in
    Cli.Parsed
      (Cli.mkCommand Cli.HISTORY
         (Cli.mkOptions
            (Some (if negb (limitIndex =? -1)
                      && (limitIndex + 1 <? Z.of_nat (length argv))
                   then match match argv !! Z.to_nat (limitIndex + 1) with
                              | Some text => Cli.parseInt text
                              | None => None
                              end with
                        | None => 50
                        | Some n => n
                        end
                   else 50))
            (if negb (filterIndex =? -1)
                && (filterIndex + 1 <? Z.of_nat (length argv))
             then argv !! Z.to_nat (filterIndex + 1)
             else None)
            None)).
Proof. done. Qed.

End CliFacts.

(** X23: [parseArgs] names one of the four commands or fails.  With no
    argument the command is [help]; otherwise it is the first argument
    when that is [init], [start], [history] or [help], and any other first
    argument is refused with "Unknown command: <argument>". *)
Theorem parseArgs_command (argv : list jstring) :
  match Cli.parseArgs argv with
  | Cli.Parsed c =>
      Cli.command c ∈ [Cli.INIT; Cli.START; Cli.HISTORY; Cli.HELP] ∧
      Cli.command c = default Cli.HELP (head argv)
  | Cli.UnknownCommand name =>
      head argv = Some name ∧
      name ∉ [Cli.INIT; Cli.START; Cli.HISTORY; Cli.HELP]
  end.
Proof.
  unfold Cli.parseArgs. destruct argv as [|name rest].
  - split; [|done]. apply (bool_decide_unpack _). by vm_compute.
  - destruct (Cli.array_includes _ name) eqn:Hknown; cbn [negb].
    + apply CliFacts.array_includes_spec in Hknown. done.
    + split; [done|]. intros Hin%CliFacts.array_includes_spec. congruence.
Qed.

(** X24: [init] is forced exactly when [--force] or [-f] stands somewhere
    among its arguments; it takes no other option. *)
Theorem parseArgs_init_force (rest : list jstring) :
  Cli.parseArgs (Cli.INIT :: rest)
  = Cli.Parsed
      (Cli.mkCommand Cli.INIT
         (Cli.mkOptions None None
            (Some (bool_decide (Cli.OPT_FORCE ∈ rest ∨ Cli.OPT_F ∈ rest))))).
Proof.
  rewrite bool_decide_or, <- !CliFacts.array_includes_decide. done.
Qed.

(** X25: the limit of [history] is the number written after [--limit].
    The text is read as [parseInt] reads it: the digits an integer prints
    as are read back as that integer, and whatever follows them is
    ignored.  Options before and after do not matter, so long as none
    before is itself [--limit].  The integer is one a JavaScript number
    holds exactly. *)
Theorem parseArgs_limit_value (pre post : list jstring) (n : Z) (junk : jstring) :
  - 2 ^ 53 <= n <= 2 ^ 53 →
  Cli.OPT_LIMIT ∉ pre →
  ends_digits junk →
  ∃ f,
    Cli.parseArgs (Cli.HISTORY :: pre ++ Cli.OPT_LIMIT :: (Z_toString n ++ junk) :: post)
    = Cli.Parsed (Cli.mkCommand Cli.HISTORY (Cli.mkOptions (Some n) f None)).
Proof.
  intros _ Hpre Hjunk. rewrite CliFacts.parseArgs_history. cbv zeta.
  eexists. do 3 f_equal.
  rewrite app_comm_cons.
  rewrite CliFacts.optionIndex_long
    by (intros [?|?]%elem_of_cons; done).
  rewrite CliFacts.lookup_after, CliFacts.parseInt_Z_toString by done.
  rewrite length_app. cbn [length].
  replace (negb _ && _) with true; [done|].
  symmetry. apply andb_true_iff. split.
  - apply negb_true_iff, Z.eqb_neq. lia.
  - apply Z.ltb_lt. rewrite Nat2Z.inj_add. lia.
Qed.

Lemma parseArgs_limit_value_witness :
  ∃ f,
    Cli.parseArgs [Cli.HISTORY; Cli.OPT_FILTER; js "npm"; Cli.OPT_LIMIT; js "20px"]
    = Cli.Parsed (Cli.mkCommand Cli.HISTORY (Cli.mkOptions (Some 20) f None)).
Proof.
  apply (parseArgs_limit_value [Cli.OPT_FILTER; js "npm"] [] 20 (js "px")).
  - lia.
  - apply (bool_decide_unpack _). by vm_compute.
  - reflexivity.
Defined.

(** X26: when the limit of [history] falls back to 50: when neither
    [--limit] nor [-l] is given; when [--limit] is the last argument, even
    if [-l] and a number stand before it; and when the argument after
    [--limit] does not start, white space and sign apart, with a digit. *)
Theorem parseArgs_limit_default (rest : list jstring) :
  ((Cli.OPT_LIMIT ∉ rest) ∧ (Cli.OPT_L ∉ rest))
  ∨ (∃ pre, (Cli.OPT_LIMIT ∉ pre) ∧ rest = pre ++ [Cli.OPT_LIMIT])
  ∨ (∃ pre value post,
       (Cli.OPT_LIMIT ∉ pre) ∧ rest = pre ++ Cli.OPT_LIMIT :: value :: post
       ∧ Cli.parseInt value = None) →
  ∃ f,
    Cli.parseArgs (Cli.HISTORY :: rest)
    = Cli.Parsed (Cli.mkCommand Cli.HISTORY (Cli.mkOptions (Some 50) f None)).
Proof.
  intros Hcase. rewrite CliFacts.parseArgs_history. cbv zeta.
  eexists. do 3 f_equal.
  destruct Hcase as [[Hlong Hshort] | [(pre & Hpre & ->) | (pre & value & post & Hpre & -> & Hnan)]].
  - rewrite CliFacts.optionIndex_absent; [done| |];
      intros [?|?]%elem_of_cons; done.
  - rewrite app_comm_cons.
    rewrite CliFacts.optionIndex_long by (intros [?|?]%elem_of_cons; done).
    replace (_ + 1 <? _) with false; [by rewrite andb_false_r|].
    symmetry. apply Z.ltb_ge. rewrite length_app. simpl. lia.
  - rewrite app_comm_cons.
    rewrite CliFacts.optionIndex_long by (intros [?|?]%elem_of_cons; done).
    rewrite CliFacts.lookup_after, Hnan. by destruct (_ && _).
Qed.

Lemma parseArgs_limit_default_witness :
  ∃ f,
    Cli.parseArgs [Cli.HISTORY; Cli.OPT_L; js "5"; Cli.OPT_LIMIT]
    = Cli.Parsed (Cli.mkCommand Cli.HISTORY (Cli.mkOptions (Some 50) f None)).
Proof.
  apply (parseArgs_limit_default [Cli.OPT_L; js "5"; Cli.OPT_LIMIT]).
  right. left. exists [Cli.OPT_L; js "5"]. split; [|reflexivity].
  apply (bool_decide_unpack _). by vm_compute.
Defined.

(** X27: the filter of [history] is the argument after [--filter], taken
    as it is, whatever it is: an empty text or the name of another option
    are filters like any other. *)
Theorem parseArgs_filter_value (pre post : list jstring) (value : jstring) :
  Cli.OPT_FILTER ∉ pre →
  ∃ n,
    Cli.parseArgs (Cli.HISTORY :: pre ++ Cli.OPT_FILTER :: value :: post)
    = Cli.Parsed
        (Cli.mkCommand Cli.HISTORY (Cli.mkOptions (Some n) (Some value) None)).
Proof.
  intros Hpre. rewrite CliFacts.parseArgs_history. cbv zeta.
  eexists. do 2 f_equal. f_equal.
  rewrite app_comm_cons.
  rewrite CliFacts.optionIndex_long by (intros [?|?]%elem_of_cons; done).
  rewrite CliFacts.lookup_after.
  replace (negb _ && _) with true; [done|].
  symmetry. apply andb_true_iff. split.
  - apply negb_true_iff, Z.eqb_neq. lia.
  - apply Z.ltb_lt. rewrite length_app. simpl. lia.
Qed.

Lemma parseArgs_filter_value_witness :
  ∃ n,
    Cli.parseArgs [Cli.HISTORY; Cli.OPT_FILTER; Cli.OPT_LIMIT; js "5"]
    = Cli.Parsed
        (Cli.mkCommand Cli.HISTORY
           (Cli.mkOptions (Some n) (Some Cli.OPT_LIMIT) None)).
Proof.
  apply (parseArgs_filter_value [] [js "5"] Cli.OPT_LIMIT).
  apply not_elem_of_nil.
Defined.

(** * The application *)

Section Init.

Variable E : Env.
Variable historyFilePath : jstring.

Lemma lower_unit_letter (c k : N) :
  (97 <= k <= 122)%N → lower_unit c = k → c = k ∨ c = (k - 32)%N.
Proof.
  intros Hk Hc. destruct (QueryFacts.lower_unit_cases c) as [Hsame|[Hup Hrange]].
  - left. congruence.
  - right. lia.
Qed.

(** The answers that confirm. *)
Lemma promptUserConfirmation_accepted (answer : jstring) :
  JyugemuApp.promptUserConfirmation answer = true ↔ answer ∈ accepted_answers.
Proof.
  unfold JyugemuApp.promptUserConfirmation. split.
  - intros [Hy|Hyes]%orb_true_iff.
    + apply bool_decide_eq_true in Hy.
      destruct answer as [|a [|b rest]]; try done.
      injection Hy as Ha.
      apply (lower_unit_letter _ 121 ltac:(lia)) in Ha as [->| ->];
        apply (bool_decide_unpack _); by vm_compute.
    + apply bool_decide_eq_true in Hyes.
      destruct answer as [|a [|b [|c [|d rest]]]]; try done.
      injection Hyes as Ha Hb Hc.
      apply (lower_unit_letter _ 121 ltac:(lia)) in Ha as [->| ->];
        apply (lower_unit_letter _ 101 ltac:(lia)) in Hb as [->| ->];
        apply (lower_unit_letter _ 115 ltac:(lia)) in Hc as [->| ->];
        apply (bool_decide_unpack _); by vm_compute.
  - intros Hin. unfold accepted_answers in Hin.
    repeat (apply elem_of_cons in Hin as [->|Hin]; [by vm_compute|]).
    by apply elem_of_nil in Hin.
Qed.

(** What [handleInit] does once the prompt, if any, is answered in the
    affirmative. *)
Lemma handleInit_run (force : bool) (answer : jstring) (pause : Z) (w : World) :
  JyugemuApp.handleInit E historyFilePath force answer pause w
  = let prompted :=
      match files w !! historyFilePath with Some _ => negb force | None => false end in
    let shown := if prompted then [JyugemuApp.Question historyFilePath] else [] in
    let w1 := after_prompt historyFilePath force pause w in
    if prompted && negb (JyugemuApp.promptUserConfirmation answer)
    then ((shown ++ [JyugemuApp.Cancelled], JyugemuApp.Returned), w1)
    else
      match FileManager.initializeHistoryFile E historyFilePath true w1 with
      | (Ok _, w2) =>
          ((shown ++ [JyugemuApp.Initialized historyFilePath;
                      JyugemuApp.UsageHeading; JyugemuApp.UsageStart;
                      JyugemuApp.UsageHistory; JyugemuApp.UsageFilter],
            JyugemuApp.Returned), w2)
      | (Throw e, w2) =>
          ((shown ++ [JyugemuApp.InitFailed e], JyugemuApp.Exit 1), w2)
      end.
Proof.
  unfold JyugemuApp.handleInit, after_prompt. rewrite existsSync_match.
  rewrite orb_true_r.
  destruct (files w !! historyFilePath); [|done].
  by destruct force.
Qed.

(** [initializeHistoryFile(true)] never refuses a store that is there. *)
Lemma initializeHistoryFile_forced_error (w w' : World) (e : exn) :
  FileManager.initializeHistoryFile E historyFilePath true w = (Throw e, w') →
  ∃ cause, e = BackupFailed cause ∨ e = WriteFailed cause.
Proof.
  unfold FileManager.initializeHistoryFile. unfold bind at 1.
  rewrite existsSync_match. rewrite andb_false_r.
  unfold bind at 1. unfold bind at 1. rewrite existsSync_match.
  destruct (files w !! historyFilePath) as [content|] eqn:Hfile; cbn [andb].
  - destruct (FileManager.backupCorruptedFile E historyFilePath w)
      as [r0 w0] eqn:Hbackup.
    pose proof (backupCorruptedFile_outcome E historyFilePath w w0 r0 content
                  Hfile Hbackup) as Hout.
    destruct r0 as [[]|e0].
    + destruct (atomicWrite_frame E historyFilePath empty_history w0)
        as (r1 & w1 & -> & _ & Hres & _).
      intros [= -> <-]. destruct Hres as [[[cause [= ->]] _]|[[=] _]]. eauto.
    + destruct Hout as [_ [cause ->]]. intros [= <- <-]. eauto.
  - unfold ret at 1.
    destruct (atomicWrite_frame E historyFilePath empty_history w)
      as (r1 & w1 & -> & _ & Hres & _).
    intros [= -> <-]. destruct Hres as [[[cause [= ->]] _]|[[=] _]]. eauto.
Qed.

(** [initializeHistoryFile(true)] on a store that is there, with nothing
    failing. *)
Lemma initializeHistoryFile_forced (w : World) (content : jstring) :
  let backupPath := backupPath_at E historyFilePath w in
  let tempPath := historyFilePath ++ SUFFIX_TMP in
  files w !! historyFilePath = Some content →
  copy_fault_at E historyFilePath backupPath = None →
  unlink_fails E historyFilePath = false →
  write_fault_at E tempPath = None →
  rename_fails E tempPath historyFilePath = false →
  read_fails E historyFilePath = false →
  ∃ w',
    FileManager.initializeHistoryFile E historyFilePath true w = (Ok tt, w') ∧
    files w' !! backupPath = Some content ∧
    FileManager.readHistory E historyFilePath None w' = (Ok (VArr []), w').
Proof.
  intros backupPath tempPath Hfile Hcopy Hunlink Hwrite Hrename Hread.
  pose proof (backup_ne_history historyFilePath
                (FileManager.replace_colon_dot (toISOString E (clock w)))) as Hbh.
  pose proof (backup_ne_tmp historyFilePath
                (FileManager.replace_colon_dot (toISOString E (clock w)))) as Hbt.
  unfold FileManager.initializeHistoryFile. unfold bind at 1.
  rewrite existsSync_match, Hfile. cbn [negb andb].
  unfold bind at 1. unfold bind at 1. rewrite existsSync_match, Hfile.
  cbn [andb].
  rewrite (backupCorruptedFile_ok E historyFilePath w content) by done.
  pose proof empty_history_text as Htext.
  rewrite (atomicWrite_ok E historyFilePath empty_history _ _ Htext) by done.
  eexists. split; [done|]. cbn [files]. split.
  - fold backupPath tempPath.
    rewrite lookup_insert_ne, lookup_delete_ne, lookup_delete_ne,
      lookup_insert_eq by done. done.
  - erewrite (readHistory_written E historyFilePath _ _ [(K_history, VArr [])]);
      try done.
    + apply lookup_insert_eq.
    + by apply empty_history_decodes.
Qed.

End Init.

(* Goes through the lines printed, looking for a reported failure. *)
Ltac find_failure H :=
  repeat (apply elem_of_cons in H as [H|H]; [try done; by injection H|]);
  by apply elem_of_nil in H.

(** X28: [init] on a store that is there, without [--force]: unless the
    answer to the prompt is [y] or [yes], in any mix of upper and lower
    case and with nothing around it, the command prints "Initialization
    cancelled." and returns, and no file is created, changed or
    removed. *)
Theorem handleInit_cancelled (E : Env) (historyFilePath : jstring)
    (answer : jstring) (pause : Z) (w : World) :
  is_Some (files w !! historyFilePath) →
  answer ∉ accepted_answers →
  JyugemuApp.handleInit E historyFilePath false answer pause w
  = (([JyugemuApp.Question historyFilePath; JyugemuApp.Cancelled],
      JyugemuApp.Returned),
     mkWorld (files w) (clock w + pause) (trace w)).
Proof.
  intros [content Hfile] Hanswer. rewrite handleInit_run. cbv zeta.
  unfold after_prompt. rewrite Hfile. cbn [negb andb].
  destruct (JyugemuApp.promptUserConfirmation answer) eqn:Hconfirmed; [|done].
  by apply promptUserConfirmation_accepted in Hconfirmed.
Qed.

Lemma handleInit_cancelled_witness :
  JyugemuApp.handleInit Examples.reliable_env Examples.store_path false
    (js "yes ") 2500 (Examples.world_with Examples.three_records_text)
  = (([JyugemuApp.Question Examples.store_path; JyugemuApp.Cancelled],
      JyugemuApp.Returned),
     mkWorld (files (Examples.world_with Examples.three_records_text)) 3500 []).
Proof.
  apply (handleInit_cancelled Examples.reliable_env Examples.store_path
           (js "yes ") 2500 (Examples.world_with Examples.three_records_text)).
  - vm_compute. eauto.
  - apply (bool_decide_unpack _). by vm_compute.
Defined.

(** X29: [init] on a store that is there, with [--force] or with the
    prompt answered [y] or [yes]: when nothing fails, the store is moved to
    a backup named after the instant at which the initialization starts,
    the store file is written anew and reads as the empty history, and the
    command reports the initialization and returns.  The old records are
    backed up in both cases, since the store is always initialized with
    [force]. *)
Theorem handleInit_overwrites_with_backup (E : Env) (historyFilePath : jstring)
    (force : bool) (answer : jstring) (pause : Z) (w : World) (content : jstring) :
  let w1 := after_prompt historyFilePath force pause w in
  let backupPath := backupPath_at E historyFilePath w1 in
  let tempPath := historyFilePath ++ SUFFIX_TMP in
  files w !! historyFilePath = Some content →
  force = true ∨ answer ∈ accepted_answers →
  copy_fault_at E historyFilePath backupPath = None →
  unlink_fails E historyFilePath = false →
  write_fault_at E tempPath = None →
  rename_fails E tempPath historyFilePath = false →
  read_fails E historyFilePath = false →
  ∃ shown w',
    JyugemuApp.handleInit E historyFilePath force answer pause w
    = ((shown ++ [JyugemuApp.Initialized historyFilePath;
                  JyugemuApp.UsageHeading; JyugemuApp.UsageStart;
                  JyugemuApp.UsageHistory; JyugemuApp.UsageFilter],
        JyugemuApp.Returned), w') ∧
    shown = (if force then [] else [JyugemuApp.Question historyFilePath]) ∧
    files w' !! backupPath = Some content ∧
    FileManager.readHistory E historyFilePath None w' = (Ok (VArr []), w').
Proof.
  intros w1 backupPath tempPath Hfile Hgo Hcopy Hunlink Hwrite Hrename Hread.
  assert (files w1 !! historyFilePath = Some content) as Hfile1.
  { unfold w1, after_prompt. rewrite Hfile. by destruct force. }
  destruct (initializeHistoryFile_forced E historyFilePath w1 content)
    as (w' & Hinit & Hbackup & Hreads); try done.
  rewrite handleInit_run. cbv zeta. fold w1. rewrite Hfile, Hinit.
  replace (negb force && negb (JyugemuApp.promptUserConfirmation answer))
    with false.
  - eexists _, w'. split; [done|]. split; [by destruct force|]. done.
  - destruct Hgo as [->|Hyes]; [done|].
    apply promptUserConfirmation_accepted in Hyes. rewrite Hyes.
    by destruct force.
Qed.

Lemma handleInit_overwrites_with_backup_witness :
  ∃ shown w',
    JyugemuApp.handleInit Examples.reliable_env Examples.store_path false
      (js "Yes") 2500 (Examples.world_with Examples.three_records_text)
    = ((shown ++ [JyugemuApp.Initialized Examples.store_path;
                  JyugemuApp.UsageHeading; JyugemuApp.UsageStart;
                  JyugemuApp.UsageHistory; JyugemuApp.UsageFilter],
        JyugemuApp.Returned), w') ∧
    shown = [JyugemuApp.Question Examples.store_path] ∧
    files w' !! Examples.backup_path = Some Examples.three_records_text ∧
    FileManager.readHistory Examples.reliable_env Examples.store_path None w'
    = (Ok (VArr []), w').
Proof.
  apply (handleInit_overwrites_with_backup Examples.reliable_env
           Examples.store_path false (js "Yes") 2500
           (Examples.world_with Examples.three_records_text)
           Examples.three_records_text); try reflexivity.
  right. apply (bool_decide_unpack _). by vm_compute.
Defined.

(** X30: [init] never loses the records of a store that is there.
    Whatever the flag, the answer and the file operations that fail, the
    text of the store file is afterwards still in the store file or in the
    backup; and the error the command reports, if any, is never that the
    store already exists, but a failed backup or a failed write. *)
Theorem handleInit_keeps_content (E : Env) (historyFilePath : jstring)
    (force : bool) (answer : jstring) (pause : Z) (w w' : World)
    (content : jstring) (shown : list JyugemuApp.console_line)
    (how : JyugemuApp.ending) :
  files w !! historyFilePath = Some content →
  JyugemuApp.handleInit E historyFilePath force answer pause w
    = ((shown, how), w') →
  kept historyFilePath
       (backupPath_at E historyFilePath (after_prompt historyFilePath force pause w))
       content w' ∧
  ∀ e, JyugemuApp.InitFailed e ∈ shown →
       ∃ cause, e = BackupFailed cause ∨ e = WriteFailed cause.
Proof.
  intros Hfile. rewrite handleInit_run. cbv zeta.
  set (w1 := after_prompt historyFilePath force pause w).
  assert (files w1 !! historyFilePath = Some content) as Hfile1.
  { unfold w1, after_prompt. rewrite Hfile. by destruct force. }
  rewrite Hfile.
  destruct (negb force && negb (JyugemuApp.promptUserConfirmation answer)).
  { intros [= <- <- <-]. split; [by left|].
    intros e He. destruct force; cbn in He; by find_failure He. }
  destruct (FileManager.initializeHistoryFile E historyFilePath true w1)
    as [r w2] eqn:Hinit.
  pose proof (initializeHistoryFile_outcome E historyFilePath true w1 w2 r
                content Hfile1 Hinit) as [Hkept _].
  destruct r as [[]|e0]; intros [= <- <- <-]; (split; [done|]).
  - intros e He. destruct force; cbn in He; by find_failure He.
  - intros e He.
    assert (e = e0) as -> by (destruct force; cbn in He; by find_failure He).
    by apply (initializeHistoryFile_forced_error E historyFilePath w1 w2).
Qed.

Lemma handleInit_keeps_content_witness :
  kept Examples.store_path Examples.backup_path Examples.three_records_text
    (snd (JyugemuApp.handleInit Faults.torn_env Examples.store_path true [] 0
            (Examples.world_with Examples.three_records_text))).
Proof.
  apply (handleInit_keeps_content Faults.torn_env Examples.store_path true [] 0
           (Examples.world_with Examples.three_records_text)
           (snd (JyugemuApp.handleInit Faults.torn_env Examples.store_path true
                   [] 0 (Examples.world_with Examples.three_records_text)))
           Examples.three_records_text
           (fst (fst (JyugemuApp.handleInit Faults.torn_env Examples.store_path
                        true [] 0
                        (Examples.world_with Examples.three_records_text))))
           (snd (fst (JyugemuApp.handleInit Faults.torn_env Examples.store_path
                        true [] 0
                        (Examples.world_with Examples.three_records_text)))));
    [reflexivity|].
  by destruct (JyugemuApp.handleInit _ _ _ _ _ _) as [[? ?] ?].
Defined.
